(** * Atrament: stroke renderer, pointer tracker and fill engine

    A shallow embedding of [src/atrament.js] and [src/pointer.js].

    The object of the JavaScript class is split along the two algorithms
    of the program.  Module [Stroke] holds the pointer tracker, the
    stroke renderer, stroke recording and the property setters; its
    numbers are real numbers, because the renderer takes a square root
    (JavaScript's doubles are idealised: no rounding, no NaN except the
    elapsed time of a sample taken with no stroke timestamp, which is
    kept as [None]).  Module [Fill] holds the fill queue and the scanline
    flood fill; its pixel buffer is a list of bytes indexed by byte
    offset, its coordinates are rationals (the code only floors them) and
    its operations compute; their loops run on fuel, and [None] means that
    the fuel did not cover them.

    [constants.js], [pixels.js] and [events.js] are not among the
    sources.  The constants are a record the definitions take as a
    parameter; the helpers of [pixels.js] are modelled from the
    specification, each under a comment that says so; [dispatchEvent]
    appends to a log of dispatched events. *)

From Stdlib Require Import ZArith QArith Qround Qminmax Reals Lra Lia List Bool String DecimalString.
From stdpp Require Import base list.
Import ListNotations.

(** ** Stroke renderer and pointer tracker *)

Module Stroke.

Local Open Scope R_scope.

(** The constants of [constants.js] that [atrament.js] reads. *)
Record Constants := {
  minLineThickness : R;
  lineThicknessRange : R;
  thicknessIncrement : R;
  minSmoothingFactor : R;
  initialSmoothingFactor : R;
  weightSpread : R;
  initialThickness : R
}.

(** JavaScript values, as far as [typeof] tells them apart. *)
Inductive value :=
| VUndefined
| VNull
| VBoolean (b : bool)
| VNumber (r : R)
| VString (s : string)
| VObject
| VFunction.

Definition typeof (v : value) : string :=
  match v with
  | VUndefined => "undefined"
  | VNull => "object"
  | VBoolean _ => "boolean"
  | VNumber _ => "number"
  | VString _ => "string"
  | VObject => "object"
  | VFunction => "function"
  end.

(** How a call ends: normally, or by [throw new Error(msg)]. *)
Inductive completion :=
| Normal
| Throw (msg : string).

(** [pointer.js]: class Point, and class Pointer extends Point. *)
Record Point := { x : R; y : R }.

Record Pointer := {
  pos : Point;
  down : bool;
  previous : Point
}.

Definition Point_set (nx ny : R) (_ : Point) : Point := {| x := nx; y := ny |}.

Definition Pointer_set (nx ny : R) (p : Pointer) : Pointer :=
  {| pos := Point_set nx ny (pos p); down := down p; previous := previous p |}.

Definition Pointer_previous_set (nx ny : R) (p : Pointer) : Pointer :=
  {| pos := pos p; down := down p; previous := Point_set nx ny (previous p) |}.

Definition Pointer_set_down (b : bool) (p : Pointer) : Pointer :=
  {| pos := pos p; down := b; previous := previous p |}.

Definition newPointer : Pointer :=
  {| pos := {| x := 0; y := 0 |}; down := false; previous := {| x := 0; y := 0 |} |}.

(** The path primitives of the 2D context, logged in call order. *)
Inductive PathOp :=
| BeginPath
| MoveTo (px py : R)
| QuadraticCurveTo (cx cy px py : R)
| StrokePath
| ClosePath.

Record Context := {
  globalCompositeOperation : string;
  strokeStyle : string;
  lineWidth : R;
  path : list PathOp
}.

Definition DRAW : string := "draw".
Definition ERASE : string := "erase".
Definition FILL : string := "fill".
Definition DISABLED : string := "disabled".
Definition PICKER : string := "picker".

Definition PathDrawingModes : list string := [DRAW; ERASE].

Definition includes (l : list string) (m : string) : bool :=
  existsb (String.eqb m) l.

(** One entry of [strokeMemory]: [{ point, time }].  [time] is
    [performance.now() - this.strokeTimestamp]; it is [None] (NaN) when no
    stroke timestamp is set. *)
Record Sample := { point : Point; time : option R }.

Record RecordedStroke := {
  points : list Sample;
  stroke_mode : string;
  stroke_weight : R;
  stroke_smoothing : R;
  stroke_color : string;
  stroke_adaptiveStroke : bool
}.

Inductive Event :=
| strokestart (px py : R)
| strokeend (px py : R)
| strokerecorded (stroke : RecordedStroke)
| dirty.

Record Atrament := {
  pointer : Pointer;
  context : Context;
  recordStrokes : bool;
  strokeMemory : list Sample;
  strokeTimestamp : option R;
  smoothing : R;
  _thickness : R;
  _targetThickness : R;
  _weight : R;
  _maxWeight : R;
  _mode : string;
  adaptiveStroke : bool;
  _dirty : bool;
  dispatched : list Event
}.

(** Field updates, one per assignment target of the source. *)
Definition with_pointer (p : Pointer) (a : Atrament) : Atrament :=
  {| pointer := p; context := context a; recordStrokes := recordStrokes a;
     strokeMemory := strokeMemory a; strokeTimestamp := strokeTimestamp a;
     smoothing := smoothing a; _thickness := _thickness a;
     _targetThickness := _targetThickness a; _weight := _weight a;
     _maxWeight := _maxWeight a; _mode := _mode a;
     adaptiveStroke := adaptiveStroke a; _dirty := _dirty a;
     dispatched := dispatched a |}.

Definition with_context (c : Context) (a : Atrament) : Atrament :=
  {| pointer := pointer a; context := c; recordStrokes := recordStrokes a;
     strokeMemory := strokeMemory a; strokeTimestamp := strokeTimestamp a;
     smoothing := smoothing a; _thickness := _thickness a;
     _targetThickness := _targetThickness a; _weight := _weight a;
     _maxWeight := _maxWeight a; _mode := _mode a;
     adaptiveStroke := adaptiveStroke a; _dirty := _dirty a;
     dispatched := dispatched a |}.

Definition with_strokeMemory (m : list Sample) (a : Atrament) : Atrament :=
  {| pointer := pointer a; context := context a; recordStrokes := recordStrokes a;
     strokeMemory := m; strokeTimestamp := strokeTimestamp a;
     smoothing := smoothing a; _thickness := _thickness a;
     _targetThickness := _targetThickness a; _weight := _weight a;
     _maxWeight := _maxWeight a; _mode := _mode a;
     adaptiveStroke := adaptiveStroke a; _dirty := _dirty a;
     dispatched := dispatched a |}.

Definition with_strokeTimestamp (t : option R) (a : Atrament) : Atrament :=
  {| pointer := pointer a; context := context a; recordStrokes := recordStrokes a;
     strokeMemory := strokeMemory a; strokeTimestamp := t;
     smoothing := smoothing a; _thickness := _thickness a;
     _targetThickness := _targetThickness a; _weight := _weight a;
     _maxWeight := _maxWeight a; _mode := _mode a;
     adaptiveStroke := adaptiveStroke a; _dirty := _dirty a;
     dispatched := dispatched a |}.

Definition with_thickness (t : R) (a : Atrament) : Atrament :=
  {| pointer := pointer a; context := context a; recordStrokes := recordStrokes a;
     strokeMemory := strokeMemory a; strokeTimestamp := strokeTimestamp a;
     smoothing := smoothing a; _thickness := t;
     _targetThickness := _targetThickness a; _weight := _weight a;
     _maxWeight := _maxWeight a; _mode := _mode a;
     adaptiveStroke := adaptiveStroke a; _dirty := _dirty a;
     dispatched := dispatched a |}.

Definition with_targetThickness (t : R) (a : Atrament) : Atrament :=
  {| pointer := pointer a; context := context a; recordStrokes := recordStrokes a;
     strokeMemory := strokeMemory a; strokeTimestamp := strokeTimestamp a;
     smoothing := smoothing a; _thickness := _thickness a;
     _targetThickness := t; _weight := _weight a;
     _maxWeight := _maxWeight a; _mode := _mode a;
     adaptiveStroke := adaptiveStroke a; _dirty := _dirty a;
     dispatched := dispatched a |}.

Definition with_weight (w : R) (a : Atrament) : Atrament :=
  {| pointer := pointer a; context := context a; recordStrokes := recordStrokes a;
     strokeMemory := strokeMemory a; strokeTimestamp := strokeTimestamp a;
     smoothing := smoothing a; _thickness := _thickness a;
     _targetThickness := _targetThickness a; _weight := w;
     _maxWeight := _maxWeight a; _mode := _mode a;
     adaptiveStroke := adaptiveStroke a; _dirty := _dirty a;
     dispatched := dispatched a |}.

Definition with_maxWeight (w : R) (a : Atrament) : Atrament :=
  {| pointer := pointer a; context := context a; recordStrokes := recordStrokes a;
     strokeMemory := strokeMemory a; strokeTimestamp := strokeTimestamp a;
     smoothing := smoothing a; _thickness := _thickness a;
     _targetThickness := _targetThickness a; _weight := _weight a;
     _maxWeight := w; _mode := _mode a;
     adaptiveStroke := adaptiveStroke a; _dirty := _dirty a;
     dispatched := dispatched a |}.

Definition with_mode (m : string) (a : Atrament) : Atrament :=
  {| pointer := pointer a; context := context a; recordStrokes := recordStrokes a;
     strokeMemory := strokeMemory a; strokeTimestamp := strokeTimestamp a;
     smoothing := smoothing a; _thickness := _thickness a;
     _targetThickness := _targetThickness a; _weight := _weight a;
     _maxWeight := _maxWeight a; _mode := m;
     adaptiveStroke := adaptiveStroke a; _dirty := _dirty a;
     dispatched := dispatched a |}.

Definition with_dirty (b : bool) (a : Atrament) : Atrament :=
  {| pointer := pointer a; context := context a; recordStrokes := recordStrokes a;
     strokeMemory := strokeMemory a; strokeTimestamp := strokeTimestamp a;
     smoothing := smoothing a; _thickness := _thickness a;
     _targetThickness := _targetThickness a; _weight := _weight a;
     _maxWeight := _maxWeight a; _mode := _mode a;
     adaptiveStroke := adaptiveStroke a; _dirty := b;
     dispatched := dispatched a |}.

Definition dispatchEvent (e : Event) (a : Atrament) : Atrament :=
  {| pointer := pointer a; context := context a; recordStrokes := recordStrokes a;
     strokeMemory := strokeMemory a; strokeTimestamp := strokeTimestamp a;
     smoothing := smoothing a; _thickness := _thickness a;
     _targetThickness := _targetThickness a; _weight := _weight a;
     _maxWeight := _maxWeight a; _mode := _mode a;
     adaptiveStroke := adaptiveStroke a; _dirty := _dirty a;
     dispatched := dispatched a ++ [e] |}.

(** [atrament.recordStrokes = b], a plain property of the object. *)
Definition with_recordStrokes (b : bool) (a : Atrament) : Atrament :=
  {| pointer := pointer a; context := context a; recordStrokes := b;
     strokeMemory := strokeMemory a; strokeTimestamp := strokeTimestamp a;
     smoothing := smoothing a; _thickness := _thickness a;
     _targetThickness := _targetThickness a; _weight := _weight a;
     _maxWeight := _maxWeight a; _mode := _mode a;
     adaptiveStroke := adaptiveStroke a; _dirty := _dirty a;
     dispatched := dispatched a |}.

(** [atrament.adaptiveStroke = b] and [atrament.smoothing = r], plain
    properties of the object. *)
Definition with_adaptiveStroke (b : bool) (a : Atrament) : Atrament :=
  {| pointer := pointer a; context := context a; recordStrokes := recordStrokes a;
     strokeMemory := strokeMemory a; strokeTimestamp := strokeTimestamp a;
     smoothing := smoothing a; _thickness := _thickness a;
     _targetThickness := _targetThickness a; _weight := _weight a;
     _maxWeight := _maxWeight a; _mode := _mode a;
     adaptiveStroke := b; _dirty := _dirty a;
     dispatched := dispatched a |}.

Definition with_smoothing (r : R) (a : Atrament) : Atrament :=
  {| pointer := pointer a; context := context a; recordStrokes := recordStrokes a;
     strokeMemory := strokeMemory a; strokeTimestamp := strokeTimestamp a;
     smoothing := r; _thickness := _thickness a;
     _targetThickness := _targetThickness a; _weight := _weight a;
     _maxWeight := _maxWeight a; _mode := _mode a;
     adaptiveStroke := adaptiveStroke a; _dirty := _dirty a;
     dispatched := dispatched a |}.

(** Context updates. *)
Definition ctx_issue (ops : list PathOp) (c : Context) : Context :=
  {| globalCompositeOperation := globalCompositeOperation c;
     strokeStyle := strokeStyle c; lineWidth := lineWidth c;
     path := path c ++ ops |}.

Definition ctx_lineWidth (w : R) (c : Context) : Context :=
  {| globalCompositeOperation := globalCompositeOperation c;
     strokeStyle := strokeStyle c; lineWidth := w; path := path c |}.

Definition ctx_strokeStyle (s : string) (c : Context) : Context :=
  {| globalCompositeOperation := globalCompositeOperation c;
     strokeStyle := s; lineWidth := lineWidth c; path := path c |}.

Definition ctx_composite (s : string) (c : Context) : Context :=
  {| globalCompositeOperation := s;
     strokeStyle := strokeStyle c; lineWidth := lineWidth c; path := path c |}.

(** Modelled from the spec: [Pixels.lineDistance] of [pixels.js], which is
    not among the sources.  The specification calls it the Euclidean
    distance between the two points. *)
Definition lineDistance (x1 y1 x2 y2 : R) : R :=
  sqrt ((x2 - x1) * (x2 - x1) + (y2 - y1) * (y2 - y1)).

(** [performance.now() - this.strokeTimestamp]. *)
Definition elapsed (now : R) (a : Atrament) : option R :=
  match strokeTimestamp a with
  | Some t0 => Some (now - t0)
  | None => None
  end.

(** [this.strokeMemory.push({ point: new Point(x, y), time: ... })] *)
Definition remember (now px py : R) (a : Atrament) : Atrament :=
  with_strokeMemory
    (strokeMemory a ++ [ {| point := {| x := px; y := py |}; time := elapsed now a |} ]) a.

Section WithConstants.

Variable K : Constants.

(** The constructor's drawing parameters (the canvas lookup, the listeners
    and the copy of the configuration object are left out). *)
Definition construct (color : string) : Atrament :=
  {| pointer := newPointer;
     context := {| globalCompositeOperation := "source-over";
                   strokeStyle := color; lineWidth := 1; path := [] |};
     recordStrokes := false;
     strokeMemory := [];
     strokeTimestamp := None;
     smoothing := initialSmoothingFactor K;
     _thickness := initialThickness K;
     _targetThickness := initialThickness K;
     _weight := initialThickness K;
     _maxWeight := initialThickness K + weightSpread K;
     _mode := DRAW;
     adaptiveStroke := true;
     _dirty := false;
     dispatched := [] |}.

(** [beginStroke(x, y)].  [now1] and [now2] are the readings of the two
    calls of [performance.now()]. *)
Definition beginStroke (now1 now2 : R) (px py : R) (a : Atrament) : Atrament :=
  let a := with_context (ctx_issue [BeginPath; MoveTo px py] (context a)) a in
  let a := if recordStrokes a
           then remember now2 px py (with_strokeTimestamp (Some now1) a)
           else a in
  dispatchEvent (strokestart px py) a.

(** [endStroke(x, y)]. *)
Definition endStroke (now : R) (px py : R) (a : Atrament) : Atrament :=
  let a := with_context (ctx_issue [ClosePath] (context a)) a in
  let a := if recordStrokes a then remember now px py a else a in
  let a := dispatchEvent (strokeend px py) a in
  let a := if recordStrokes a
           then dispatchEvent
                  (strokerecorded
                     {| points := strokeMemory a;
                        stroke_mode := _mode a;
                        stroke_weight := _weight a;
                        stroke_smoothing := smoothing a;
                        stroke_color := strokeStyle (context a);
                        stroke_adaptiveStroke := adaptiveStroke a |}) a
           else a in
  with_strokeTimestamp None (with_strokeMemory [] a).

(** The smoothing factor of [draw]. *)
Definition smoothingFactor (a : Atrament) (px py prevX prevY : R) : R :=
  Rmin (minSmoothingFactor K)
       (smoothing a + (lineDistance px py prevX prevY - 60) / 3000).

(** The target thickness that a call of [draw] computes. *)
Definition targetOf (px py prevX prevY : R) (a : Atrament) : R :=
  let factor := smoothingFactor a px py prevX prevY in
  let dist := lineDistance (px - (px - prevX) * factor) (py - (py - prevY) * factor)
                           prevX prevY in
  (dist - minLineThickness K) / lineThicknessRange K * (_maxWeight a - _weight a)
  + _weight a.

(** The adaptive branch of [draw]: the new target, then one step of
    [_thickness] towards it. *)
Definition approach (dist : R) (a : Atrament) : Atrament :=
  let a := with_targetThickness
             ((dist - minLineThickness K) / lineThicknessRange K
                * (_maxWeight a - _weight a) + _weight a) a in
  let a := if Rlt_dec (_targetThickness a) (_thickness a)
           then with_thickness (_thickness a - thicknessIncrement K) a
           else if Rlt_dec (_thickness a) (_targetThickness a)
                then with_thickness (_thickness a + thicknessIncrement K) a
                else a in
  with_context (ctx_lineWidth (_thickness a) (context a)) a.

(** [draw(x, y, prevX, prevY)]: the object after the call and the
    returned point. *)
Definition draw (now : R) (px py prevX prevY : R) (a : Atrament) : Atrament * Point :=
  let a := if recordStrokes a then remember now px py a else a in
  let factor := smoothingFactor a px py prevX prevY in
  let procX := px - (px - prevX) * factor in
  let procY := py - (py - prevY) * factor in
  let dist := lineDistance procX procY prevX prevY in
  let a := if adaptiveStroke a
           then approach dist a
           else with_context (ctx_lineWidth (_weight a) (context a)) a in
  let a := with_context
             (ctx_issue [QuadraticCurveTo prevX prevY procX procY; StrokePath] (context a)) a in
  (a, {| x := procX; y := procY |}).

(** The [pointermove] handler; [ox], [oy] are [event.offsetX] and
    [event.offsetY]. *)
Definition pointerMove (now : R) (ox oy : R) (a : Atrament) : Atrament :=
  if down (pointer a) && includes PathDrawingModes (_mode a)
  then
    let '(a1, new) := draw now ox oy (x (previous (pointer a))) (y (previous (pointer a))) a in
    let a2 := if negb (_dirty a1) && String.eqb (_mode a1) DRAW
                 && negb (if Req_dec_T ox (x (pos (pointer a1))) then
                            if Req_dec_T oy (y (pos (pointer a1))) then true else false
                          else false)
              then dispatchEvent dirty (with_dirty true a1)
              else a1 in
    let a3 := with_pointer (Pointer_set ox oy (pointer a2)) a2 in
    with_pointer (Pointer_previous_set (x new) (y new) (pointer a3)) a3
  else with_pointer (Pointer_set ox oy (pointer a)) a.

(** [set color(c)]. *)
Definition set_color (c : value) (a : Atrament) : Atrament * completion :=
  match c with
  | VString s => (with_context (ctx_strokeStyle s (context a)) a, Normal)
  | _ => (a, Throw "wrong argument type")
  end.

(** [set weight(w)]. *)
Definition set_weight (w : value) (a : Atrament) : Atrament * completion :=
  match w with
  | VNumber r =>
      let a := with_weight r a in
      let a := with_thickness r a in
      let a := with_targetThickness r a in
      (with_maxWeight (r + weightSpread K) a, Normal)
  | _ => (a, Throw "wrong argument type")
  end.

(** [set mode(m)]. *)
Definition set_mode (m : value) (a : Atrament) : Atrament * completion :=
  match m with
  | VString s =>
      if String.eqb s ERASE then
        (with_context (ctx_composite "destination-out" (context (with_mode ERASE a)))
                      (with_mode ERASE a), Normal)
      else if String.eqb s FILL then
        (with_context (ctx_composite "source-over" (context (with_mode FILL a)))
                      (with_mode FILL a), Normal)
      else if String.eqb s DISABLED then (with_mode DISABLED a, Normal)
      else if String.eqb s PICKER then (with_mode PICKER a, Normal)
      else
        (with_context (ctx_composite "source-over" (context (with_mode DRAW a)))
                      (with_mode DRAW a), Normal)
  | _ => (a, Throw "wrong argument type")
  end.

(** A run of [draw] calls, each given as
    [(now, x, y, prevX, prevY)]; the returned points are dropped. *)
Definition drawAll (calls : list (R * R * R * R * R)) (a : Atrament) : Atrament :=
  fold_left
    (fun a c => let '(now, px, py, prevX, prevY) := c in
                fst (draw now px py prevX prevY a))
    calls a.

End WithConstants.

(** The entry of [strokeMemory] that the call [c] of [draw] leaves when
    the stroke's timestamp is [t0]. *)
Definition sampleOf (t0 : option R) (c : R * R * R * R * R) : Sample :=
  let '(now, px, py, _, _) := c in
  {| point := {| x := px; y := py |};
     time := match t0 with Some t => Some (now - t) | None => None end |}.

(** A sample choice of the constants, for the concrete runs below. *)
Definition sampleConstants : Constants :=
  {| minLineThickness := 1;
     lineThicknessRange := 49;
     thicknessIncrement := 1 / 2;
     minSmoothingFactor := 87 / 100;
     initialSmoothingFactor := 85 / 100;
     weightSpread := 10;
     initialThickness := 2 |}.

(** A fast horizontal move: the sample is 3000 pixels right of the
    previous point. *)
Definition farCall : R * R * R * R * R := (0, 3000, 0, 0, 0).

(** Readings in time order: each at most, or less than, the next. *)
Fixpoint ascending (l : list R) : Prop :=
  match l with
  | a :: (b :: _) as rest => a <= b /\ ascending rest
  | _ => True
  end.

Fixpoint strictlyAscending (l : list R) : Prop :=
  match l with
  | a :: (b :: _) as rest => a < b /\ strictlyAscending rest
  | _ => True
  end.

End Stroke.

(** ** Fill engine *)

Module Fill.

Local Open Scope Z_scope.

(** A colour as four bytes; [startColor] is such an array, and so is one
    pixel of the buffer. *)
Record rgba := { red : Z; green : Z; blue : Z; opacity : Z }.

Inductive Event :=
| fillstart (px py : Q)
| fillend.

(** The 2D context as the fill engine uses it: the canvas size, the
    surface's pixel buffer (width * height * 4 bytes, row-major), the
    stroke colour, the global alpha, and the number of [putImageData]
    commits made so far. *)
Record Context := {
  canvas_width : Z;
  canvas_height : Z;
  surface : list Z;
  strokeStyle : string;
  globalAlpha : Q;
  commits : nat
}.

(** One entry of [_fillStack]: [[pointer.x, pointer.y, startColor]]. *)
Record FillRequest := { seedX : Q; seedY : Q; seedColor : rgba }.

(** [timers] are the callbacks handed to [setTimeout] that have not run
    yet, oldest first.  The callback of [fill] closes over the pointer
    object and over [startColor]; only the latter is a value of its own,
    the pointer is read from the object when the callback runs. *)
Record Atrament := {
  pointerX : Q;
  pointerY : Q;
  context : Context;
  _filling : bool;
  _fillStack : list FillRequest;
  timers : list rgba;
  dispatched : list Event
}.

Definition with_pointer (px py : Q) (a : Atrament) : Atrament :=
  {| pointerX := px; pointerY := py; context := context a;
     _filling := _filling a; _fillStack := _fillStack a;
     timers := timers a; dispatched := dispatched a |}.

Definition with_context (c : Context) (a : Atrament) : Atrament :=
  {| pointerX := pointerX a; pointerY := pointerY a; context := c;
     _filling := _filling a; _fillStack := _fillStack a;
     timers := timers a; dispatched := dispatched a |}.

Definition with_filling (b : bool) (a : Atrament) : Atrament :=
  {| pointerX := pointerX a; pointerY := pointerY a; context := context a;
     _filling := b; _fillStack := _fillStack a;
     timers := timers a; dispatched := dispatched a |}.

Definition with_fillStack (q : list FillRequest) (a : Atrament) : Atrament :=
  {| pointerX := pointerX a; pointerY := pointerY a; context := context a;
     _filling := _filling a; _fillStack := q;
     timers := timers a; dispatched := dispatched a |}.

Definition with_timers (t : list rgba) (a : Atrament) : Atrament :=
  {| pointerX := pointerX a; pointerY := pointerY a; context := context a;
     _filling := _filling a; _fillStack := _fillStack a;
     timers := t; dispatched := dispatched a |}.

Definition dispatchEvent (e : Event) (a : Atrament) : Atrament :=
  {| pointerX := pointerX a; pointerY := pointerY a; context := context a;
     _filling := _filling a; _fillStack := _fillStack a;
     timers := timers a; dispatched := dispatched a ++ [e] |}.

(** [data[i]] of a typed array: [None] is [undefined] (index out of range). *)
Definition byteAt (data : list Z) (i : Z) : option Z :=
  if i <? 0 then None else data !! Z.to_nat i.

(** [data[i] = v] of a typed array: ignored out of range. *)
Definition setByte (i : Z) (v : Z) (data : list Z) : list Z :=
  if i <? 0 then data else <[Z.to_nat i := v]> data.

(** The four bytes of the pixel that starts at byte offset [pixelPos]. *)
Definition readPixel (data : list Z) (pixelPos : Z) : option rgba :=
  match byteAt data pixelPos, byteAt data (pixelPos + 1),
        byteAt data (pixelPos + 2), byteAt data (pixelPos + 3) with
  | Some r, Some g, Some b, Some a =>
      Some {| red := r; green := g; blue := b; opacity := a |}
  | _, _, _, _ => None
  end.

Definition writePixel (pixelPos : Z) (c : rgba) (data : list Z) : list Z :=
  setByte (pixelPos + 3) (opacity c)
    (setByte (pixelPos + 2) (blue c)
       (setByte (pixelPos + 1) (green c)
          (setByte pixelPos (red c) data))).

(** [putImageData(colorLayer, 0, 0)]: one write of the whole buffer. *)
Definition putImageData (layer : list Z) (c : Context) : Context :=
  {| canvas_width := canvas_width c; canvas_height := canvas_height c;
     surface := layer; strokeStyle := strokeStyle c;
     globalAlpha := globalAlpha c; commits := S (commits c) |}.

(** Conversion of a number to the [long] argument of [getImageData]:
    the fraction is dropped. *)
Definition toLong (q : Q) : Z := Z.quot (Qnum q) (Zpos (Qden q)).

(** [Array.from(context.getImageData(sx, sy, 1, 1).data)]: the pixel at
    the given position, transparent black outside the canvas. *)
Definition getImageData1 (c : Context) (sx sy : Q) : rgba :=
  let px := toLong sx in
  let py := toLong sy in
  if (0 <=? px) && (px <? canvas_width c) && (0 <=? py) && (py <? canvas_height c)
  then match readPixel (surface c) ((py * canvas_width c + px) * 4) with
       | Some p => p
       | None => {| red := 0; green := 0; blue := 0; opacity := 0 |}
       end
  else {| red := 0; green := 0; blue := 0; opacity := 0 |}.

Section WithPixels.

(** The parts of [pixels.js] (not among the sources) that the
    specification leaves open: the comparison of a pixel with a reference
    colour "within an implementation-defined tolerance", the blend that
    [colorPixel] writes, and the conversion of the stroke colour to RGB. *)
Variable similar : rgba -> rgba -> bool.
Variable blend : rgba -> Z * Z * Z -> rgba -> Q -> rgba.
Variable hexToRgb : string -> Z * Z * Z.

(** Modelled from the spec: [Pixels.matchColor(data, r, g, b, a)(pixelPos)]
    of [pixels.js]: true if the pixel at the offset equals the reference
    colour within the tolerance.  A pixel that is not in the buffer
    matches nothing. *)
Definition matchColor (data : list Z) (comp : rgba) (pixelPos : Z) : bool :=
  match readPixel data pixelPos with
  | Some p => similar p comp
  | None => false
  end.

(** Modelled from the spec:
    [Pixels.colorPixel(data, r, g, b, startColor, alpha)(pixelPos)] of
    [pixels.js]: writes a blended colour at the given offset; the blend
    weight derives from [alpha]. *)
Definition colorPixel (fillColor : Z * Z * Z) (startColor : rgba) (alpha : Q)
    (pixelPos : Z) (data : list Z) : list Z :=
  match readPixel data pixelPos with
  | Some old => writePixel pixelPos (blend old fillColor startColor alpha) data
  | None => data
  end.

Section Pass.

Variables canvasWidth canvasHeight : Z.
Variable fillColor : Z * Z * Z.
Variable startColor : rgba.
Variable alpha : Q.

(** [while (y-- >= 0 && matchColor(pixelPos)) pixelPos -= canvasWidth * 4;]
    The result is [y] and [pixelPos] after the loop. *)
Fixpoint walkUp (fuel : nat) (data : list Z) (y pixelPos : Z) : option (Z * Z) :=
  match fuel with
  | O => None
  | S fuel' =>
      if (0 <=? y) && matchColor data startColor pixelPos
      then walkUp fuel' data (y - 1) (pixelPos - canvasWidth * 4)
      else Some (y - 1, pixelPos)
  end.

(** One side of the body of the downward loop: the neighbour at
    [neighbourPos] in column [nx]; the result is the stack and the
    "reached" flag of that side. *)
Definition lookSide (data : list Z) (neighbourPos nx y : Z) (reach : bool)
    (pixelStack : list (Z * Z)) : list (Z * Z) * bool :=
  if matchColor data startColor neighbourPos
  then if negb reach then ((nx, y) :: pixelStack, true) else (pixelStack, reach)
  else if reach then (pixelStack, false) else (pixelStack, reach).

(** [while (y++ < canvasHeight - 1 && matchColor(pixelPos)) { ... }]
    The stack is a list whose head is the last element of the array. *)
Fixpoint walkDown (fuel : nat) (x y pixelPos : Z) (reachLeft reachRight : bool)
    (data : list Z) (pixelStack : list (Z * Z)) : option (list Z * list (Z * Z)) :=
  match fuel with
  | O => None
  | S fuel' =>
      if (y <? canvasHeight - 1) && matchColor data startColor pixelPos
      then
        let y := y + 1 in
        let data := colorPixel fillColor startColor alpha pixelPos data in
        let '(pixelStack, reachLeft) :=
          if 0 <? x
          then lookSide data (pixelPos - 4) (x - 1) y reachLeft pixelStack
          else (pixelStack, reachLeft) in
        let '(pixelStack, reachRight) :=
          if x <? canvasWidth - 1
          then lookSide data (pixelPos + 4) (x + 1) y reachRight pixelStack
          else (pixelStack, reachRight) in
        walkDown fuel' x y (pixelPos + canvasWidth * 4) reachLeft reachRight
                 data pixelStack
      else Some (data, pixelStack)
  end.

(** [while (pixelStack.length) { ... }]: the buffer when the stack is
    empty. *)
Fixpoint scan (fuel : nat) (data : list Z) (pixelStack : list (Z * Z)) : option (list Z) :=
  match fuel with
  | O => None
  | S fuel' =>
      match pixelStack with
      | [] => Some data
      | (x, y) :: pixelStack =>
          let pixelPos := (y * canvasWidth + x) * 4 in
          match walkUp fuel' data y pixelPos with
          | None => None
          | Some (y, pixelPos) =>
              let pixelPos := pixelPos + canvasWidth * 4 in
              let y := y + 1 in
              match walkDown fuel' x y pixelPos false false data pixelStack with
              | None => None
              | Some (data, pixelStack) => scan fuel' data pixelStack
              end
          end
      end
  end.

End Pass.

(** [Math.min(context.globalAlpha * 10 * 255, 255)] *)
Definition fillAlpha (c : Context) : Q :=
  Qmin (globalAlpha c * 10 * 255) 255.

Definition fillColorOf (c : Context) : Z * Z * Z := hexToRgb (strokeStyle c).

Definition opaque (fc : Z * Z * Z) : rgba :=
  let '(r, g, b) := fc in {| red := r; green := g; blue := b; opacity := 255 |}.

(** [_floodFill(_startX, _startY, startColor)].  [None] when the fuel does
    not cover the loops. *)
Fixpoint _floodFill (fuel : nat) (_startX _startY : Q) (startColor : rgba)
    (a : Atrament) : option Atrament :=
  match fuel with
  | O => None
  | S fuel' =>
      let ctx := context a in
      let startX := Qfloor _startX in
      let startY := Qfloor _startY in
      let canvasWidth := canvas_width ctx in
      let canvasHeight := canvas_height ctx in
      let fillColor := fillColorOf ctx in
      let colorLayer := surface ctx in
      let alpha := fillAlpha ctx in
      if matchColor colorLayer (opaque fillColor) ((startY * canvas_width ctx + startX) * 4)
      then Some (dispatchEvent fillend (with_filling false a))
      else
        match scan canvasWidth canvasHeight fillColor startColor alpha fuel'
                   colorLayer [(startX, startY)] with
        | None => None
        | Some colorLayer =>
            let a := with_context (putImageData colorLayer ctx) a in
            match _fillStack a with
            | next :: rest =>
                _floodFill fuel' (seedX next) (seedY next) (seedColor next)
                           (with_fillStack rest a)
            | [] => Some (dispatchEvent fillend (with_filling false a))
            end
        end
  end.

(** [fill()] *)
Definition fill (a : Atrament) : Atrament :=
  let startColor := getImageData1 (context a) (pointerX a) (pointerY a) in
  if negb (_filling a)
  then
    let a := dispatchEvent (fillstart (pointerX a) (pointerY a)) a in
    let a := with_filling true a in
    with_timers (timers a ++ [startColor]) a
  else
    with_fillStack
      (_fillStack a ++
         [ {| seedX := pointerX a; seedY := pointerY a; seedColor := startColor |} ]) a.

(** The oldest pending timer fires:
    [() => { this._floodFill(pointer.x, pointer.y, startColor); }] *)
Definition fireTimer (fuel : nat) (a : Atrament) : option Atrament :=
  match timers a with
  | [] => Some a
  | startColor :: rest =>
      _floodFill fuel (pointerX a) (pointerY a) startColor (with_timers rest a)
  end.

(** The [pointerdown] handler in fill mode: [pointerMove(event)], which
    only stores the position, then [this.fill()]. *)
Definition pointerDown (ox oy : Q) (a : Atrament) : Atrament :=
  fill (with_pointer ox oy a).

End WithPixels.

(** Off-sets and regions of the buffer. *)
Definition offset (canvasWidth x y : Z) : Z := (y * canvasWidth + x) * 4.

Definition inGrid (canvasWidth canvasHeight x y : Z) : Prop :=
  0 <= x < canvasWidth /\ 0 <= y < canvasHeight.

Definition inRect (x0 x1 y0 y1 x y : Z) : bool :=
  (x0 <=? x) && (x <=? x1) && (y0 <=? y) && (y <=? y1).

(** The 4-connected closure of the seed [(sx, sy)] under
    [matchColor(., startColor)] in the buffer [data]. *)
Inductive connected (similar : rgba -> rgba -> bool) (canvasWidth canvasHeight : Z)
    (data : list Z) (startColor : rgba) (sx sy : Z) : Z -> Z -> Prop :=
| connected_seed :
    inGrid canvasWidth canvasHeight sx sy ->
    matchColor similar data startColor (offset canvasWidth sx sy) = true ->
    connected similar canvasWidth canvasHeight data startColor sx sy sx sy
| connected_step x y x' y' :
    connected similar canvasWidth canvasHeight data startColor sx sy x y ->
    (x' = x /\ (y' = y + 1 \/ y' = y - 1)) \/ (y' = y /\ (x' = x + 1 \/ x' = x - 1)) ->
    inGrid canvasWidth canvasHeight x' y' ->
    matchColor similar data startColor (offset canvasWidth x' y') = true ->
    connected similar canvasWidth canvasHeight data startColor sx sy x' y'.

(** The pixels painted at a point of the scan of the rectangle
    [x0..x1] by [y0..y1]: the columns in [base], and the rows above [r] of
    the column [c] in progress, all within the rectangle. *)
Definition paintedSet (x0 x1 y0 y1 : Z) (base : Z -> bool) (c r : Z) (x y : Z) : bool :=
  inRect x0 x1 y0 y1 x y && (base x || ((x =? c) && (y <? r))).

(** The pixels of the rectangle that lie in the columns of [base]. *)
Definition paintedColumns (x0 x1 y0 y1 : Z) (base : Z -> bool) (x y : Z) : bool :=
  inRect x0 x1 y0 y1 x y && base x.

(** Whether the columns left and right of [c] are in the rectangle and
    not painted yet. *)
Definition leftOpen (x0 : Z) (base : Z -> bool) (c : Z) : bool :=
  (x0 <=? c - 1) && negb (base (c - 1)).

Definition rightOpen (x1 : Z) (base : Z -> bool) (c : Z) : bool :=
  (c + 1 <=? x1) && negb (base (c + 1)).

(** The seeds that a run of column [c] starting at row [r] pushes: the
    right one on top of the left one. *)
Definition pushes (x0 x1 : Z) (base : Z -> bool) (c r : Z)
    (reachLeft reachRight : bool) : list (Z * Z) :=
  (if rightOpen x1 base c && negb reachRight then [(c + 1, r)] else [])
  ++ (if leftOpen x0 base c && negb reachLeft then [(c - 1, r)] else []).

(** The columns from [a] to [b]. *)
Definition columns (a b : Z) (x : Z) : bool := (a <=? x) && (x <=? b).

(** [data] is the buffer [data0] with exactly the pixels of [P] blended. *)
Definition Painted (blend : rgba -> Z * Z * Z -> rgba -> Q -> rgba)
    (canvasWidth canvasHeight : Z) (fillColor : Z * Z * Z) (startColor : rgba)
    (alpha : Q) (data0 : list Z) (P : Z -> Z -> bool) (data : list Z) : Prop :=
  length data = length data0 /\
  forall x y, inGrid canvasWidth canvasHeight x y ->
    readPixel data (offset canvasWidth x y)
    = if P x y
      then option_map (fun p => blend p fillColor startColor alpha)
                      (readPixel data0 (offset canvasWidth x y))
      else readPixel data0 (offset canvasWidth x y).

(** *** A sample instance of the helpers, for the concrete runs *)

(** A comparison with a per-channel tolerance [tol]. *)
Definition within (tol : Z) (p c : rgba) : bool :=
  (Z.abs (red p - red c) <=? tol) && (Z.abs (green p - green c) <=? tol)
  && (Z.abs (blue p - blue c) <=? tol) && (Z.abs (opacity p - opacity c) <=? tol).

(** A blend that writes the fill colour with the opacity [alpha]. *)
Definition overwrite (old : rgba) (fc : Z * Z * Z) (startColor : rgba) (alpha : Q) : rgba :=
  let '(r, g, b) := fc in
  {| red := r; green := g; blue := b; opacity := Qfloor alpha |}.

Definition hexDigit (c : Ascii.ascii) : Z :=
  let n := Z.of_N (Ascii.N_of_ascii c) in
  if (48 <=? n) && (n <=? 57) then n - 48
  else if (97 <=? n) && (n <=? 102) then n - 87
  else if (65 <=? n) && (n <=? 70) then n - 55
  else 0.

(** A colour of the form #rrggbb as three bytes. *)
Definition hexColor (s : string) : Z * Z * Z :=
  match s with
  | String _ (String r1 (String r2 (String g1 (String g2 (String b1 (String b2 _)))))) =>
      (hexDigit r1 * 16 + hexDigit r2,
       hexDigit g1 * 16 + hexDigit g2,
       hexDigit b1 * 16 + hexDigit b2)
  | _ => (0, 0, 0)
  end.

Definition white : rgba := {| red := 255; green := 255; blue := 255; opacity := 255 |}.
Definition black : rgba := {| red := 0; green := 0; blue := 0; opacity := 255 |}.
Definition pureRed : rgba := {| red := 255; green := 0; blue := 0; opacity := 255 |}.
Definition pureBlue : rgba := {| red := 0; green := 0; blue := 255; opacity := 255 |}.

Definition bytes (c : rgba) : list Z := [red c; green c; blue c; opacity c].

(** A canvas of [w] by [h] pixels with the given rows of pixels, stroke
    colour red, nothing in flight. *)
Definition sampleCanvas (w h : Z) (pixels : list rgba) : Atrament :=
  {| pointerX := 0; pointerY := 0;
     context := {| canvas_width := w; canvas_height := h;
                   surface := flat_map bytes pixels;
                   strokeStyle := "#ff0000"; globalAlpha := 1; commits := 0 |};
     _filling := false; _fillStack := []; timers := []; dispatched := [] |}.

(** Three pixels in a row: red, white, blue. *)
Definition stripe : Atrament := sampleCanvas 3 1 [pureRed; white; pureBlue].

(** Three by three pixels: two white columns of full height on the left,
    one black column on the right. *)
Definition block : Atrament :=
  sampleCanvas 3 3 [white; white; black; white; white; black; white; white; black].

End Fill.

(** ** Pointer handlers *)

Module Handlers.

Import Stroke.
Local Open Scope R_scope.

(** [a === b] on numbers. *)
Definition sameNumber (a b : R) : bool := if Req_dec_T a b then true else false.

Section WithConstants.

Variable K : Constants.

(** [this.picker()] and [this.fill()] work on the pixel buffer, which this
    view of the object does not hold (module [Fill] has [fill], module
    [Picker] has [picker]); the handlers take them as parameters. *)
Variable picker : Atrament -> Atrament.
Variable fill : Atrament -> Atrament.

(** The [pointerdown] handler.  [tm] is the clock reading for the call of
    [pointerMove], [t0] and [t1] are those for [beginStroke]. *)
Definition pointerDown (tm t0 t1 : R) (ox oy : R) (a : Atrament) : Atrament :=
  let a := pointerMove K tm ox oy a in
  if String.eqb (_mode a) PICKER then picker a
  else if String.eqb (_mode a) FILL then fill a
  else
    let p := pointer a in
    let p := Pointer_previous_set (x (pos p)) (y (pos p)) p in
    let p := Pointer_set_down true p in
    let a := with_pointer p a in
    beginStroke t0 t1 (x (previous (pointer a))) (y (previous (pointer a))) a.

(** The [pointerup] handler.  [td] is the clock reading for [draw], [te]
    the one for [endStroke]. *)
Definition pointerUp (td te : R) (ox oy : R) (a : Atrament) : Atrament :=
  if String.eqb (_mode a) FILL then a
  else if negb (down (pointer a)) then a
  else
    let a := with_pointer (Pointer_set_down false (pointer a)) a in
    let a :=
      if sameNumber (x (pos (pointer a))) ox && sameNumber (y (pos (pointer a))) oy
         && includes PathDrawingModes (_mode a)
      then
        let '(a1, new) := draw K td (x (pos (pointer a))) (y (pos (pointer a)))
                               (x (previous (pointer a))) (y (previous (pointer a))) a in
        with_pointer (Pointer_previous_set (x new) (y new) (pointer a1)) a1
      else a in
    endStroke te (x (pos (pointer a))) (y (pos (pointer a))) a.

(** A pointer event with the clock readings its handler takes. *)
Inductive PointerEvent :=
| pointermove (t : R) (ox oy : R)
| pointerdown (tm t0 t1 : R) (ox oy : R)
| pointerup (td te : R) (ox oy : R).

Definition handle (a : Atrament) (e : PointerEvent) : Atrament :=
  match e with
  | pointermove t ox oy => pointerMove K t ox oy a
  | pointerdown tm t0 t1 ox oy => pointerDown tm t0 t1 ox oy a
  | pointerup td te ox oy => pointerUp td te ox oy a
  end.

Definition handleAll (events : list PointerEvent) (a : Atrament) : Atrament :=
  fold_left handle events a.

(** Assignments to the three properties that have setters. *)
Inductive Assignment :=
| assignColor (v : value)
| assignWeight (v : value)
| assignMode (v : value).

Definition assign (a : Atrament) (s : Assignment) : Atrament :=
  match s with
  | assignColor v => fst (set_color v a)
  | assignWeight v => fst (set_weight K v a)
  | assignMode v => fst (set_mode v a)
  end.

Definition assignAll (l : list Assignment) (a : Atrament) : Atrament :=
  fold_left assign l a.

End WithConstants.

(** The five names of [DrawingMode]. *)
Definition isDrawingMode (m : string) : bool :=
  String.eqb m DRAW || String.eqb m ERASE || String.eqb m FILL
  || String.eqb m DISABLED || String.eqb m PICKER.

(** The compositing operation goes with the mode: 'destination-out' in
    erase mode, 'source-over' in draw and fill mode. *)
Definition compositeMatchesMode (a : Atrament) : Prop :=
  isDrawingMode (_mode a) = true /\
  (_mode a = ERASE -> globalCompositeOperation (context a) = "destination-out"%string) /\
  (_mode a = DRAW \/ _mode a = FILL ->
   globalCompositeOperation (context a) = "source-over"%string).

(** The curve segments among the path commands are chained from the
    point [p]: each starts (and has its control point) where the one before
    ended; a [MoveTo] starts a new chain. *)
Fixpoint chained (p : Point) (ops : list PathOp) : Prop :=
  match ops with
  | [] => True
  | MoveTo mx my :: rest => chained {| x := mx; y := my |} rest
  | QuadraticCurveTo cx cy ex ey :: rest =>
      cx = x p /\ cy = y p /\ chained {| x := ex; y := ey |} rest
  | _ :: rest => chained p rest
  end.

(** Where the chain ends. *)
Fixpoint chainEnd (p : Point) (ops : list PathOp) : Point :=
  match ops with
  | [] => p
  | MoveTo mx my :: rest => chainEnd {| x := mx; y := my |} rest
  | QuadraticCurveTo _ _ ex ey :: rest => chainEnd {| x := ex; y := ey |} rest
  | _ :: rest => chainEnd p rest
  end.

Definition isStroking (op : PathOp) : bool :=
  match op with
  | QuadraticCurveTo _ _ _ _ | StrokePath => true
  | _ => false
  end.

Definition isDirtyEvent (e : Event) : bool :=
  match e with dirty => true | _ => false end.

(** How many 'dirty' events have been dispatched. *)
Definition dirtyCount (a : Atrament) : nat :=
  length (List.filter isDirtyEvent (dispatched a)).

End Handlers.

(** ** Clearing the canvas *)

Module Canvas.

Import Stroke.
Local Open Scope R_scope.

(** [ToBoolean] of a value. *)
Definition truthy (v : value) : bool :=
  match v with
  | VUndefined | VNull => false
  | VBoolean b => b
  | VNumber r => if Req_dec_T r 0 then false else true
  | VString s => negb (String.eqb s "")
  | VObject | VFunction => true
  end.

(** A call of [clearRect], with the compositing operation in force. *)
Record Clearing := {
  composite : string;
  rect : R * R * R * R
}.

(** The object as [clear] sees it: the part module [Stroke] holds, the
    size of the canvas, the calls of [clearRect] so far and the number of
    'clean' events dispatched. *)
Record Surface := {
  core : Atrament;
  canvasWidth : R;
  canvasHeight : R;
  clearings : list Clearing;
  cleanEvents : nat
}.

Definition with_core (a : Atrament) (s : Surface) : Surface :=
  {| core := a; canvasWidth := canvasWidth s; canvasHeight := canvasHeight s;
     clearings := clearings s; cleanEvents := cleanEvents s |}.

(** [isDirty()]: [!!this._dirty]. *)
Definition isDirty (s : Surface) : bool := negb (negb (_dirty (core s))).

(** [this.context.clearRect(-10, -10, this.canvas.width + 20, this.canvas.height + 20)] *)
Definition clearRect (s : Surface) : Surface :=
  {| core := core s; canvasWidth := canvasWidth s; canvasHeight := canvasHeight s;
     clearings := clearings s
                  ++ [ {| composite := globalCompositeOperation (context (core s));
                          rect := (-10, -10, canvasWidth s + 20, canvasHeight s + 20) |} ];
     cleanEvents := cleanEvents s |}.

Definition dispatchClean (s : Surface) : Surface :=
  {| core := core s; canvasWidth := canvasWidth s; canvasHeight := canvasHeight s;
     clearings := clearings s; cleanEvents := S (cleanEvents s) |}.

(** [this.mode = m] *)
Definition assignMode (m : string) (s : Surface) : Surface :=
  with_core (fst (set_mode (VString m) (core s))) s.

(** [clear()].  Its guard, [!this.isDirty], tests the method itself, a
    function object, not the result of calling it. *)
Definition clear (s : Surface) : Surface :=
  if negb (truthy VFunction) then s
  else
    let s := with_core (with_dirty false (core s)) s in
    let s := dispatchClean s in
    if String.eqb (_mode (core s)) ERASE
    then assignMode ERASE (clearRect (assignMode DRAW s))
    else clearRect s.

End Canvas.

(** ** The colour picker *)

Module Picker.

Import Fill.
Local Open Scope Z_scope.

(** A byte in decimal, as [toString] of a typed array prints it. *)
Definition decimal (n : Z) : string :=
  NilZero.string_of_uint (N.to_uint (Z.to_N n)).

(** [data.toString()] of the four bytes of a pixel. *)
Definition dataToString (p : rgba) : string :=
  String.concat "," (map decimal (bytes p)).

(** [s.slice(from, to)] of a string. *)
Definition slice (from to : Z) (s : string) : string :=
  let len := Z.of_nat (String.length s) in
  let clamp i := if i <? 0 then Z.max (len + i) 0 else Z.min i len in
  let first := clamp from in
  let last := clamp to in
  substring (Z.to_nat first) (Z.to_nat (Z.max (last - first) 0)) s.

Definition with_strokeStyle (c : string) (a : Atrament) : Atrament :=
  with_context
    {| canvas_width := canvas_width (context a); canvas_height := canvas_height (context a);
       surface := surface (context a); strokeStyle := c;
       globalAlpha := globalAlpha (context a); commits := commits (context a) |} a.

(** [picker()]: the object after the call and the colours of the
    'colorpicked' events it dispatched. *)
Definition picker (a : Atrament) : Atrament * list string :=
  let pickerColor :=
    ("rgba(" ++ dataToString (getImageData1 (context a) (pointerX a) (pointerY a)) ++ ")")%string in
  if String.eqb (slice (-4) (-1) pickerColor) "255"
  then (with_strokeStyle pickerColor a, [pickerColor])
  else (a, []).

(** The end of the picker's string, from the blue byte on. *)
Definition tailOf (b a : nat) : string :=
  (decimal (Z.of_nat b) ++ "," ++ decimal (Z.of_nat a) ++ ")")%string.

(** Every byte of the buffer is a byte. *)
Definition wellFormed (data : list Z) : Prop :=
  Forall (fun b => 0 <= b <= 255) data.

End Picker.

(** ** Runs of the fill engine *)

Module FillRuns.

Import Fill.
Local Open Scope Z_scope.

(** [pointerdown] events in fill mode, one per position, in order. *)
Definition pointerDownAll (positions : list (Q * Q)) (a : Atrament) : Atrament :=
  fold_left (fun a p => pointerDown (fst p) (snd p) a) positions a.

(** The request that [fill] builds for a position on the canvas [c]. *)
Definition requestAt (c : Context) (p : Q * Q) : FillRequest :=
  {| seedX := fst p; seedY := snd p; seedColor := getImageData1 c (fst p) (snd p) |}.

(** Whether the [i]-th pixel of the buffer matches the colour, and how
    many of the first [n] pixels do. *)
Definition matchAt (similar : rgba -> rgba -> bool) (startColor : rgba)
    (data : list Z) (i : nat) : bool :=
  matchColor similar data startColor (4 * Z.of_nat i).

Definition matchCount (similar : rgba -> rgba -> bool) (startColor : rgba)
    (n : nat) (data : list Z) : nat :=
  length (List.filter (matchAt similar startColor data) (seq 0 n)).

(** Every seed on the stack lies in a column of the canvas. *)
Definition seedsInColumns (canvasWidth : Z) (pixelStack : list (Z * Z)) : Prop :=
  Forall (fun seed => 0 <= fst seed < canvasWidth) pixelStack.

(** [data] differs from [data0] only in pixels that matched [startColor]
    in [data0], and these hold the blend of what they held. *)
Definition paintedWhereMatching (similar : rgba -> rgba -> bool)
    (blend : rgba -> Z * Z * Z -> rgba -> Q -> rgba)
    (canvasWidth canvasHeight : Z) (fillColor : Z * Z * Z) (startColor : rgba)
    (alpha : Q) (data0 data : list Z) : Prop :=
  length data = length data0 /\
  forall x y, inGrid canvasWidth canvasHeight x y ->
    readPixel data (offset canvasWidth x y) = readPixel data0 (offset canvasWidth x y) \/
    (matchColor similar data0 startColor (offset canvasWidth x y) = true /\
     readPixel data (offset canvasWidth x y)
     = option_map (fun p => blend p fillColor startColor alpha)
                  (readPixel data0 (offset canvasWidth x y))).

(** The blend of a pixel that matches the start colour does not match it
    any more; and the opposite, it still matches. *)
Definition paintUnmatches (similar : rgba -> rgba -> bool)
    (blend : rgba -> Z * Z * Z -> rgba -> Q -> rgba)
    (fillColor : Z * Z * Z) (startColor : rgba) (alpha : Q) : Prop :=
  forall p, similar p startColor = true ->
    similar (blend p fillColor startColor alpha) startColor = false.

Definition paintStillMatches (similar : rgba -> rgba -> bool)
    (blend : rgba -> Z * Z * Z -> rgba -> Q -> rgba)
    (fillColor : Z * Z * Z) (startColor : rgba) (alpha : Q) : Prop :=
  forall p, similar p startColor = true ->
    similar (blend p fillColor startColor alpha) startColor = true.

(** The top of a run: the pixel in column [x] of row [r] matches, and
    the upward loop stops on the row above it. *)
Definition runTop (similar : rgba -> rgba -> bool) (canvasWidth : Z)
    (startColor : rgba) (data : list Z) (x r : Z) : Prop :=
  matchColor similar data startColor (offset canvasWidth x r) = true /\
  ((0 <=? r - 1) && matchColor similar data startColor (offset canvasWidth x (r - 1))
   = false).

(** A queued request whose seed lies in a column of the canvas and whose
    colour the blend takes a pixel away from. *)
Definition requestInCanvas (similar : rgba -> rgba -> bool)
    (blend : rgba -> Z * Z * Z -> rgba -> Q -> rgba)
    (canvasWidth : Z) (fillColor : Z * Z * Z) (alpha : Q) (r : FillRequest) : Prop :=
  0 <= Qfloor (seedX r) < canvasWidth /\
  paintUnmatches similar blend fillColor (seedColor r) alpha.

(** Red at half opacity, and two pixels of it in a row on a canvas whose
    global alpha makes a fill write that opacity. *)
Definition tintedRed : rgba := {| red := 255; green := 0; blue := 0; opacity := 128 |}.

Definition tinted : Atrament :=
  {| pointerX := 0; pointerY := 0;
     context := {| canvas_width := 2; canvas_height := 1;
                   surface := flat_map bytes [tintedRed; tintedRed];
                   strokeStyle := "#ff0000"; globalAlpha := 64 # 1275; commits := 0 |};
     _filling := true; _fillStack := []; timers := []; dispatched := [] |}.

End FillRuns.

(** ** Properties of the stroke renderer *)

Module StrokeFacts.

Import Stroke.
Local Open Scope R_scope.

Section WithConstants.

Variable K : Constants.

Lemma lineDistance_nonneg x1 y1 x2 y2 : 0 <= lineDistance x1 y1 x2 y2.
Proof. unfold lineDistance. apply sqrt_pos. Qed.

Lemma lineDistance_sqr x1 y1 x2 y2 :
  lineDistance x1 y1 x2 y2 * lineDistance x1 y1 x2 y2
  = (x2 - x1) * (x2 - x1) + (y2 - y1) * (y2 - y1).
Proof.
  unfold lineDistance. apply sqrt_sqrt.
  pose proof (Rle_0_sqr (x2 - x1)) as Hx. pose proof (Rle_0_sqr (y2 - y1)) as Hy.
  unfold Rsqr in Hx, Hy. lra.
Qed.

Lemma lineDistance_horizontal d : 0 <= d -> lineDistance d 0 0 0 = d.
Proof.
  intros Hd. unfold lineDistance.
  replace ((0 - d) * (0 - d) + (0 - 0) * (0 - 0)) with (d * d) by ring.
  now apply sqrt_square.
Qed.

(** What [remember] leaves alone. *)
Lemma remember_fields now px py a :
  let a' := remember now px py a in
  pointer a' = pointer a /\ context a' = context a /\
  recordStrokes a' = recordStrokes a /\ strokeTimestamp a' = strokeTimestamp a /\
  smoothing a' = smoothing a /\ _thickness a' = _thickness a /\
  _weight a' = _weight a /\ _maxWeight a' = _maxWeight a /\
  _mode a' = _mode a /\ adaptiveStroke a' = adaptiveStroke a /\
  _dirty a' = _dirty a /\ dispatched a' = dispatched a.
Proof. cbn. repeat split. Qed.

Lemma approach_thickness dist a :
  let a' := approach K dist a in
  let target := (dist - minLineThickness K) / lineThicknessRange K
                  * (_maxWeight a - _weight a) + _weight a in
  _targetThickness a' = target /\
  _thickness a' =
    (if Rlt_dec target (_thickness a) then _thickness a - thicknessIncrement K
     else if Rlt_dec (_thickness a) target then _thickness a + thicknessIncrement K
          else _thickness a) /\
  _weight a' = _weight a /\ _maxWeight a' = _maxWeight a /\
  smoothing a' = smoothing a /\ adaptiveStroke a' = adaptiveStroke a /\
  recordStrokes a' = recordStrokes a /\ strokeMemory a' = strokeMemory a /\
  strokeTimestamp a' = strokeTimestamp a /\ dispatched a' = dispatched a /\
  pointer a' = pointer a /\ _mode a' = _mode a /\ _dirty a' = _dirty a.
Proof.
  unfold approach. cbn.
  destruct (Rlt_dec _ _); [cbn; repeat split|].
  destruct (Rlt_dec _ _); cbn; repeat split.
Qed.

(** The fields of the object after [draw], in terms of those before. *)
Lemma draw_fields now px py prevX prevY a :
  let a' := fst (draw K now px py prevX prevY a) in
  _weight a' = _weight a /\ _maxWeight a' = _maxWeight a /\
  smoothing a' = smoothing a /\ adaptiveStroke a' = adaptiveStroke a /\
  recordStrokes a' = recordStrokes a /\
  strokeTimestamp a' = strokeTimestamp a /\ dispatched a' = dispatched a /\
  pointer a' = pointer a /\ _mode a' = _mode a /\ _dirty a' = _dirty a /\
  strokeMemory a' =
    (if recordStrokes a
     then strokeMemory a ++ [ {| point := {| x := px; y := py |}; time := elapsed now a |} ]
     else strokeMemory a).
Proof.
  unfold draw. cbn zeta.
  set (a1 := if recordStrokes a then remember now px py a else a).
  assert (H1 : _weight a1 = _weight a /\ _maxWeight a1 = _maxWeight a /\
               smoothing a1 = smoothing a /\ adaptiveStroke a1 = adaptiveStroke a /\
               recordStrokes a1 = recordStrokes a /\
               strokeTimestamp a1 = strokeTimestamp a /\ dispatched a1 = dispatched a /\
               pointer a1 = pointer a /\ _mode a1 = _mode a /\ _dirty a1 = _dirty a /\
               strokeMemory a1 =
                 (if recordStrokes a
                  then strokeMemory a ++
                         [ {| point := {| x := px; y := py |}; time := elapsed now a |} ]
                  else strokeMemory a)).
  { subst a1. destruct (recordStrokes a) eqn:E; cbn; rewrite ?E; repeat split. }
  destruct H1 as (?&?&?&?&?&?&?&?&?&?&?).
  destruct (adaptiveStroke a1) eqn:Ead.
  - cbn [fst].
    match goal with |- context [approach K ?d a1] =>
      pose proof (approach_thickness d a1) as Hap end.
    cbn zeta in Hap. destruct Hap as (_&_&?&?&?&?&?&?&?&?&?&?&?).
    cbn -[approach smoothingFactor lineDistance]. repeat split; congruence.
  - cbn. repeat split; congruence.
Qed.

Lemma draw_thickness now px py prevX prevY a :
  adaptiveStroke a = true ->
  let a' := fst (draw K now px py prevX prevY a) in
  let target := targetOf K px py prevX prevY a in
  _targetThickness a' = target /\
  _thickness a' =
    (if Rlt_dec target (_thickness a) then _thickness a - thicknessIncrement K
     else if Rlt_dec (_thickness a) target then _thickness a + thicknessIncrement K
          else _thickness a).
Proof.
  intros Had. unfold draw, targetOf. cbn zeta.
  set (a1 := if recordStrokes a then remember now px py a else a).
  assert (H1 : _weight a1 = _weight a /\ _maxWeight a1 = _maxWeight a /\
               smoothing a1 = smoothing a /\ adaptiveStroke a1 = adaptiveStroke a /\
               _thickness a1 = _thickness a).
  { subst a1. destruct (recordStrokes a); cbn; repeat split. }
  destruct H1 as (Hw & Hm & Hs & Ha & Ht).
  rewrite Ha, Had. cbn [fst].
  match goal with |- context [approach K ?d a1] =>
    pose proof (approach_thickness d a1) as Hap end.
  cbn zeta in Hap. destruct Hap as (Htg & Hth & _).
  assert (Hf : smoothingFactor K a1 px py prevX prevY = smoothingFactor K a px py prevX prevY).
  { unfold smoothingFactor. now rewrite Hs. }
  cbn [_targetThickness _thickness with_context].
  rewrite Htg, Hth, Hf, Hw, Hm, Ht. split; reflexivity.
Qed.

(** C5: the smoothing factor of [draw(x, y, prevX, prevY)] is
    [min(ceiling, smoothing + (rawDist - 60) / 3000)], where [rawDist] is the
    Euclidean distance of the two points (non-negative, and its square is
    the sum of the squared differences); it is at most the ceiling
    [minSmoothingFactor] whatever [rawDist] is; and the returned point is
    [(x - (x - prevX) * factor, y - (y - prevY) * factor)], which is also
    the end point of the curve segment issued to the context. *)
Theorem draw_smoothed_point now px py prevX prevY a :
  let rawDist := lineDistance px py prevX prevY in
  let factor := Rmin (minSmoothingFactor K) (smoothing a + (rawDist - 60) / 3000) in
  (0 <= rawDist /\
   rawDist * rawDist = (px - prevX) * (px - prevX) + (py - prevY) * (py - prevY)) /\
  smoothingFactor K a px py prevX prevY = factor /\
  factor <= minSmoothingFactor K /\
  snd (draw K now px py prevX prevY a)
  = {| x := px - (px - prevX) * factor; y := py - (py - prevY) * factor |} /\
  path (context (fst (draw K now px py prevX prevY a)))
  = path (context a)
    ++ [QuadraticCurveTo prevX prevY (px - (px - prevX) * factor)
                         (py - (py - prevY) * factor); StrokePath].
Proof.
  cbn zeta. split; [split|].
  - apply lineDistance_nonneg.
  - rewrite lineDistance_sqr. ring.
  - split; [reflexivity|]. split; [apply Rmin_l|].
    unfold draw. cbn zeta.
    set (a1 := if recordStrokes a then remember now px py a else a).
    assert (Hs : smoothing a1 = smoothing a /\ context a1 = context a).
    { subst a1. destruct (recordStrokes a); split; reflexivity. }
    destruct Hs as [Hs Hc].
    unfold smoothingFactor. rewrite Hs. cbn [snd fst]. split; [reflexivity|].
    destruct (adaptiveStroke a1).
    + unfold approach. cbn zeta.
      destruct (Rlt_dec _ _); [cbn; now rewrite Hc|].
      destruct (Rlt_dec _ _); cbn; now rewrite Hc.
    + cbn. now rewrite Hc.
Qed.

(** C3, as amended: with adaptive stroke enabled a call of [draw] moves
    [_thickness] by one [thicknessIncrement] towards the new
    [_targetThickness] (up when below it, down when above it, not at all
    when equal), so by at most one increment in absolute value, and never
    assigns the target.  [_maxWeight] is no cap: [_thickness] is at most
    [_maxWeight] plus one increment after the call when it was so before
    and the target of the call is at most [_maxWeight]. *)
Theorem thickness_step now px py prevX prevY a :
  adaptiveStroke a = true ->
  let a' := fst (draw K now px py prevX prevY a) in
  let inc := thicknessIncrement K in
  (_thickness a < _targetThickness a' -> _thickness a' = _thickness a + inc) /\
  (_targetThickness a' < _thickness a -> _thickness a' = _thickness a - inc) /\
  (_thickness a = _targetThickness a' -> _thickness a' = _thickness a) /\
  Rabs (_thickness a' - _thickness a) <= Rabs inc /\
  _maxWeight a' = _maxWeight a /\
  (0 <= inc -> _targetThickness a' <= _maxWeight a ->
   _thickness a <= _maxWeight a + inc -> _thickness a' <= _maxWeight a + inc).
Proof.
  intros Had. cbn zeta.
  destruct (draw_thickness now px py prevX prevY a Had) as [Htg Hth].
  cbn zeta in Htg, Hth.
  destruct (draw_fields now px py prevX prevY a) as (_ & Hm & _).
  cbn zeta in Hm.
  rewrite Htg, Hth, Hm.
  set (T := targetOf K px py prevX prevY a).
  destruct (Rlt_dec T (_thickness a)) as [H1|H1];
    [|destruct (Rlt_dec (_thickness a) T) as [H2|H2]].
  - repeat split; intros; try lra.
    replace (_thickness a - thicknessIncrement K - _thickness a)
      with (- thicknessIncrement K) by ring.
    rewrite Rabs_Ropp. lra.
  - repeat split; intros; try lra.
    replace (_thickness a + thicknessIncrement K - _thickness a)
      with (thicknessIncrement K) by ring.
    lra.
  - repeat split; intros; try lra.
    replace (_thickness a - _thickness a) with 0 by ring.
    rewrite Rabs_R0. apply Rabs_pos.
Qed.

(** C6: a pointer-move sample taken while the pointer is down in a
    path-drawing mode leaves in [pointer.previous] the point that [draw]
    returned for it, and in the pointer itself the raw coordinate of the
    sample; the two differ whenever the smoothing factor is not zero and
    the sample is not the previous point itself. *)
Theorem pointerMove_previous_is_smoothed now ox oy a :
  down (pointer a) = true ->
  includes PathDrawingModes (_mode a) = true ->
  let a' := pointerMove K now ox oy a in
  let prev := previous (pointer a) in
  previous (pointer a') = snd (draw K now ox oy (x prev) (y prev) a) /\
  pos (pointer a') = {| x := ox; y := oy |} /\
  (smoothingFactor K a ox oy (x prev) (y prev) <> 0 ->
   {| x := ox; y := oy |} <> prev ->
   previous (pointer a') <> {| x := ox; y := oy |}).
Proof.
  intros Hd Hm. cbn zeta. unfold pointerMove. rewrite Hd, Hm. cbn [andb].
  destruct (draw K now ox oy (x (previous (pointer a))) (y (previous (pointer a))) a)
    as [a1 new] eqn:E.
  assert (Hprev : forall a2 : Atrament,
            previous (pointer (with_pointer
              (Pointer_previous_set (x new) (y new)
                 (pointer (with_pointer (Pointer_set ox oy (pointer a2)) a2)))
              (with_pointer (Pointer_set ox oy (pointer a2)) a2))) = new
            /\ pos (pointer (with_pointer
              (Pointer_previous_set (x new) (y new)
                 (pointer (with_pointer (Pointer_set ox oy (pointer a2)) a2)))
              (with_pointer (Pointer_set ox oy (pointer a2)) a2)))
               = {| x := ox; y := oy |}).
  { intros a2. destruct new. split; reflexivity. }
  match goal with |- context [with_pointer (Pointer_set ox oy (pointer ?a2)) ?a2] =>
    destruct (Hprev a2) as [Hp Hc] end.
  rewrite Hp, Hc. cbn [snd]. repeat split.
  intros Hf Hne Heq. apply Hne.
  pose proof (draw_smoothed_point now ox oy (x (previous (pointer a)))
                (y (previous (pointer a))) a) as Hs.
  cbn zeta in Hs. destruct Hs as (_ & Hfac & _ & Hret & _).
  rewrite E in Hret. cbn [snd] in Hret. rewrite Hret in Heq.
  rewrite <- Hfac in Heq. injection Heq as Hx Hy.
  destruct (previous (pointer a)) as [qx qy]. cbn [x y] in *.
  set (f := smoothingFactor K a ox oy qx qy) in *.
  assert (Hx' : (ox - qx) * f = 0) by lra.
  assert (Hy' : (oy - qy) * f = 0) by lra.
  apply Rmult_integral in Hx'. apply Rmult_integral in Hy'.
  f_equal; [destruct Hx'|destruct Hy']; lra.
Qed.

Lemma endStroke_dispatched now px py a :
  recordStrokes a = true ->
  dispatched (endStroke now px py a)
  = dispatched a
    ++ [strokeend px py;
        strokerecorded
          {| points := strokeMemory a
                       ++ [ {| point := {| x := px; y := py |}; time := elapsed now a |} ];
             stroke_mode := _mode a;
             stroke_weight := _weight a;
             stroke_smoothing := smoothing a;
             stroke_color := strokeStyle (context a);
             stroke_adaptiveStroke := adaptiveStroke a |}].
Proof.
  intros Hr. unfold endStroke. cbn zeta. cbn [recordStrokes with_context].
  rewrite Hr. cbn. rewrite Hr. cbn. now rewrite <- app_assoc.
Qed.

(** After [endStroke] the per-stroke buffers are empty again, as they are
    after the constructor. *)
Lemma endStroke_resets now px py a :
  strokeMemory (endStroke now px py a) = [] /\
  strokeTimestamp (endStroke now px py a) = None /\
  recordStrokes (endStroke now px py a) = recordStrokes a.
Proof.
  unfold endStroke. cbn zeta. cbn [recordStrokes with_context].
  destruct (recordStrokes a) eqn:E; cbn; rewrite ?E; cbn; rewrite ?E; auto.
Qed.

(** C7: with recording enabled and no sample pending, [beginStroke], three
    calls of [draw] and [endStroke] dispatch one [strokerecorded] event
    whose stroke has exactly five points: the start anchor, the three
    samples and the end anchor, in this order.  Their time stamps are the
    clock readings minus the reading taken at the start of the stroke;
    they are in time order when the clock readings are (none before the
    previous one), and strictly increasing when the clock readings are. *)
Theorem recorded_stroke_has_five_points
    (t0 t1 t2 t3 t4 t5 : R) (p0 p1 p2 p3 p4 q1 q2 q3 : Point) a :
  recordStrokes a = true ->
  strokeMemory a = [] ->
  let a1 := beginStroke t0 t1 (x p0) (y p0) a in
  let a2 := fst (draw K t2 (x p1) (y p1) (x q1) (y q1) a1) in
  let a3 := fst (draw K t3 (x p2) (y p2) (x q2) (y q2) a2) in
  let a4 := fst (draw K t4 (x p3) (y p3) (x q3) (y q3) a3) in
  let a5 := endStroke t5 (x p4) (y p4) a4 in
  let stamps := [t1 - t0; t2 - t0; t3 - t0; t4 - t0; t5 - t0] in
  exists stroke,
    dispatched a5
    = dispatched a ++ [strokestart (x p0) (y p0); strokeend (x p4) (y p4);
                       strokerecorded stroke] /\
    length (points stroke) = 5%nat /\
    map point (points stroke) = [p0; p1; p2; p3; p4] /\
    map time (points stroke) = map Some stamps /\
    (ascending [t0; t1; t2; t3; t4; t5] -> ascending (0 :: stamps)) /\
    (strictlyAscending [t0; t1; t2; t3; t4; t5] -> strictlyAscending (0 :: stamps)).
Proof.
  intros Hr Hm. cbn zeta.
  set (a1 := beginStroke t0 t1 (x p0) (y p0) a).
  assert (H1 : recordStrokes a1 = true /\ strokeTimestamp a1 = Some t0 /\
               strokeMemory a1 = [ {| point := p0; time := Some (t1 - t0) |} ] /\
               dispatched a1 = dispatched a ++ [strokestart (x p0) (y p0)]).
  { subst a1. unfold beginStroke. cbn zeta. cbn [recordStrokes with_context].
    rewrite Hr. cbn. rewrite Hm. destruct p0. repeat split. exact Hr. }
  destruct H1 as (Hr1 & Ht1 & Hm1 & Hd1).
  set (a2 := fst (draw K t2 (x p1) (y p1) (x q1) (y q1) a1)).
  destruct (draw_fields t2 (x p1) (y p1) (x q1) (y q1) a1)
    as (_&_&_&_&Hr2&Ht2&Hd2&_&_&_&Hm2).
  fold a2 in Hr2, Ht2, Hd2, Hm2.
  set (a3 := fst (draw K t3 (x p2) (y p2) (x q2) (y q2) a2)).
  destruct (draw_fields t3 (x p2) (y p2) (x q2) (y q2) a2)
    as (_&_&_&_&Hr3&Ht3&Hd3&_&_&_&Hm3).
  fold a3 in Hr3, Ht3, Hd3, Hm3.
  set (a4 := fst (draw K t4 (x p3) (y p3) (x q3) (y q3) a3)).
  destruct (draw_fields t4 (x p3) (y p3) (x q3) (y q3) a3)
    as (_&_&_&_&Hr4&Ht4&Hd4&_&_&_&Hm4).
  fold a4 in Hr4, Ht4, Hd4, Hm4.
  rewrite Hr1 in Hr2. rewrite Hr2 in Hr3. rewrite Hr3 in Hr4.
  rewrite Ht1 in Ht2. rewrite Ht2 in Ht3. rewrite Ht3 in Ht4.
  rewrite Hr1, Hm1 in Hm2. unfold elapsed in Hm2. rewrite Ht1 in Hm2.
  rewrite Hr2, Hm2 in Hm3. unfold elapsed in Hm3. rewrite Ht2 in Hm3.
  rewrite Hr3, Hm3 in Hm4. unfold elapsed in Hm4. rewrite Ht3 in Hm4.
  eexists. split.
  - rewrite (endStroke_dispatched t5 (x p4) (y p4) a4 Hr4).
    rewrite Hd4, Hd3, Hd2, Hd1, <- app_assoc. cbn [app]. reflexivity.
  - cbn [points]. rewrite Hm4. unfold elapsed. rewrite Ht4.
    destruct p1, p2, p3, p4. cbn.
    repeat split; try lra; try tauto.
Qed.

(** C8: a value that is not a string given to [color] or [mode], and a
    value that is not a number given to [weight], makes the setter throw
    at once, and the object is what it was before the assignment. *)
Theorem setters_reject_wrong_type (c m w : value) a :
  (typeof c <> "string"%string -> set_color c a = (a, Throw "wrong argument type"%string)) /\
  (typeof m <> "string"%string -> set_mode m a = (a, Throw "wrong argument type"%string)) /\
  (typeof w <> "number"%string -> set_weight K w a = (a, Throw "wrong argument type"%string)).
Proof.
  repeat split; intros H.
  - destruct c; cbn in *; congruence.
  - destruct m; cbn in *; congruence.
  - destruct w; cbn in *; congruence.
Qed.

(** C9: a string other than 'erase', 'fill', 'disabled' and 'picker'
    given to [mode] raises nothing: the mode becomes 'draw' and the
    compositing operation 'source-over'. *)
Theorem set_mode_unknown_is_draw (s : string) a :
  s <> "erase"%string -> s <> "fill"%string -> s <> "disabled"%string -> s <> "picker"%string ->
  exists a',
    set_mode (VString s) a = (a', Normal) /\
    _mode a' = "draw"%string /\
    globalCompositeOperation (context a') = "source-over"%string.
Proof.
  intros He Hf Hd Hp. unfold set_mode.
  apply String.eqb_neq in He, Hf, Hd, Hp.
  unfold ERASE, FILL, DISABLED, PICKER. rewrite He, Hf, Hd, Hp.
  eexists. split; [reflexivity|]. split; reflexivity.
Qed.

Lemma targetOf_ext px py qx qy a b :
  smoothing a = smoothing b -> _weight a = _weight b -> _maxWeight a = _maxWeight b ->
  targetOf K px py qx qy a = targetOf K px py qx qy b.
Proof.
  intros Hs Hw Hm. unfold targetOf, smoothingFactor. now rewrite Hs, Hw, Hm.
Qed.

(** The same call made [n] times raises the thickness by [n] increments
    as long as its target is not reached. *)
Lemma repeated_calls_raise now px py qx qy (n : nat) : forall a,
  adaptiveStroke a = true ->
  0 < thicknessIncrement K ->
  _thickness a + INR n * thicknessIncrement K <= targetOf K px py qx qy a ->
  let a' := drawAll K (repeat (now, px, py, qx, qy) n) a in
  _thickness a' = _thickness a + INR n * thicknessIncrement K /\
  _maxWeight a' = _maxWeight a /\ _weight a' = _weight a /\
  adaptiveStroke a' = true.
Proof.
  induction n as [|n IH]; intros a Had Hinc Hle.
  - cbn. repeat split; try assumption. lra.
  - cbn zeta. cbn [repeat drawAll fold_left].
    change (fold_left _ (repeat (now, px, py, qx, qy) n) ?b)
      with (drawAll K (repeat (now, px, py, qx, qy) n) b).
    set (a1 := fst (draw K now px py qx qy a)).
    destruct (draw_fields now px py qx qy a) as (Hw & Hm & Hsm & Ha & _).
    destruct (draw_thickness now px py qx qy a Had) as (_ & Hth).
    cbn zeta in Hw, Hm, Hsm, Ha, Hth. fold a1 in Hw, Hm, Hsm, Ha, Hth.
    rewrite S_INR in Hle. pose proof (pos_INR n) as Hn.
    assert (Hprod : 0 <= INR n * thicknessIncrement K) by (apply Rmult_le_pos; lra).
    destruct (Rlt_dec _ _) as [Hlt|_] in Hth; [lra|].
    destruct (Rlt_dec _ _) as [_|Hge] in Hth; [|lra].
    destruct (IH a1) as (Ht' & Hm' & Hw' & Ha').
    + congruence.
    + exact Hinc.
    + rewrite (targetOf_ext px py qx qy a1 a Hsm Hw Hm), Hth. lra.
    + cbn zeta in Ht', Hm', Hw', Ha'.
      rewrite Ht', Hm', Hw', Hth, Hm, Hw, S_INR. repeat split; try assumption. lra.
Qed.

(** The target of a horizontal move of length [d] is at least what the
    ceiling of the smoothing factor leaves of [d]. *)
Lemma far_target_lower_bound d a :
  0 <= d ->
  minSmoothingFactor K < 1 ->
  0 < lineThicknessRange K ->
  _weight a < _maxWeight a ->
  (d * (1 - minSmoothingFactor K) - minLineThickness K) / lineThicknessRange K
    * (_maxWeight a - _weight a) + _weight a
  <= targetOf K d 0 0 0 a.
Proof.
  intros Hd Hc Hr Hw. unfold targetOf. cbn zeta.
  set (f := smoothingFactor K a d 0 0 0).
  assert (Hf : f <= minSmoothingFactor K) by apply Rmin_l.
  replace (d - (d - 0) * f) with (d * (1 - f)) by ring.
  replace (0 - (0 - 0) * f) with 0 by ring.
  rewrite lineDistance_horizontal by (apply Rmult_le_pos; lra).
  apply Rplus_le_compat_r. apply Rmult_le_compat_r; [lra|].
  apply Rmult_le_compat_r; [left; now apply Rinv_0_lt_compat|].
  apply Rplus_le_compat_r. apply Rmult_le_compat_l; lra.
Qed.

(** With a positive increment, a positive thickness range, a spread
    between the weight and the maximum weight and a ceiling below 1, no
    bound holds for [_thickness]: some run of [draw] calls exceeds it. *)
Lemma thickness_unbounded a (bound : R) :
  adaptiveStroke a = true ->
  0 < thicknessIncrement K ->
  0 < lineThicknessRange K ->
  minSmoothingFactor K < 1 ->
  _weight a < _maxWeight a ->
  exists calls,
    bound < _thickness (drawAll K calls a) /\
    _maxWeight (drawAll K calls a) = _maxWeight a.
Proof.
  intros Had Hinc Hr Hc Hw.
  set (inc := thicknessIncrement K) in *.
  set (n := Z.to_nat (up ((bound - _thickness a) / inc))).
  assert (Hn : bound < _thickness a + INR n * inc).
  { destruct (archimed ((bound - _thickness a) / inc)) as [Hup _].
    assert (Hz : IZR (up ((bound - _thickness a) / inc)) <= INR n).
    { subst n. rewrite INR_IZR_INZ. apply IZR_le. lia. }
    assert (Hq : (bound - _thickness a) / inc < INR n) by lra.
    apply (Rmult_lt_compat_r inc) in Hq; [|exact Hinc].
    unfold Rdiv in Hq. rewrite Rmult_assoc, Rinv_l, Rmult_1_r in Hq by lra. lra. }
  set (M := _thickness a + INR n * inc) in *.
  set (spread := _maxWeight a - _weight a).
  set (dreq := minLineThickness K + lineThicknessRange K * ((M - _weight a) / spread)).
  set (d := Rmax 0 (dreq / (1 - minSmoothingFactor K))).
  assert (Hd0 : 0 <= d) by apply Rmax_l.
  assert (Hdreq : dreq <= d * (1 - minSmoothingFactor K)).
  { assert (Hq : dreq / (1 - minSmoothingFactor K) <= d) by apply Rmax_r.
    apply (Rmult_le_compat_r (1 - minSmoothingFactor K)) in Hq; [|lra].
    unfold Rdiv in Hq. rewrite Rmult_assoc, Rinv_l, Rmult_1_r in Hq by lra. exact Hq. }
  assert (HT : M <= targetOf K d 0 0 0 a).
  { eapply Rle_trans; [|apply far_target_lower_bound; assumption].
    fold spread.
    assert (Hs : 0 < spread) by (unfold spread; lra).
    assert (Hge : (M - _weight a) / spread
                  <= (d * (1 - minSmoothingFactor K) - minLineThickness K)
                     / lineThicknessRange K).
    { apply (Rmult_le_reg_r (lineThicknessRange K)); [exact Hr|].
      unfold Rdiv at 2. rewrite Rmult_assoc, Rinv_l, Rmult_1_r by lra.
      unfold dreq in Hdreq. lra. }
    apply (Rmult_le_compat_r spread) in Hge; [|lra].
    unfold Rdiv at 1 in Hge. rewrite Rmult_assoc, Rinv_l, Rmult_1_r in Hge by lra.
    lra. }
  exists (repeat (0, d, 0, 0, 0) n).
  destruct (repeated_calls_raise 0 d 0 0 0 n a Had Hinc HT) as (Ht & Hm & _).
  cbn zeta in Ht, Hm. rewrite Ht, Hm. split; [exact Hn|reflexivity].
Qed.

End WithConstants.

(** The target of [farCall] under the sample constants. *)
Lemma farCall_target a :
  87 / 100 <= smoothing a + 2940 / 3000 ->
  targetOf sampleConstants 3000 0 0 0 a
  = 389 / 49 * (_maxWeight a - _weight a) + _weight a.
Proof.
  intros Hs. unfold targetOf. cbn zeta.
  assert (Hf : smoothingFactor sampleConstants a 3000 0 0 0 = 87 / 100).
  { unfold smoothingFactor. rewrite lineDistance_horizontal by lra.
    cbn [minSmoothingFactor sampleConstants].
    apply Rmin_left. lra. }
  rewrite Hf.
  replace (3000 - (3000 - 0) * (87 / 100)) with 390 by lra.
  replace (0 - (0 - 0) * (87 / 100)) with 0 by lra.
  rewrite lineDistance_horizontal by lra.
  cbn [minLineThickness lineThicknessRange sampleConstants]. lra.
Qed.

(** C3, the claim as stated fails: from the freshly constructed object
    (weight 2, maximum weight 12), 21 fast moves with adaptive stroke
    enabled bring [_thickness] to 12.5, above [_maxWeight]. *)
Lemma thickness_exceeds_maxWeight :
  let a := drawAll sampleConstants (repeat farCall 21)
                   (construct sampleConstants "#000000") in
  adaptiveStroke a = true /\
  _maxWeight a = _weight a + weightSpread sampleConstants /\
  _maxWeight a = 12 /\
  _thickness a = 25 / 2 /\
  ~ _thickness a <= _maxWeight a.
Proof.
  cbn zeta.
  assert (H21 : INR 21 = 21).
  { change 21%nat with (Z.to_nat 21). rewrite INR_IZR_INZ, Z2Nat.id by lia. reflexivity. }
  destruct (repeated_calls_raise sampleConstants 0 3000 0 0 0 21
              (construct sampleConstants "#000000")) as (Ht & Hm & Hw & Ha).
  - reflexivity.
  - cbn. lra.
  - rewrite farCall_target by (cbn; lra). rewrite H21. cbn. lra.
  - cbn zeta in Ht, Hm, Hw, Ha. fold farCall in Ht, Hm, Hw, Ha.
    rewrite Ht, Hm, Hw, Ha, H21. cbn. repeat split; lra.
Qed.

(** The inputs at which the theorems with a hypothesis are applied. *)
Lemma thickness_step_witness :
  let a := construct sampleConstants "#000000" in
  let a' := fst (draw sampleConstants 0 3000 0 0 0 a) in
  adaptiveStroke a = true /\
  _thickness a' = _thickness a + thicknessIncrement sampleConstants.
Proof.
  cbn zeta. split; [reflexivity|].
  apply (thickness_step sampleConstants 0 3000 0 0 0
           (construct sampleConstants "#000000") eq_refl).
  destruct (draw_thickness sampleConstants 0 3000 0 0 0
              (construct sampleConstants "#000000") eq_refl) as [Htg _].
  cbn zeta in Htg. rewrite Htg, farCall_target; cbn; lra.
Defined.

Lemma pointerMove_previous_is_smoothed_witness :
  let a := with_pointer (Pointer_set_down true newPointer)
                        (construct sampleConstants "#000000") in
  down (pointer a) = true /\
  includes PathDrawingModes (_mode a) = true /\
  previous (pointer (pointerMove sampleConstants 0 3000 0 a))
  = snd (draw sampleConstants 0 3000 0 0 0 a).
Proof.
  cbn zeta. split; [reflexivity|]. split; [reflexivity|].
  apply (pointerMove_previous_is_smoothed sampleConstants 0 3000 0
           (with_pointer (Pointer_set_down true newPointer)
                         (construct sampleConstants "#000000")) eq_refl eq_refl).
Defined.

Lemma recorded_stroke_has_five_points_witness :
  let a := with_recordStrokes true (construct sampleConstants "#000000") in
  let P := fun px py => {| x := px; y := py |} in
  recordStrokes a = true /\ strokeMemory a = [] /\
  exists stroke,
    dispatched
      (endStroke 5 (x (P 3 3)) (y (P 3 3))
         (fst (draw sampleConstants 4 (x (P 3 3)) (y (P 3 3)) (x (P 2 2)) (y (P 2 2))
         (fst (draw sampleConstants 3 (x (P 2 2)) (y (P 2 2)) (x (P 1 1)) (y (P 1 1))
         (fst (draw sampleConstants 2 (x (P 1 1)) (y (P 1 1)) (x (P 0 0)) (y (P 0 0))
         (beginStroke 0 1 (x (P 0 0)) (y (P 0 0)) a))))))))
    = dispatched a ++ [strokestart (x (P 0 0)) (y (P 0 0));
                       strokeend (x (P 3 3)) (y (P 3 3)); strokerecorded stroke] /\
    length (points stroke) = 5%nat.
Proof.
  cbn zeta. split; [reflexivity|]. split; [reflexivity|].
  destruct (recorded_stroke_has_five_points sampleConstants 0 1 2 3 4 5
              {| x := 0; y := 0 |} {| x := 1; y := 1 |} {| x := 2; y := 2 |}
              {| x := 3; y := 3 |} {| x := 3; y := 3 |}
              {| x := 0; y := 0 |} {| x := 1; y := 1 |} {| x := 2; y := 2 |}
              (with_recordStrokes true (construct sampleConstants "#000000"))
              eq_refl eq_refl) as (stroke & Hd & Hl & _).
  exists stroke. split; [exact Hd|exact Hl].
Defined.

Lemma setters_reject_wrong_type_witness :
  let a := construct sampleConstants "#000000" in
  typeof (VNumber 7) <> "string"%string /\
  set_color (VNumber 7) a = (a, Throw "wrong argument type"%string).
Proof.
  cbn zeta. split; [discriminate|].
  apply (setters_reject_wrong_type sampleConstants (VNumber 7) VNull VNull
           (construct sampleConstants "#000000")).
  discriminate.
Defined.

Lemma set_mode_unknown_is_draw_witness :
  "sketch"%string <> "erase"%string /\ "sketch"%string <> "fill"%string /\
  "sketch"%string <> "disabled"%string /\ "sketch"%string <> "picker"%string /\
  exists a',
    set_mode (VString "sketch"%string) (construct sampleConstants "#000000") = (a', Normal) /\
    _mode a' = "draw"%string /\
    globalCompositeOperation (context a') = "source-over"%string.
Proof.
  repeat (split; [discriminate|]).
  apply (set_mode_unknown_is_draw "sketch"%string (construct sampleConstants "#000000"));
    discriminate.
Defined.

End StrokeFacts.

(** ** Properties of the fill engine *)

Module FillFacts.

Import Fill.
Local Open Scope Z_scope.

(** *** Bytes and pixels of the buffer *)

Lemma length_setByte i v (data : list Z) : length (setByte i v data) = length data.
Proof. unfold setByte. destruct (i <? 0); [reflexivity|apply length_insert]. Qed.

Lemma byteAt_setByte_eq i v (data : list Z) :
  0 <= i < Z.of_nat (length data) -> byteAt (setByte i v data) i = Some v.
Proof.
  intros Hi. unfold byteAt, setByte.
  destruct (Z.ltb_spec i 0); [lia|].
  apply list_lookup_insert_eq. lia.
Qed.

Lemma byteAt_setByte_ne i j v (data : list Z) :
  i <> j -> byteAt (setByte i v data) j = byteAt data j.
Proof.
  intros Hij. unfold byteAt, setByte.
  destruct (Z.ltb_spec j 0); [reflexivity|].
  destruct (Z.ltb_spec i 0); [reflexivity|].
  apply list_lookup_insert_ne. lia.
Qed.

Lemma length_writePixel pos c (data : list Z) :
  length (writePixel pos c data) = length data.
Proof. unfold writePixel. now rewrite !length_setByte. Qed.

Lemma readPixel_writePixel_eq pos c (data : list Z) :
  0 <= pos -> pos + 3 < Z.of_nat (length data) ->
  readPixel (writePixel pos c data) pos = Some c.
Proof.
  intros H0 H3. unfold readPixel, writePixel.
  rewrite (byteAt_setByte_eq (pos + 3)) by (rewrite !length_setByte; lia).
  rewrite (byteAt_setByte_ne (pos + 3) (pos + 2)) by lia.
  rewrite (byteAt_setByte_eq (pos + 2)) by (rewrite !length_setByte; lia).
  rewrite (byteAt_setByte_ne (pos + 3) (pos + 1)) by lia.
  rewrite (byteAt_setByte_ne (pos + 2) (pos + 1)) by lia.
  rewrite (byteAt_setByte_eq (pos + 1)) by (rewrite !length_setByte; lia).
  rewrite (byteAt_setByte_ne (pos + 3) pos) by lia.
  rewrite (byteAt_setByte_ne (pos + 2) pos) by lia.
  rewrite (byteAt_setByte_ne (pos + 1) pos) by lia.
  rewrite (byteAt_setByte_eq pos) by lia.
  now destruct c.
Qed.

Lemma readPixel_writePixel_ne pos pos' c (data : list Z) :
  pos' + 3 < pos \/ pos + 3 < pos' ->
  readPixel (writePixel pos c data) pos' = readPixel data pos'.
Proof.
  intros Hd. unfold readPixel, writePixel.
  rewrite !byteAt_setByte_ne by lia. reflexivity.
Qed.

Lemma readPixel_in_range (data : list Z) pos :
  0 <= pos -> pos + 3 < Z.of_nat (length data) ->
  exists p, readPixel data pos = Some p.
Proof.
  intros H0 H3. unfold readPixel, byteAt.
  destruct (Z.ltb_spec pos 0); [lia|].
  destruct (Z.ltb_spec (pos + 1) 0); [lia|].
  destruct (Z.ltb_spec (pos + 2) 0); [lia|].
  destruct (Z.ltb_spec (pos + 3) 0); [lia|].
  destruct (lookup_lt_is_Some_2 data (Z.to_nat pos)) as [r ->]; [lia|].
  destruct (lookup_lt_is_Some_2 data (Z.to_nat (pos + 1))) as [g ->]; [lia|].
  destruct (lookup_lt_is_Some_2 data (Z.to_nat (pos + 2))) as [b ->]; [lia|].
  destruct (lookup_lt_is_Some_2 data (Z.to_nat (pos + 3))) as [a ->]; [lia|].
  eauto.
Qed.

Lemma offset_up w x y : offset w x (y - 1) = offset w x y - w * 4.
Proof. unfold offset. ring. Qed.

Lemma offset_down w x y : offset w x (y + 1) = offset w x y + w * 4.
Proof. unfold offset. ring. Qed.

Lemma offset_left w x y : offset w (x - 1) y = offset w x y - 4.
Proof. unfold offset. ring. Qed.

Lemma offset_right w x y : offset w (x + 1) y = offset w x y + 4.
Proof. unfold offset. ring. Qed.

Lemma offset_in_range w h x y :
  inGrid w h x y -> 0 <= offset w x y /\ offset w x y + 3 < w * h * 4.
Proof.
  unfold inGrid, offset. intros [Hx Hy].
  assert (0 <= y * w) by nia.
  assert (y * w + w <= h * w) by nia.
  lia.
Qed.

Lemma offset_apart w h x y x' y' :
  inGrid w h x y -> inGrid w h x' y' -> (x, y) <> (x', y') ->
  offset w x' y' + 3 < offset w x y \/ offset w x y + 3 < offset w x' y'.
Proof.
  unfold inGrid, offset. intros [Hx Hy] [Hx' Hy'] Hne.
  destruct (Z.lt_trichotomy y y') as [Hlt|[Heq|Hgt]].
  - right. assert (y * w + w <= y' * w) by nia. lia.
  - subst y'. assert (x <> x') by congruence. lia.
  - left. assert (y' * w + w <= y * w) by nia. lia.
Qed.

Lemma inRect_spec x0 x1 y0 y1 x y :
  inRect x0 x1 y0 y1 x y = true <-> (x0 <= x <= x1 /\ y0 <= y <= y1).
Proof.
  unfold inRect.
  destruct (Z.leb_spec x0 x), (Z.leb_spec x x1), (Z.leb_spec y0 y), (Z.leb_spec y y1);
    cbn; split; intros; try lia; try discriminate.
Qed.

Section WithPixels.

Variable similar : rgba -> rgba -> bool.
Variable blend : rgba -> Z * Z * Z -> rgba -> Q -> rgba.
Variable hexToRgb : string -> Z * Z * Z.

(** *** The scan of a rectangular region *)

Section Rectangle.

Variables W H : Z.
Variables x0 x1 y0 y1 : Z.
Variable fillColor : Z * Z * Z.
Variable startColor : rgba.
Variable alpha : Q.
Variable data0 : list Z.

Hypothesis Hx : 0 <= x0 <= x1 /\ x1 < W.
Hypothesis Hy : 0 <= y0 <= y1 /\ y1 < H.
Hypothesis Hlen : Z.of_nat (length data0) = W * H * 4.
Hypothesis Hregion : forall x y,
  inGrid W H x y ->
  matchColor similar data0 startColor (offset W x y) = inRect x0 x1 y0 y1 x y.
Hypothesis Hfresh : forall x y p,
  inGrid W H x y ->
  readPixel data0 (offset W x y) = Some p ->
  similar p startColor = true ->
  similar (blend p fillColor startColor alpha) startColor = false.

Local Abbreviation paintedSet := (Fill.paintedSet x0 x1 y0 y1).
Local Abbreviation paintedColumns := (Fill.paintedColumns x0 x1 y0 y1).
Local Abbreviation Painted := (Fill.Painted blend W H fillColor startColor alpha data0).

Lemma Painted_ext P P' data :
  (forall x y, inGrid W H x y -> P x y = P' x y) ->
  Painted P data -> Painted P' data.
Proof.
  intros Heq [Hl Hp]. split; [exact Hl|].
  intros x y Hg. rewrite <- (Heq x y Hg). now apply Hp.
Qed.

Lemma Painted_initial c : Painted (paintedSet (fun _ => false) c y0) data0.
Proof.
  split; [reflexivity|]. intros x y Hg. unfold paintedSet, inRect.
  destruct (Z.leb_spec y0 y); destruct (Z.ltb_spec y y0); try lia;
    rewrite ?andb_false_r; reflexivity.
Qed.

Lemma Painted_match P data x y :
  Painted P data ->
  (P x y = true -> inRect x0 x1 y0 y1 x y = true) ->
  inGrid W H x y ->
  matchColor similar data startColor (offset W x y)
  = inRect x0 x1 y0 y1 x y && negb (P x y).
Proof.
  intros [Hl Hp] Hsub Hg. unfold matchColor. rewrite (Hp x y Hg).
  pose proof (Hregion x y Hg) as Hr. unfold matchColor in Hr.
  destruct (offset_in_range W H x y Hg) as [Ho1 Ho2].
  destruct (readPixel_in_range data0 (offset W x y)) as [p Hpx]; [lia|lia|].
  rewrite Hpx in Hr |- *.
  destruct (P x y) eqn:HP; cbn.
  - rewrite andb_false_r. apply (Hfresh x y p Hg Hpx). rewrite Hr. now apply Hsub.
  - now rewrite andb_true_r.
Qed.

Lemma paintedSet_sub base c r x y :
  paintedSet base c r x y = true -> inRect x0 x1 y0 y1 x y = true.
Proof. unfold paintedSet. now intros [? _]%andb_prop. Qed.

Lemma Painted_color P data x y :
  Painted P data -> inGrid W H x y -> P x y = false ->
  Painted (fun x' y' => P x' y' || ((x' =? x) && (y' =? y)))
          (colorPixel blend fillColor startColor alpha (offset W x y) data).
Proof.
  intros [Hl Hp] Hg HP. unfold colorPixel.
  destruct (offset_in_range W H x y Hg) as [Ho1 Ho2].
  destruct (readPixel_in_range data0 (offset W x y)) as [p Hpx]; [lia|lia|].
  pose proof (Hp x y Hg) as Hxy. rewrite HP, Hpx in Hxy. rewrite Hxy.
  split; [now rewrite length_writePixel|].
  intros x' y' Hg'.
  destruct (Z.eqb_spec x' x) as [->|Hne]; [destruct (Z.eqb_spec y' y) as [->|Hne]|].
  - rewrite orb_true_r, Hpx. cbn [option_map].
    apply readPixel_writePixel_eq; lia.
  - cbn [andb]. rewrite orb_false_r.
    rewrite readPixel_writePixel_ne; [now apply Hp|].
    apply (offset_apart W H); auto. congruence.
  - cbn [andb]. rewrite orb_false_r.
    rewrite readPixel_writePixel_ne; [now apply Hp|].
    apply (offset_apart W H); auto. congruence.
Qed.


(** The upward walk from row [s] of column [c] stops at row [r]: outside
    the canvas or not matching. *)
Lemma walkUp_column data c r (n : nat) :
  forall (fuel : nat) s y pos,
  Z.of_nat n = s - r ->
  (n < fuel)%nat ->
  y = s -> pos = offset W c s ->
  (forall y', r < y' <= s ->
     0 <= y' /\ matchColor similar data startColor (offset W c y') = true) ->
  (r < 0 \/ matchColor similar data startColor (offset W c r) = false) ->
  walkUp similar W startColor fuel data y pos = Some (r - 1, offset W c r).
Proof.
  induction n as [|n IH]; intros fuel s y pos Hn Hfuel -> -> Hrun Hstop.
  - assert (s = r) by lia. subst s.
    destruct fuel as [|fuel]; [lia|]. cbn [walkUp].
    destruct Hstop as [Hneg|Hno].
    + destruct (Z.leb_spec 0 r); [lia|]. reflexivity.
    + rewrite Hno, andb_false_r. reflexivity.
  - destruct fuel as [|fuel]; [lia|]. cbn [walkUp].
    destruct (Hrun s) as [Hs Hm]; [lia|].
    destruct (Z.leb_spec 0 s); [|lia]. rewrite Hm. cbn [andb].
    apply (IH fuel (s - 1)); try lia.
    + now rewrite offset_up.
    + intros y' Hy'. apply Hrun. lia.
    + exact Hstop.
Qed.

Lemma lookSide_spec data pos nx y reach (st : list (Z * Z)) :
  lookSide similar startColor data pos nx y reach st
  = ((if matchColor similar data startColor pos && negb reach then [(nx, y)] else []) ++ st,
     matchColor similar data startColor pos).
Proof.
  unfold lookSide.
  destruct (matchColor similar data startColor pos), reach; reflexivity.
Qed.

Section Column.

Variable base : Z -> bool.
Variable c : Z.
Hypothesis Hc : x0 <= c <= x1.
Hypothesis Hbase : base c = false.

Local Abbreviation leftOpen := (Fill.leftOpen x0 base c).
Local Abbreviation rightOpen := (Fill.rightOpen x1 base c).
Local Abbreviation pushes := (Fill.pushes x0 x1 base c).

Lemma match_in_column data r r' :
  Painted (paintedSet base c r') data -> y0 <= r <= y1 -> r' <= r ->
  matchColor similar data startColor (offset W c r) = true.
Proof.
  intros HP Hr Hr'.
  rewrite (Painted_match _ data c r HP (paintedSet_sub base c r' c r)).
  - unfold Fill.paintedSet, inRect. rewrite Hbase.
    destruct (Z.leb_spec x0 c), (Z.leb_spec c x1), (Z.leb_spec y0 r),
      (Z.leb_spec r y1), (Z.ltb_spec r r'); try lia;
      try (rewrite ?andb_false_r; reflexivity).
  - unfold inGrid. lia.
Qed.

Lemma match_left data r r' :
  Painted (paintedSet base c r') data -> y0 <= r <= y1 -> 0 < c ->
  matchColor similar data startColor (offset W (c - 1) r) = leftOpen.
Proof.
  intros HP Hr Hpos.
  rewrite (Painted_match _ data (c - 1) r HP (paintedSet_sub base c r' (c - 1) r)).
  - unfold Fill.leftOpen, Fill.paintedSet, inRect.
    destruct (Z.leb_spec x0 (c - 1)), (Z.leb_spec (c - 1) x1), (Z.leb_spec y0 r),
      (Z.leb_spec r y1), (Z.eqb_spec (c - 1) c); try lia; cbn;
      rewrite ?orb_false_r; reflexivity.
  - unfold inGrid. lia.
Qed.

Lemma match_right data r r' :
  Painted (paintedSet base c r') data -> y0 <= r <= y1 -> c < W - 1 ->
  matchColor similar data startColor (offset W (c + 1) r) = rightOpen.
Proof.
  intros HP Hr Hpos.
  rewrite (Painted_match _ data (c + 1) r HP (paintedSet_sub base c r' (c + 1) r)).
  - unfold Fill.rightOpen, Fill.paintedSet, inRect.
    destruct (Z.leb_spec x0 (c + 1)), (Z.leb_spec (c + 1) x1), (Z.leb_spec y0 r),
      (Z.leb_spec r y1), (Z.eqb_spec (c + 1) c); try lia; cbn;
      rewrite ?orb_false_r; reflexivity.
  - unfold inGrid. lia.
Qed.

Lemma no_match_below data :
  Painted (paintedSet base c (y1 + 1)) data -> y1 + 1 < H ->
  matchColor similar data startColor (offset W c (y1 + 1)) = false.
Proof.
  intros HP Hr.
  rewrite (Painted_match _ data c (y1 + 1) HP (paintedSet_sub base c _ c (y1 + 1))).
  - unfold inRect. destruct (Z.leb_spec (y1 + 1) y1); [lia|].
    now rewrite andb_false_r.
  - unfold inGrid. lia.
Qed.

Lemma no_match_above data r :
  Painted (paintedSet base c r) data -> 0 <= y0 - 1 ->
  matchColor similar data startColor (offset W c (y0 - 1)) = false.
Proof.
  intros HP Hr.
  rewrite (Painted_match _ data c (y0 - 1) HP (paintedSet_sub base c _ c (y0 - 1))).
  - unfold inRect. destruct (Z.leb_spec y0 (y0 - 1)); [lia|].
    now rewrite andb_false_r.
  - unfold inGrid. lia.
Qed.

Lemma Painted_next_row data r :
  Painted (paintedSet base c r) data -> y0 <= r <= y1 ->
  Painted (paintedSet base c (r + 1))
          (colorPixel blend fillColor startColor alpha (offset W c r) data).
Proof.
  intros HP Hr.
  apply (Painted_ext (fun x' y' => paintedSet base c r x' y' || ((x' =? c) && (y' =? r)))).
  - intros x y Hg. unfold Fill.paintedSet, inRect.
    destruct (Z.eqb_spec x c) as [->|Hne].
    + rewrite Hbase. cbn [orb andb].
      destruct (Z.leb_spec x0 c), (Z.leb_spec c x1), (Z.leb_spec y0 y),
        (Z.leb_spec y y1), (Z.ltb_spec y r), (Z.ltb_spec y (r + 1)),
        (Z.eqb_spec y r); try lia; reflexivity.
    + cbn [andb]. now rewrite !orb_false_r.
  - apply Painted_color; [exact HP|unfold inGrid; lia|].
    unfold Fill.paintedSet. rewrite Hbase.
    destruct (Z.ltb_spec r r); [lia|].
    rewrite andb_false_r. cbn [orb]. now rewrite andb_false_r.
Qed.

(** The downward walk from row [r] of column [c] colours the rows [r] to
    [y1] and pushes at most one seed per side, in row [r]. *)
Lemma walkDown_column (n : nat) :
  forall (fuel : nat) r y pos reachLeft reachRight data st,
  Z.of_nat n = y1 + 1 - r ->
  y0 <= r ->
  (n < fuel)%nat ->
  y = r - 1 -> pos = offset W c r ->
  Painted (paintedSet base c r) data ->
  exists data',
    Painted (paintedSet base c (y1 + 1)) data' /\
    walkDown similar blend W H fillColor startColor alpha fuel c y pos
             reachLeft reachRight data st
    = Some (data', (if (0 <? n)%nat then pushes r reachLeft reachRight else []) ++ st).
Proof.
  induction n as [|n IH]; intros fuel r y pos rl rr data st Hn Hr Hfuel -> -> HP.
  - assert (r = y1 + 1) by lia. subst r.
    destruct fuel as [|fuel]; [lia|]. cbn [walkDown].
    exists data. split; [exact HP|].
    destruct (Z.ltb_spec (y1 + 1 - 1) (H - 1)) as [Hlt|Hge]; [|reflexivity].
    rewrite no_match_below by (auto; lia). reflexivity.
  - destruct fuel as [|fuel]; [lia|]. cbn [walkDown].
    destruct (Z.ltb_spec (r - 1) (H - 1)) as [_|Hge]; [|lia].
    rewrite (match_in_column data r r HP) by lia. cbn [andb].
    replace (r - 1 + 1) with r by lia.
    set (data1 := colorPixel blend fillColor startColor alpha (offset W c r) data).
    assert (HP1 : Painted (paintedSet base c (r + 1)) data1)
      by (apply Painted_next_row; [exact HP|lia]).
    rewrite !lookSide_spec, <- offset_left, <- offset_right, <- offset_down.
    assert (HL : exists rl1,
      (if 0 <? c
       then ((if matchColor similar data1 startColor (offset W (c - 1) r) && negb rl
              then [(c - 1, r)] else []) ++ st,
             matchColor similar data1 startColor (offset W (c - 1) r))
       else (st, rl))
      = ((if leftOpen && negb rl then [(c - 1, r)] else []) ++ st, rl1)
      /\ leftOpen && negb rl1 = false).
    { destruct (Z.ltb_spec 0 c) as [Hpos|Hz].
      - rewrite (match_left data1 r (r + 1) HP1) by lia.
        exists leftOpen. split; [reflexivity|]. now destruct leftOpen.
      - exists rl. assert (HlO : leftOpen = false).
        { unfold Fill.leftOpen. destruct (Z.leb_spec x0 (c - 1)); [lia|reflexivity]. }
        rewrite HlO. split; reflexivity. }
    destruct HL as (rl1 & -> & Hrl1). cbv beta iota.
    set (st1 := (if leftOpen && negb rl then [(c - 1, r)] else []) ++ st).
    assert (HR : exists rr1,
      (if c <? W - 1
       then ((if matchColor similar data1 startColor (offset W (c + 1) r) && negb rr
              then [(c + 1, r)] else []) ++ st1,
             matchColor similar data1 startColor (offset W (c + 1) r))
       else (st1, rr))
      = ((if rightOpen && negb rr then [(c + 1, r)] else []) ++ st1, rr1)
      /\ rightOpen && negb rr1 = false).
    { destruct (Z.ltb_spec c (W - 1)) as [Hpos|Hz].
      - rewrite (match_right data1 r (r + 1) HP1) by lia.
        exists rightOpen. split; [reflexivity|]. now destruct rightOpen.
      - exists rr. assert (HrO : rightOpen = false).
        { unfold Fill.rightOpen. destruct (Z.leb_spec (c + 1) x1); [lia|reflexivity]. }
        rewrite HrO. split; reflexivity. }
    rewrite ?lookSide_spec.
    destruct HR as (rr1 & -> & Hrr1). cbv beta iota.
    destruct (IH fuel (r + 1) r (offset W c (r + 1)) rl1 rr1 data1
                 ((if rightOpen && negb rr then [(c + 1, r)] else []) ++ st1))
      as (data' & HP' & Hwd); try lia; try reflexivity; [exact HP1|].
    exists data'. split; [exact HP'|]. rewrite Hwd. f_equal. f_equal.
    unfold Fill.pushes. rewrite Hrl1, Hrr1. cbn [app].
    destruct (0 <? n)%nat; cbn [app Nat.ltb Nat.leb]; subst st1;
      now rewrite app_assoc.
Qed.

(** One turn of the outer loop on a seed in an unpainted column. *)
Lemma scan_column (fuel : nat) data s st :
  Painted (paintedColumns base) data ->
  y0 <= s <= y1 ->
  (Z.of_nat fuel > H + 1) ->
  exists data',
    Painted (paintedColumns (fun x => base x || (x =? c))) data' /\
    scan similar blend W H fillColor startColor alpha (S fuel) data ((c, s) :: st)
    = scan similar blend W H fillColor startColor alpha fuel data'
           (pushes y0 false false ++ st).
Proof.
  intros HP Hs Hfuel.
  assert (HP0 : Painted (paintedSet base c y0) data).
  { revert HP. apply Painted_ext. intros x y Hg.
    unfold Fill.paintedColumns, Fill.paintedSet, inRect.
    destruct (Z.leb_spec y0 y), (Z.ltb_spec y y0); try lia;
      rewrite ?andb_false_r, ?orb_false_r; reflexivity. }
  cbn [scan]. fold (offset W c s).
  rewrite (walkUp_column data c (y0 - 1) (Z.to_nat (s - (y0 - 1))) fuel s s (offset W c s));
    try lia; try reflexivity.
  2:{ intros y' Hy'. split; [lia|]. apply (match_in_column data y' y0 HP0); lia. }
  2:{ destruct (Z.ltb_spec (y0 - 1) 0); [now left|right].
      apply (no_match_above data y0 HP0). lia. }
  destruct (walkDown_column (Z.to_nat (y1 + 1 - y0)) fuel y0 (y0 - 1 - 1 + 1)
              (offset W c (y0 - 1) + W * 4) false false data st)
    as (data' & HP' & Hwd); try lia.
  { unfold offset. ring. }
  { exact HP0. }
  rewrite Hwd. exists data'. split.
  - revert HP'. apply Painted_ext. intros x y Hg.
    unfold Fill.paintedColumns, Fill.paintedSet, inRect.
    destruct (Z.leb_spec y y1), (Z.ltb_spec y (y1 + 1)); try lia;
      rewrite ?andb_false_r, ?andb_true_r; reflexivity.
  - destruct (Nat.ltb_spec 0 (Z.to_nat (y1 + 1 - y0))); [reflexivity|lia].
Qed.

End Column.

Local Abbreviation scanRect := (scan similar blend W H fillColor startColor alpha).

(** The sweep to the right: the columns from [sx] to [c - 1] are painted
    and the seed [(c, y0)] is on top of the stack. *)
Lemma sweep_right (n : nat) :
  forall (fuel : nat) sx c data st,
  Z.of_nat n = x1 - c ->
  x0 <= sx <= c - 1 ->
  (Z.of_nat fuel > Z.of_nat n + H + 2) ->
  Painted (paintedColumns (columns sx (c - 1))) data ->
  exists data',
    Painted (paintedColumns (columns sx x1)) data' /\
    scanRect fuel data ((c, y0) :: st) = scanRect (fuel - S n) data' st.
Proof.
  induction n as [|n IH]; intros fuel sx c data st Hn Hsx Hfuel HP;
    (destruct fuel as [|fuel]; [lia|]).
  - destruct (scan_column (columns sx (c - 1)) c) with (fuel := fuel) (data := data)
      (s := y0) (st := st) as (data' & HP' & Hsc); try lia; try assumption.
    { unfold columns. destruct (Z.leb_spec c (c - 1)); [lia|]. now rewrite andb_false_r. }
    exists data'. split.
    + revert HP'. apply Painted_ext. intros x y Hg. unfold Fill.paintedColumns, columns.
      destruct (Z.leb_spec sx x), (Z.leb_spec x (c - 1)), (Z.leb_spec x x1),
        (Z.eqb_spec x c); try lia; reflexivity.
    + rewrite Hsc. unfold Fill.pushes, Fill.leftOpen, Fill.rightOpen, columns.
      destruct (Z.leb_spec (c + 1) x1); [lia|].
      destruct (Z.leb_spec sx (c - 1)), (Z.leb_spec (c - 1) (c - 1)); try lia.
      cbn. rewrite andb_false_r. cbn. f_equal. lia.
  - destruct (scan_column (columns sx (c - 1)) c) with (fuel := fuel) (data := data)
      (s := y0) (st := st) as (data1 & HP1 & Hsc); try lia; try assumption.
    { unfold columns. destruct (Z.leb_spec c (c - 1)); [lia|]. now rewrite andb_false_r. }
    destruct (IH fuel sx (c + 1) data1 st) as (data' & HP' & Hsw); try lia.
    { revert HP1. apply Painted_ext. intros x y Hg. unfold Fill.paintedColumns, columns.
      destruct (Z.leb_spec sx x), (Z.leb_spec x (c - 1)), (Z.leb_spec x (c + 1 - 1)),
        (Z.eqb_spec x c); try lia; reflexivity. }
    exists data'. split; [exact HP'|].
    rewrite Hsc. unfold Fill.pushes, Fill.leftOpen, Fill.rightOpen, columns.
    destruct (Z.leb_spec (c + 1) x1); [|lia].
    destruct (Z.leb_spec sx (c - 1)), (Z.leb_spec (c - 1) (c - 1)); try lia.
    destruct (Z.leb_spec sx (c + 1)), (Z.leb_spec (c + 1) (c - 1)); try lia.
    cbn. rewrite andb_false_r. cbn. rewrite Hsw. f_equal.
Qed.

(** The sweep to the left: the columns from [c + 1] to [x1] are painted
    and the seed [(c, y0)] is on top of the stack. *)
Lemma sweep_left (n : nat) :
  forall (fuel : nat) c data st,
  Z.of_nat n = c - x0 ->
  c + 1 <= x1 ->
  (Z.of_nat fuel > Z.of_nat n + H + 2) ->
  Painted (paintedColumns (columns (c + 1) x1)) data ->
  exists data',
    Painted (paintedColumns (columns x0 x1)) data' /\
    scanRect fuel data ((c, y0) :: st) = scanRect (fuel - S n) data' st.
Proof.
  induction n as [|n IH]; intros fuel c data st Hn Hc Hfuel HP;
    (destruct fuel as [|fuel]; [lia|]).
  - destruct (scan_column (columns (c + 1) x1) c) with (fuel := fuel) (data := data)
      (s := y0) (st := st) as (data' & HP' & Hsc); try lia; try assumption.
    { unfold columns. destruct (Z.leb_spec (c + 1) c); [lia|]. reflexivity. }
    exists data'. split.
    + revert HP'. apply Painted_ext. intros x y Hg. unfold Fill.paintedColumns, columns.
      destruct (Z.leb_spec (c + 1) x), (Z.leb_spec x0 x), (Z.leb_spec x x1),
        (Z.eqb_spec x c); try lia; reflexivity.
    + rewrite Hsc. unfold Fill.pushes, Fill.leftOpen, Fill.rightOpen, columns.
      destruct (Z.leb_spec x0 (c - 1)); [lia|].
      destruct (Z.leb_spec (c + 1) x1), (Z.leb_spec (c + 1) (c + 1)); try lia.
      cbn. f_equal. lia.
  - destruct (scan_column (columns (c + 1) x1) c) with (fuel := fuel) (data := data)
      (s := y0) (st := st) as (data1 & HP1 & Hsc); try lia; try assumption.
    { unfold columns. destruct (Z.leb_spec (c + 1) c); [lia|]. reflexivity. }
    destruct (IH fuel (c - 1) data1 st) as (data' & HP' & Hsw); try lia.
    { revert HP1. apply Painted_ext. intros x y Hg. unfold Fill.paintedColumns, columns.
      destruct (Z.leb_spec (c + 1) x), (Z.leb_spec (c - 1 + 1) x), (Z.leb_spec x x1),
        (Z.eqb_spec x c); try lia; reflexivity. }
    exists data'. split; [exact HP'|].
    rewrite Hsc. unfold Fill.pushes, Fill.leftOpen, Fill.rightOpen, columns.
    destruct (Z.leb_spec x0 (c - 1)); [|lia].
    destruct (Z.leb_spec (c + 1) x1), (Z.leb_spec (c + 1) (c + 1)); try lia.
    destruct (Z.leb_spec (c + 1) (c - 1)); try lia.
    cbn. rewrite Hsw. f_equal.
Qed.

(** The scan seeded inside the rectangle ends, and paints the rectangle. *)
Lemma scan_rectangle (fuel : nat) sx sy :
  x0 <= sx <= x1 -> y0 <= sy <= y1 ->
  Z.of_nat fuel >= (x1 - x0) + H + 5 ->
  exists data',
    scanRect fuel data0 [(sx, sy)] = Some data' /\
    Painted (inRect x0 x1 y0 y1) data'.
Proof.
  intros Hsx Hsy Hfuel.
  destruct fuel as [|fuel]; [lia|].
  destruct (scan_column (columns sx (sx - 1)) sx) with (fuel := fuel) (data := data0)
    (s := sy) (st := @nil (Z * Z)) as (data1 & HP1 & Hsc); try lia.
  { unfold columns. destruct (Z.leb_spec sx (sx - 1)); [lia|]. now rewrite andb_false_r. }
  { generalize (Painted_initial sx). apply Painted_ext. intros x y Hg.
    unfold Fill.paintedColumns, Fill.paintedSet, columns, inRect.
    destruct (Z.leb_spec sx x), (Z.leb_spec x (sx - 1)), (Z.leb_spec y0 y),
      (Z.ltb_spec y y0); try lia; rewrite ?andb_false_r; reflexivity. }
  rewrite Hsc. clear Hsc.
  assert (HP1' : Painted (paintedColumns (columns sx sx)) data1).
  { revert HP1. apply Painted_ext. intros x y Hg. unfold Fill.paintedColumns, columns.
    destruct (Z.leb_spec sx x), (Z.leb_spec x (sx - 1)), (Z.leb_spec x sx),
      (Z.eqb_spec x sx); try lia; reflexivity. }
  clear HP1.
  unfold Fill.pushes, Fill.leftOpen, Fill.rightOpen, columns.
  replace ((sx <=? sx - 1) && (sx - 1 <=? sx - 1)) with false
    by (destruct (Z.leb_spec sx (sx - 1)); [lia|reflexivity]).
  replace ((sx <=? sx + 1) && (sx + 1 <=? sx - 1)) with false
    by (destruct (Z.leb_spec (sx + 1) (sx - 1)); [lia|now rewrite andb_false_r]).
  cbn [negb]. rewrite !andb_true_r. rewrite app_nil_r.
  set (L := if x0 <=? sx - 1 then [(sx - 1, y0)] else []).
  (* the columns right of the seed *)
  assert (HR : exists (m : nat) data2,
    Painted (paintedColumns (columns sx x1)) data2 /\
    (Z.of_nat m <= x1 - sx) /\
    scanRect fuel data1 ((if sx + 1 <=? x1 then [(sx + 1, y0)] else []) ++ L)
    = scanRect (fuel - m) data2 L).
  { destruct (Z.leb_spec (sx + 1) x1) as [Hlt|Hge].
    - destruct (sweep_right (Z.to_nat (x1 - (sx + 1))) fuel sx (sx + 1) data1 L)
        as (data2 & HP2 & Hsw); try lia.
      { revert HP1'. apply Painted_ext. intros x y Hg. unfold Fill.paintedColumns, columns.
        destruct (Z.leb_spec x sx), (Z.leb_spec x (sx + 1 - 1)); try lia; reflexivity. }
      exists (S (Z.to_nat (x1 - (sx + 1)))), data2. split; [exact HP2|]. split; [lia|].
      exact Hsw.
    - exists 0%nat, data1. split.
      + revert HP1'. apply Painted_ext. intros x y Hg. unfold Fill.paintedColumns, columns.
        destruct (Z.leb_spec x sx), (Z.leb_spec x x1); try lia; reflexivity.
      + split; [lia|]. cbn [app]. f_equal. lia. }
  destruct HR as (m & data2 & HP2 & Hm & ->).
  (* the columns left of the seed *)
  assert (HL : exists (k : nat) data3,
    Painted (paintedColumns (columns x0 x1)) data3 /\
    (Z.of_nat k <= sx - x0) /\
    scanRect (fuel - m) data2 L = scanRect (fuel - m - k) data3 []).
  { subst L. destruct (Z.leb_spec x0 (sx - 1)) as [Hlt|Hge].
    - destruct (sweep_left (Z.to_nat (sx - 1 - x0)) (fuel - m) (sx - 1) data2 [])
        as (data3 & HP3 & Hsw); try lia.
      { revert HP2. apply Painted_ext. intros x y Hg. unfold Fill.paintedColumns, columns.
        destruct (Z.leb_spec sx x), (Z.leb_spec (sx - 1 + 1) x); try lia; reflexivity. }
      exists (S (Z.to_nat (sx - 1 - x0))), data3. split; [exact HP3|]. split; [lia|].
      exact Hsw.
    - exists 0%nat, data2. split.
      + revert HP2. apply Painted_ext. intros x y Hg. unfold Fill.paintedColumns, columns.
        destruct (Z.leb_spec sx x), (Z.leb_spec x0 x); try lia; reflexivity.
      + split; [lia|]. f_equal. lia. }
  destruct HL as (k & data3 & HP3 & Hk & ->).
  exists data3. split.
  - destruct (fuel - m - k)%nat as [|f] eqn:E; [lia|]. reflexivity.
  - revert HP3. apply Painted_ext. intros x y Hg.
    unfold Fill.paintedColumns, columns, inRect.
    destruct (Z.leb_spec x0 x), (Z.leb_spec x x1); cbn;
      rewrite ?andb_false_r, ?andb_true_r; reflexivity.
Qed.

Lemma rect_inGrid x y : inRect x0 x1 y0 y1 x y = true -> inGrid W H x y.
Proof. intros Hr%inRect_spec. unfold inGrid. clear - Hx Hy Hr. lia. Qed.

Local Abbreviation reach := (connected similar W H data0 startColor).

(** The closure of a seed is inside the rectangle ... *)
Lemma connected_in_rect sx sy x y :
  reach sx sy x y -> inRect x0 x1 y0 y1 x y = true.
Proof.
  induction 1 as [Hg Hm|x y x' y' _ _ _ Hg Hm].
  - now rewrite <- (Hregion _ _ Hg).
  - now rewrite <- (Hregion _ _ Hg).
Qed.

(** ... and is all of it when the seed is. *)
Lemma rect_connected sx sy x y :
  inRect x0 x1 y0 y1 sx sy = true ->
  inRect x0 x1 y0 y1 x y = true ->
  reach sx sy x y.
Proof.
  intros Hs Hr.
  assert (Hrow : forall (n : nat) x', Z.abs (x' - sx) = Z.of_nat n ->
                   x0 <= x' <= x1 -> reach sx sy x' sy).
  { induction n as [|n IH]; intros x' Hn Hx'.
    - assert (x' = sx) by lia. subst x'.
      apply connected_seed; [now apply rect_inGrid|].
      rewrite Hregion; [exact Hs|now apply rect_inGrid].
    - apply inRect_spec in Hs.
      assert (Hin : inRect x0 x1 y0 y1 x' sy = true) by (apply inRect_spec; lia).
      destruct (Z.lt_trichotomy x' sx) as [Hlt|[Heq|Hgt]]; [|lia|].
      + apply (connected_step _ _ _ _ _ _ _ (x' + 1) sy).
        * apply IH; lia.
        * right. split; [reflexivity|]. right. lia.
        * now apply rect_inGrid.
        * rewrite Hregion; [exact Hin|now apply rect_inGrid].
      + apply (connected_step _ _ _ _ _ _ _ (x' - 1) sy).
        * apply IH; lia.
        * right. split; [reflexivity|]. left. lia.
        * now apply rect_inGrid.
        * rewrite Hregion; [exact Hin|now apply rect_inGrid]. }
  assert (Hcol : forall (n : nat) y', Z.abs (y' - sy) = Z.of_nat n ->
                   y0 <= y' <= y1 -> reach sx sy x y').
  { apply inRect_spec in Hr.
    induction n as [|n IH]; intros y' Hn Hy'.
    - assert (y' = sy) by lia. subst y'.
      apply (Hrow (Z.to_nat (Z.abs (x - sx)))); lia.
    - apply inRect_spec in Hs.
      assert (Hin : inRect x0 x1 y0 y1 x y' = true) by (apply inRect_spec; lia).
      destruct (Z.lt_trichotomy y' sy) as [Hlt|[Heq|Hgt]]; [|lia|].
      + apply (connected_step _ _ _ _ _ _ _ x (y' + 1)).
        * apply IH; lia.
        * left. split; [reflexivity|]. right. lia.
        * now apply rect_inGrid.
        * rewrite Hregion; [exact Hin|now apply rect_inGrid].
      + apply (connected_step _ _ _ _ _ _ _ x (y' - 1)).
        * apply IH; lia.
        * left. split; [reflexivity|]. left. lia.
        * now apply rect_inGrid.
        * rewrite Hregion; [exact Hin|now apply rect_inGrid]. }
  apply (Hcol (Z.to_nat (Z.abs (y - sy)))); [lia|].
  apply inRect_spec in Hr. lia.
Qed.

End Rectangle.

(** C1: the canvas holds one rectangle of colour [C1] on a background
    [C2] that does not match [C1]; [C1] does not match the fill colour,
    nor does the pixel that the fill writes over [C1].  A pass seeded
    inside the rectangle, with nothing queued, ends (given fuel for its
    loops) with one commit, and the pixels it has changed are exactly the
    4-connected closure of the seed under [matchColor(., C1)], which is
    the whole rectangle, its top and bottom rows included: every pixel of
    it holds the blended colour, every other pixel is what it was. *)
Theorem flood_fill_rectangle (fuel : nat) (_startX _startY : Q) (C1 C2 : rgba)
    (x0 x1 y0 y1 : Z) a :
  let ctx := context a in
  let W := canvas_width ctx in
  let H := canvas_height ctx in
  let fc := fillColorOf hexToRgb ctx in
  let written := blend C1 fc C1 (fillAlpha ctx) in
  0 <= x0 <= x1 /\ x1 < W ->
  0 <= y0 <= y1 /\ y1 < H ->
  Z.of_nat (length (surface ctx)) = W * H * 4 ->
  (forall x y, inGrid W H x y ->
     readPixel (surface ctx) (offset W x y)
     = Some (if inRect x0 x1 y0 y1 x y then C1 else C2)) ->
  similar C1 C1 = true ->
  similar C2 C1 = false ->
  similar C1 (opaque fc) = false ->
  similar written C1 = false ->
  inRect x0 x1 y0 y1 (Qfloor _startX) (Qfloor _startY) = true ->
  _fillStack a = [] ->
  Z.of_nat fuel >= W + H + 6 ->
  exists a',
    _floodFill similar blend hexToRgb fuel _startX _startY C1 a = Some a' /\
    commits (context a') = S (commits ctx) /\
    dispatched a' = dispatched a ++ [fillend] /\
    length (surface (context a')) = length (surface ctx) /\
    forall x y, inGrid W H x y ->
      (readPixel (surface (context a')) (offset W x y)
       <> readPixel (surface ctx) (offset W x y)
       <-> connected similar W H (surface ctx) C1 (Qfloor _startX) (Qfloor _startY) x y) /\
      (connected similar W H (surface ctx) C1 (Qfloor _startX) (Qfloor _startY) x y
       <-> inRect x0 x1 y0 y1 x y = true) /\
      readPixel (surface (context a')) (offset W x y)
      = Some (if inRect x0 x1 y0 y1 x y then written else C2).
Proof.
  cbn zeta. intros Hx Hy Hlen Hpix Hself Hback Hfill Hwritten Hseed Hq Hfuel.
  set (W := canvas_width (context a)) in *.
  set (H := canvas_height (context a)) in *.
  set (fc := fillColorOf hexToRgb (context a)) in *.
  set (data0 := surface (context a)) in *.
  set (sx := Qfloor _startX) in *. set (sy := Qfloor _startY) in *.
  assert (Hregion : forall x y, inGrid W H x y ->
            matchColor similar data0 C1 (offset W x y) = inRect x0 x1 y0 y1 x y).
  { intros x y Hg. unfold matchColor. rewrite (Hpix x y Hg).
    now destruct (inRect x0 x1 y0 y1 x y). }
  assert (Hfresh : forall x y p, inGrid W H x y ->
            readPixel data0 (offset W x y) = Some p ->
            similar p C1 = true ->
            similar (blend p fc C1 (fillAlpha (context a))) C1 = false).
  { intros x y p Hg Hp Hs. rewrite (Hpix x y Hg) in Hp. injection Hp as <-.
    destruct (inRect x0 x1 y0 y1 x y); [exact Hwritten|congruence]. }
  assert (Hsg : inGrid W H sx sy) by (apply (rect_inGrid W H x0 x1 y0 y1 Hx Hy); auto).
  destruct fuel as [|fuel]; [lia|]. cbn [_floodFill].
  fold W H fc data0 sx sy. fold (offset W sx sy).
  assert (Hnoop : matchColor similar data0 (opaque fc) (offset W sx sy) = false).
  { unfold matchColor. rewrite (Hpix sx sy Hsg), Hseed. exact Hfill. }
  rewrite Hnoop.
  destruct (scan_rectangle W H x0 x1 y0 y1 fc C1 (fillAlpha (context a)) data0
              Hx Hy Hlen Hregion Hfresh fuel sx sy) as (data' & Hscan & HP).
  { apply (inRect_spec x0 x1 y0 y1) in Hseed. lia. }
  { apply (inRect_spec x0 x1 y0 y1) in Hseed. lia. }
  { lia. }
  rewrite Hscan. cbn [_fillStack with_context]. rewrite Hq.
  eexists. split; [reflexivity|].
  cbn. split; [reflexivity|]. split; [reflexivity|].
  destruct HP as [Hl HP]. split; [exact Hl|].
  intros x y Hg.
  assert (Hnew : readPixel data' (offset W x y)
                 = Some (if inRect x0 x1 y0 y1 x y
                         then blend C1 fc C1 (fillAlpha (context a)) else C2)).
  { rewrite (HP x y Hg), (Hpix x y Hg). now destruct (inRect x0 x1 y0 y1 x y). }
  assert (Hconn : connected similar W H data0 C1 sx sy x y
                  <-> inRect x0 x1 y0 y1 x y = true).
  { split.
    - apply (connected_in_rect W H x0 x1 y0 y1 C1 data0 Hregion).
    - apply (rect_connected W H x0 x1 y0 y1 C1 data0 Hx Hy Hregion); exact Hseed. }
  split; [|split; [exact Hconn|exact Hnew]].
  rewrite Hconn, Hnew, (Hpix x y Hg).
  destruct (inRect x0 x1 y0 y1 x y); split; intros Hne; congruence.
Qed.


(** C4: when the pixel at the floored seed already matches the fill
    colour at full opacity, the pass stops at once: the context, and with
    it the pixel buffer and the number of commits, is what it was, the
    queue is untouched, [_filling] is reset and one [fillend] is
    dispatched. *)
Theorem same_colour_fill_is_noop (fuel : nat) (_startX _startY : Q) (startColor : rgba) a :
  (0 < fuel)%nat ->
  matchColor similar (surface (context a))
             (opaque (fillColorOf hexToRgb (context a)))
             ((Qfloor _startY * canvas_width (context a) + Qfloor _startX) * 4) = true ->
  exists a',
    _floodFill similar blend hexToRgb fuel _startX _startY startColor a = Some a' /\
    context a' = context a /\
    surface (context a') = surface (context a) /\
    commits (context a') = commits (context a) /\
    dispatched a' = dispatched a ++ [fillend] /\
    _filling a' = false /\
    _fillStack a' = _fillStack a.
Proof.
  intros Hfuel Hmatch. destruct fuel as [|fuel]; [lia|].
  cbn [_floodFill]. rewrite Hmatch.
  eexists. split; [reflexivity|]. repeat split.
Qed.

(** A pass that is not stopped as a no-op commits its buffer and then
    runs the oldest queued request on the committed surface. *)
Lemma floodFill_runs_next (fuel : nat) (_startX _startY : Q) (startColor : rgba)
    a layer next rest :
  matchColor similar (surface (context a))
             (opaque (fillColorOf hexToRgb (context a)))
             ((Qfloor _startY * canvas_width (context a) + Qfloor _startX) * 4) = false ->
  scan similar blend (canvas_width (context a)) (canvas_height (context a))
       (fillColorOf hexToRgb (context a)) startColor (fillAlpha (context a)) fuel
       (surface (context a)) [(Qfloor _startX, Qfloor _startY)] = Some layer ->
  _fillStack a = next :: rest ->
  _floodFill similar blend hexToRgb (S fuel) _startX _startY startColor a
  = _floodFill similar blend hexToRgb fuel (seedX next) (seedY next) (seedColor next)
      (with_fillStack rest (with_context (putImageData layer (context a)) a)).
Proof.
  intros Hm Hs Hq. cbn [_floodFill]. rewrite Hm, Hs.
  cbn [_fillStack with_context]. now rewrite Hq.
Qed.

(** Whatever a pass and the queued passes after it do, [_floodFill]
    dispatches exactly one event, [fillend], and leaves [_filling] false. *)
Lemma floodFill_dispatches_fillend (fuel : nat) :
  forall (_startX _startY : Q) (startColor : rgba) a a',
  _floodFill similar blend hexToRgb fuel _startX _startY startColor a = Some a' ->
  dispatched a' = dispatched a ++ [fillend] /\ _filling a' = false.
Proof.
  induction fuel as [|fuel IH]; intros sx sy c a a' H; [discriminate|].
  cbn [_floodFill] in H.
  destruct (matchColor _ _ _ _).
  - injection H as <-. split; reflexivity.
  - destruct (scan _ _ _ _ _ _ _ _ _) as [layer|]; [|discriminate].
    cbn [_fillStack with_context] in H.
    destruct (_fillStack a) as [|next rest].
    + injection H as <-. split; reflexivity.
    + apply IH in H. exact H.
Qed.

(** C10: [fill] dispatches [fillstart] exactly when no pass is in progress;
    a request made while [_filling] is set is appended to the queue with
    no event; and a pass, with all the queued passes it runs, dispatches
    [fillend] once and no [fillstart]. *)
Theorem fillstart_only_when_idle a :
  let request := {| seedX := pointerX a; seedY := pointerY a;
                    seedColor := getImageData1 (context a) (pointerX a) (pointerY a) |} in
  (_filling a = false ->
   dispatched (fill a) = dispatched a ++ [fillstart (pointerX a) (pointerY a)] /\
   _filling (fill a) = true /\
   _fillStack (fill a) = _fillStack a /\
   timers (fill a) = timers a ++ [seedColor request]) /\
  (_filling a = true ->
   dispatched (fill a) = dispatched a /\
   _filling (fill a) = true /\
   _fillStack (fill a) = _fillStack a ++ [request] /\
   timers (fill a) = timers a) /\
  (forall fuel sx sy c b b',
     _floodFill similar blend hexToRgb fuel sx sy c b = Some b' ->
     dispatched b' = dispatched b ++ [fillend] /\ _filling b' = false).
Proof.
  cbn zeta. split; [|split].
  - intros H. unfold fill. rewrite H. cbn. repeat split.
  - intros H. unfold fill. rewrite H. cbn. repeat split. exact H.
  - intros fuel sx sy c b b'. apply floodFill_dispatches_fillend.
Qed.

End WithPixels.

(** C2, the defect: on the stripe (red, white, blue; stroke colour red) a
    fill is requested on the red pixel and, before its timer fires, a
    second one on the blue pixel; the pointer is back on the red pixel
    when the timer fires.  The first pass stops as a same-colour no-op
    and returns without looking at the queue: the second request stays in
    [_fillStack] with [_filling] reset and no timer pending, and the blue
    pixel is never filled.  When the first request is made on the white
    pixel instead (the pointer back on it when the timer fires), its pass
    runs and the queued one after it. *)
Theorem queued_fill_left_behind :
  let submitted := pointerDown 2 0 (pointerDown 0 0 stripe) in
  let fired := fireTimer (within 0) overwrite hexColor 20 (with_pointer 0 0 submitted) in
  let submitted' := pointerDown 2 0 (pointerDown 1 0 stripe) in
  let fired' := fireTimer (within 0) overwrite hexColor 20 (with_pointer 1 0 submitted') in
  _filling submitted = true /\
  _fillStack submitted = [ {| seedX := 2; seedY := 0; seedColor := pureBlue |} ] /\
  (exists a, fired = Some a /\
     _filling a = false /\ timers a = [] /\
     _fillStack a = [ {| seedX := 2; seedY := 0; seedColor := pureBlue |} ] /\
     surface (context a) = flat_map bytes [pureRed; white; pureBlue] /\
     commits (context a) = 0%nat /\
     dispatched a = [fillstart 0 0; fillend]) /\
  (exists a, fired' = Some a /\
     _filling a = false /\ timers a = [] /\ _fillStack a = [] /\
     surface (context a) = flat_map bytes [pureRed; pureRed; pureRed] /\
     commits (context a) = 2%nat).
Proof.
  cbn zeta. split; [reflexivity|]. split; [reflexivity|]. split.
  - eexists. split; [vm_compute; reflexivity|].
    repeat (split; [reflexivity|]). reflexivity.
  - eexists. split; [vm_compute; reflexivity|].
    repeat (split; [reflexivity|]). reflexivity.
Qed.

(** The block (two white columns, one black) filled in red from a seed
    in its first column. *)
Example block_filled :
  option_map (fun a => surface (context a))
             (_floodFill (within 0) overwrite hexColor 12 (1 # 2) (3 # 2) white block)
  = Some (flat_map bytes [pureRed; pureRed; black;
                          pureRed; pureRed; black;
                          pureRed; pureRed; black]).
Proof. vm_compute. reflexivity. Qed.

Lemma block_pixels x y :
  inGrid 3 3 x y ->
  readPixel (surface (context block)) (offset 3 x y)
  = Some (if inRect 0 1 0 2 x y then white else black).
Proof.
  intros [Hx Hy].
  assert (Hxs : x = 0 \/ x = 1 \/ x = 2) by lia.
  assert (Hys : y = 0 \/ y = 1 \/ y = 2) by lia.
  destruct Hxs as [->|[->| ->]], Hys as [->|[->| ->]]; reflexivity.
Qed.

Lemma flood_fill_rectangle_witness :
  (0 <= 0 <= 1 /\ 1 < canvas_width (context block)) /\
  (0 <= 0 <= 2 /\ 2 < canvas_height (context block)) /\
  within 0 white white = true /\
  within 0 black white = false /\
  within 0 white (opaque (fillColorOf hexColor (context block))) = false /\
  inRect 0 1 0 2 (Qfloor (1 # 2)) (Qfloor (3 # 2)) = true /\
  _fillStack block = [] /\
  Z.of_nat 12 >= canvas_width (context block) + canvas_height (context block) + 6 /\
  exists a',
    _floodFill (within 0) overwrite hexColor 12 (1 # 2) (3 # 2) white block = Some a' /\
    forall x y, inGrid 3 3 x y ->
      (readPixel (surface (context a')) (offset 3 x y)
       <> readPixel (surface (context block)) (offset 3 x y)
       <-> inRect 0 1 0 2 x y = true).
Proof.
  repeat (split; [first [reflexivity | lia | (cbn; lia)]|]).
  destruct (flood_fill_rectangle (within 0) overwrite hexColor 12 (1 # 2) (3 # 2)
              white black 0 1 0 2 block) as (a' & Hrun & _ & _ & _ & Hpx);
    try reflexivity; try (cbn; lia).
  - exact block_pixels.
  - exists a'. split; [exact Hrun|]. intros x y Hg.
    destruct (Hpx x y Hg) as (Hmut & Hconn & _).
    now rewrite <- Hconn.
Defined.

Lemma same_colour_fill_is_noop_witness :
  (0 < 1)%nat /\
  matchColor (within 0) (surface (context stripe))
             (opaque (fillColorOf hexColor (context stripe)))
             ((Qfloor 0 * canvas_width (context stripe) + Qfloor 0) * 4) = true /\
  exists a',
    _floodFill (within 0) overwrite hexColor 1 0 0 pureRed stripe = Some a' /\
    context a' = context stripe /\
    surface (context a') = surface (context stripe) /\
    commits (context a') = commits (context stripe) /\
    dispatched a' = dispatched stripe ++ [fillend] /\
    _filling a' = false /\
    _fillStack a' = _fillStack stripe.
Proof.
  split; [lia|]. split; [reflexivity|].
  apply (same_colour_fill_is_noop (within 0) overwrite hexColor 1 0 0 pureRed stripe);
    [lia|reflexivity].
Defined.

Lemma fillstart_only_when_idle_witness :
  _filling stripe = false /\
  dispatched (fill stripe) = dispatched stripe ++ [fillstart 0 0] /\
  _filling (fill stripe) = true /\
  dispatched (fill (fill stripe)) = dispatched (fill stripe).
Proof.
  split; [reflexivity|].
  destruct (fillstart_only_when_idle (within 0) overwrite hexColor stripe) as (H1 & _).
  destruct (H1 eq_refl) as (Hd & Hf & _).
  destruct (fillstart_only_when_idle (within 0) overwrite hexColor (fill stripe)) as (_ & H2 & _).
  destruct (H2 Hf) as (Hd2 & _).
  split; [exact Hd|]. split; [exact Hf|exact Hd2].
Defined.

End FillFacts.

(** ** More on the stroke renderer *)

Module StrokeMore.

Import Stroke StrokeFacts.
Local Open Scope R_scope.

Section WithConstants.

Variable K : Constants.

Lemma lineDistance_scaled px py qx qy f :
  lineDistance (px - (px - qx) * f) (py - (py - qy) * f) qx qy
  = Rabs (1 - f) * lineDistance px py qx qy.
Proof.
  unfold lineDistance.
  replace ((qx - (px - (px - qx) * f)) * (qx - (px - (px - qx) * f))
           + (qy - (py - (py - qy) * f)) * (qy - (py - (py - qy) * f)))
    with (Rsqr (1 - f) * ((qx - px) * (qx - px) + (qy - py) * (qy - py)))
    by (unfold Rsqr; ring).
  rewrite sqrt_mult.
  - now rewrite sqrt_Rsqr_abs.
  - apply Rle_0_sqr.
  - pose proof (Rle_0_sqr (qx - px)) as Hx. pose proof (Rle_0_sqr (qy - py)) as Hy.
    unfold Rsqr in Hx, Hy. lra.
Qed.

(** The returned point and the context after [draw]. *)
Lemma draw_returns now px py prevX prevY a :
  let factor := smoothingFactor K a px py prevX prevY in
  let new := {| x := px - (px - prevX) * factor; y := py - (py - prevY) * factor |} in
  let a' := fst (draw K now px py prevX prevY a) in
  snd (draw K now px py prevX prevY a) = new /\
  path (context a')
  = path (context a) ++ [QuadraticCurveTo prevX prevY (x new) (y new); StrokePath] /\
  strokeStyle (context a') = strokeStyle (context a) /\
  globalCompositeOperation (context a') = globalCompositeOperation (context a) /\
  _thickness a' = (if adaptiveStroke a then _thickness a' else _thickness a).
Proof.
  cbn zeta. unfold draw. cbn zeta.
  set (a1 := if recordStrokes a then remember now px py a else a).
  assert (Hs : smoothing a1 = smoothing a /\ context a1 = context a /\
               adaptiveStroke a1 = adaptiveStroke a /\ _thickness a1 = _thickness a).
  { subst a1. destruct (recordStrokes a); repeat split; reflexivity. }
  destruct Hs as (Hs & Hc & Ha & Ht).
  unfold smoothingFactor. rewrite Hs, Ha. cbn [snd fst]. split; [reflexivity|].
  destruct (adaptiveStroke a).
  - unfold approach. cbn zeta.
    destruct (Rlt_dec _ _); [cbn; rewrite Hc; repeat split|].
    destruct (Rlt_dec _ _); cbn; rewrite Hc; repeat split.
  - cbn. rewrite Hc. repeat split. exact Ht.
Qed.

(** X1: the point that [draw] returns lies at [|1 - factor|] times the raw
    distance from the previous point, and with adaptive stroke enabled this
    shortened distance is what the new target thickness is computed
    from. *)
Theorem draw_smoothed_distance now px py prevX prevY a :
  let rawDist := lineDistance px py prevX prevY in
  let factor := smoothingFactor K a px py prevX prevY in
  let a' := fst (draw K now px py prevX prevY a) in
  let new := snd (draw K now px py prevX prevY a) in
  lineDistance (x new) (y new) prevX prevY = Rabs (1 - factor) * rawDist /\
  (adaptiveStroke a = true ->
   _targetThickness a'
   = (Rabs (1 - factor) * rawDist - minLineThickness K) / lineThicknessRange K
     * (_maxWeight a - _weight a) + _weight a).
Proof.
  cbn zeta. split.
  - destruct (draw_returns now px py prevX prevY a) as (Hret & _).
    cbn zeta in Hret. rewrite Hret. cbn [x y].
    apply lineDistance_scaled.
  - intros Had.
    destruct (draw_thickness K now px py prevX prevY a Had) as [Htg _].
    cbn zeta in Htg. rewrite Htg. unfold targetOf. cbn zeta.
    now rewrite lineDistance_scaled.
Qed.

(** What [draw] does with adaptive stroke disabled. *)
Lemma draw_not_adaptive now px py prevX prevY a :
  adaptiveStroke a = false ->
  let a' := fst (draw K now px py prevX prevY a) in
  _thickness a' = _thickness a /\ _targetThickness a' = _targetThickness a /\
  lineWidth (context a') = _weight a.
Proof.
  intros Had. unfold draw. cbn zeta.
  set (a1 := if recordStrokes a then remember now px py a else a).
  assert (H1 : adaptiveStroke a1 = adaptiveStroke a /\ _thickness a1 = _thickness a /\
               _targetThickness a1 = _targetThickness a /\ _weight a1 = _weight a).
  { subst a1. destruct (recordStrokes a); cbn; repeat split. }
  destruct H1 as (Ha & Ht & Htg & Hw). rewrite Ha, Had. cbn.
  repeat split; assumption.
Qed.

(** X2: with adaptive stroke disabled no run of [draw] calls touches
    [_thickness] or [_targetThickness], and after every call the line
    width of the context is the weight. *)
Theorem fixed_width_without_adaptive_stroke calls : forall a,
  adaptiveStroke a = false ->
  let a' := drawAll K calls a in
  _thickness a' = _thickness a /\
  _targetThickness a' = _targetThickness a /\
  _weight a' = _weight a /\
  (calls <> [] -> lineWidth (context a') = _weight a).
Proof.
  induction calls as [|[[[[now px] py] qx] qy] calls IH] using rev_ind; intros a Had.
  - cbn. repeat split; intros; congruence.
  - cbn zeta. unfold drawAll. rewrite fold_left_app. cbn [fold_left].
    fold (drawAll K calls a).
    destruct (IH a Had) as (Ht & Htg & Hw & _). cbn zeta in Ht, Htg, Hw.
    set (b := drawAll K calls a) in *.
    assert (Hb : adaptiveStroke b = false).
    { subst b. clear - Had. revert a Had.
      induction calls as [|[[[[n1 p1] p2] q1] q2] calls IHc]; intros a Had; [exact Had|].
      cbn [drawAll fold_left]. apply IHc.
      destruct (draw_fields K n1 p1 p2 q1 q2 a) as (_ & _ & _ & Ha & _).
      cbn zeta in Ha. congruence. }
    destruct (draw_not_adaptive now px py qx qy b Hb) as (Ht' & Htg' & Hlw).
    destruct (draw_fields K now px py qx qy b) as (Hw' & _).
    cbn zeta in Ht', Htg', Hlw, Hw'.
    repeat split; intros; congruence.
Qed.

(** One call moves the thickness towards its target, or keeps it within
    one increment of it. *)
Lemma approach_gap now px py qx qy a :
  adaptiveStroke a = true ->
  0 < thicknessIncrement K ->
  let T := targetOf K px py qx qy a in
  let a' := fst (draw K now px py qx qy a) in
  Rabs (_thickness a' - T)
  <= Rmax (thicknessIncrement K) (Rabs (_thickness a - T) - thicknessIncrement K).
Proof.
  intros Had Hinc. cbn zeta.
  destruct (draw_thickness K now px py qx qy a Had) as [_ Hth].
  cbn zeta in Hth. rewrite Hth.
  set (T := targetOf K px py qx qy a). set (t := _thickness a).
  set (inc := thicknessIncrement K) in *.
  destruct (Rlt_dec T t) as [H1|H1]; [|destruct (Rlt_dec t T) as [H2|H2]].
  - unfold Rmax. destruct (Rle_dec _ _); unfold Rabs in *;
      repeat destruct (Rcase_abs _); lra.
  - unfold Rmax. destruct (Rle_dec _ _); unfold Rabs in *;
      repeat destruct (Rcase_abs _); lra.
  - unfold Rmax. destruct (Rle_dec _ _); unfold Rabs in *;
      repeat destruct (Rcase_abs _); lra.
Qed.

(** X3: when the same call is repeated, its target stays the same and the
    thickness closes in on it by one increment per call until it is within
    one increment, where it stays: after [n] calls the gap is at most the
    larger of one increment and the first gap less [n] increments. *)
Theorem thickness_converges now px py qx qy (n : nat) : forall a,
  adaptiveStroke a = true ->
  0 < thicknessIncrement K ->
  let T := targetOf K px py qx qy a in
  let a' := drawAll K (repeat (now, px, py, qx, qy) n) a in
  targetOf K px py qx qy a' = T /\
  Rabs (_thickness a' - T)
  <= Rmax (thicknessIncrement K)
          (Rabs (_thickness a - T) - INR n * thicknessIncrement K) /\
  (Rabs (_thickness a - T) <= INR n * thicknessIncrement K ->
   Rabs (_thickness a' - T) <= thicknessIncrement K).
Proof.
  induction n as [|n IH]; intros a Had Hinc; cbn zeta.
  - cbn [repeat drawAll fold_left INR]. split; [reflexivity|].
    rewrite Rmult_0_l, Rminus_0_r. split; [apply Rmax_r|].
    intros H0. pose proof (Rabs_pos (_thickness a - targetOf K px py qx qy a)). lra.
  - cbn [repeat drawAll fold_left].
    change (fold_left _ (repeat (now, px, py, qx, qy) n) ?b)
      with (drawAll K (repeat (now, px, py, qx, qy) n) b).
    set (a1 := fst (draw K now px py qx qy a)).
    destruct (draw_fields K now px py qx qy a) as (Hw & Hm & Hsm & Ha & _).
    cbn zeta in Hw, Hm, Hsm, Ha. fold a1 in Hw, Hm, Hsm, Ha.
    pose proof (approach_gap now px py qx qy a Had Hinc) as Hgap.
    cbn zeta in Hgap. fold a1 in Hgap.
    assert (HT : targetOf K px py qx qy a1 = targetOf K px py qx qy a)
      by (apply targetOf_ext; assumption).
    destruct (IH a1) as (HT' & Hn & _); [congruence|exact Hinc|].
    cbn zeta in HT', Hn. rewrite HT in HT', Hn.
    set (T := targetOf K px py qx qy a) in *.
    set (inc := thicknessIncrement K) in *.
    pose proof (pos_INR n) as Hpos.
    assert (Hprod : 0 <= INR n * inc) by (apply Rmult_le_pos; lra).
    rewrite S_INR.
    assert (Hmain : Rabs (_thickness (drawAll K (repeat (now, px, py, qx, qy) n) a1) - T)
                    <= Rmax inc (Rabs (_thickness a - T) - (INR n + 1) * inc)).
    { eapply Rle_trans; [exact Hn|].
      revert Hgap. unfold Rmax. repeat destruct (Rle_dec _ _); intros; lra. }
    split; [exact HT'|]. split; [exact Hmain|].
    intros Hclose. eapply Rle_trans; [exact Hmain|].
    unfold Rmax. destruct (Rle_dec _ _); lra.
Qed.

(** What a run of [draw] calls leaves of the object. *)
Lemma drawAll_fields calls : forall a,
  let a' := drawAll K calls a in
  _weight a' = _weight a /\ _maxWeight a' = _maxWeight a /\
  smoothing a' = smoothing a /\ adaptiveStroke a' = adaptiveStroke a /\
  recordStrokes a' = recordStrokes a /\
  strokeTimestamp a' = strokeTimestamp a /\ dispatched a' = dispatched a /\
  pointer a' = pointer a /\ _mode a' = _mode a /\ _dirty a' = _dirty a /\
  strokeStyle (context a') = strokeStyle (context a) /\
  strokeMemory a' =
    (if recordStrokes a
     then strokeMemory a ++ map (sampleOf (strokeTimestamp a)) calls
     else strokeMemory a).
Proof.
  induction calls as [|[[[[now px] py] qx] qy] calls IH]; intros a.
  - cbn. rewrite app_nil_r. destruct (recordStrokes a); repeat split.
  - cbn zeta. cbn [drawAll fold_left].
    change (fold_left _ calls ?b) with (drawAll K calls b).
    set (a1 := fst (draw K now px py qx qy a)).
    destruct (draw_fields K now px py qx qy a)
      as (Hw & Hm & Hs & Ha & Hr & Ht & Hd & Hp & Hmo & Hdi & Hmem).
    destruct (draw_returns now px py qx qy a) as (_ & _ & Hst & _).
    cbn zeta in Hw, Hm, Hs, Ha, Hr, Ht, Hd, Hp, Hmo, Hdi, Hmem, Hst.
    fold a1 in Hw, Hm, Hs, Ha, Hr, Ht, Hd, Hp, Hmo, Hdi, Hmem, Hst.
    destruct (IH a1) as (Hw' & Hm' & Hs' & Ha' & Hr' & Ht' & Hd' & Hp' & Hmo' & Hdi' & Hst' & Hmem').
    cbn zeta in Hw', Hm', Hs', Ha', Hr', Ht', Hd', Hp', Hmo', Hdi', Hst', Hmem'.
    repeat split; try congruence.
    rewrite Hmem', Hr, Ht, Hmem. unfold elapsed.
    destruct (recordStrokes a); [|reflexivity].
    rewrite <- app_assoc. reflexivity.
Qed.

Lemma beginStroke_fields t0 t1 px py a :
  let a' := beginStroke t0 t1 px py a in
  _weight a' = _weight a /\ smoothing a' = smoothing a /\
  adaptiveStroke a' = adaptiveStroke a /\ recordStrokes a' = recordStrokes a /\
  _mode a' = _mode a /\ _dirty a' = _dirty a /\ pointer a' = pointer a /\
  strokeStyle (context a') = strokeStyle (context a) /\
  globalCompositeOperation (context a') = globalCompositeOperation (context a) /\
  path (context a') = path (context a) ++ [BeginPath; MoveTo px py] /\
  dispatched a' = dispatched a ++ [strokestart px py] /\
  strokeTimestamp a' = (if recordStrokes a then Some t0 else strokeTimestamp a) /\
  strokeMemory a' =
    (if recordStrokes a
     then strokeMemory a ++ [ {| point := {| x := px; y := py |}; time := Some (t1 - t0) |} ]
     else strokeMemory a).
Proof.
  unfold beginStroke. cbn zeta. cbn [recordStrokes with_context].
  destruct (recordStrokes a) eqn:E; cbn; rewrite ?E; repeat split.
Qed.

Lemma endStroke_fields te px py a :
  let a' := endStroke te px py a in
  _mode a' = _mode a /\ _dirty a' = _dirty a /\ pointer a' = pointer a /\
  recordStrokes a' = recordStrokes a /\
  globalCompositeOperation (context a') = globalCompositeOperation (context a) /\
  path (context a') = path (context a) ++ [ClosePath] /\
  strokeMemory a' = [] /\ strokeTimestamp a' = None /\
  dispatched a'
  = dispatched a
    ++ strokeend px py
       :: (if recordStrokes a
           then [strokerecorded
                   {| points := strokeMemory a
                                ++ [ {| point := {| x := px; y := py |};
                                        time := elapsed te a |} ];
                      stroke_mode := _mode a;
                      stroke_weight := _weight a;
                      stroke_smoothing := smoothing a;
                      stroke_color := strokeStyle (context a);
                      stroke_adaptiveStroke := adaptiveStroke a |}]
           else []).
Proof.
  unfold endStroke. cbn zeta. cbn [recordStrokes with_context].
  destruct (recordStrokes a) eqn:E; cbn; rewrite ?E; cbn; rewrite ?E; cbn;
    repeat split; now rewrite <- app_assoc.
Qed.

(** X4: with recording enabled and no sample pending, a stroke of any
    number of [draw] calls is recorded whole: [endStroke] dispatches one
    'strokerecorded' event whose points are the start anchor, one entry per
    call in call order and the end anchor, each stamped with its clock
    reading less the reading taken at the start, together with the mode,
    weight, smoothing, colour and adaptive flag of the object; and the
    per-stroke buffers are empty again afterwards. *)
Theorem stroke_records_every_sample (t0 t1 te : R) (p0 pe : Point) calls a :
  recordStrokes a = true ->
  strokeMemory a = [] ->
  let a1 := beginStroke t0 t1 (x p0) (y p0) a in
  let a2 := drawAll K calls a1 in
  let a3 := endStroke te (x pe) (y pe) a2 in
  let stroke :=
    {| points := {| point := p0; time := Some (t1 - t0) |}
                 :: map (sampleOf (Some t0)) calls
                 ++ [ {| point := pe; time := Some (te - t0) |} ];
       stroke_mode := _mode a;
       stroke_weight := _weight a;
       stroke_smoothing := smoothing a;
       stroke_color := strokeStyle (context a);
       stroke_adaptiveStroke := adaptiveStroke a |} in
  dispatched a3
  = dispatched a ++ [strokestart (x p0) (y p0); strokeend (x pe) (y pe);
                     strokerecorded stroke] /\
  length (points stroke) = (length calls + 2)%nat /\
  strokeMemory a3 = [] /\
  strokeTimestamp a3 = None.
Proof.
  intros Hr Hm. cbn zeta.
  destruct (beginStroke_fields t0 t1 (x p0) (y p0) a)
    as (Hw1 & Hs1 & Ha1 & Hr1 & Hmo1 & _ & _ & Hst1 & _ & _ & Hd1 & Ht1 & Hm1).
  cbn zeta in Hw1, Hs1, Ha1, Hr1, Hmo1, Hst1, Hd1, Ht1, Hm1.
  set (a1 := beginStroke t0 t1 (x p0) (y p0) a) in *.
  rewrite Hr in Ht1, Hm1. rewrite Hm in Hm1. cbn [app] in Hm1.
  destruct (drawAll_fields calls a1)
    as (Hw2 & _ & Hs2 & Ha2 & Hr2 & Ht2 & Hd2 & _ & Hmo2 & _ & Hst2 & Hm2).
  cbn zeta in Hw2, Hs2, Ha2, Hr2, Ht2, Hd2, Hmo2, Hst2, Hm2.
  set (a2 := drawAll K calls a1) in *.
  rewrite Hr1, Hr in Hm2. rewrite Hm1, Ht1 in Hm2.
  destruct (endStroke_fields te (x pe) (y pe) a2)
    as (_ & _ & _ & _ & _ & _ & Hm3 & Ht3 & Hd3).
  cbn zeta in Hm3, Ht3, Hd3.
  split; [|split; [|split; assumption]].
  - rewrite Hd3, Hd2, Hd1, <- app_assoc. cbn [app].
    rewrite Hr2, Hr1, Hr. unfold elapsed. rewrite Ht2, Ht1, Hm2.
    rewrite Hmo2, Hmo1, Hw2, Hw1, Hs2, Hs1, Hst2, Hst1, Ha2, Ha1.
    destruct p0, pe. reflexivity.
  - cbn [points length]. rewrite length_app, length_map. cbn. lia.
Qed.

(** X5: with recording disabled a stroke leaves no trace in
    [strokeMemory] and dispatches 'strokestart' and 'strokeend' only,
    however many [draw] calls it has. *)
Theorem no_recording_when_disabled (t0 t1 te : R) (p0 pe : Point) calls a :
  recordStrokes a = false ->
  let a1 := beginStroke t0 t1 (x p0) (y p0) a in
  let a2 := drawAll K calls a1 in
  let a3 := endStroke te (x pe) (y pe) a2 in
  strokeMemory a2 = strokeMemory a /\
  strokeTimestamp a2 = strokeTimestamp a /\
  dispatched a3
  = dispatched a ++ [strokestart (x p0) (y p0); strokeend (x pe) (y pe)] /\
  strokeMemory a3 = [].
Proof.
  intros Hr. cbn zeta.
  destruct (beginStroke_fields t0 t1 (x p0) (y p0) a)
    as (_ & _ & _ & Hr1 & _ & _ & _ & _ & _ & _ & Hd1 & Ht1 & Hm1).
  cbn zeta in Hr1, Hd1, Ht1, Hm1.
  set (a1 := beginStroke t0 t1 (x p0) (y p0) a) in *.
  rewrite Hr in Ht1, Hm1.
  destruct (drawAll_fields calls a1)
    as (_ & _ & _ & _ & Hr2 & Ht2 & Hd2 & _ & _ & _ & _ & Hm2).
  cbn zeta in Hr2, Ht2, Hd2, Hm2.
  set (a2 := drawAll K calls a1) in *.
  rewrite Hr1, Hr in Hm2.
  destruct (endStroke_fields te (x pe) (y pe) a2)
    as (_ & _ & _ & _ & _ & _ & Hm3 & _ & Hd3).
  cbn zeta in Hm3, Hd3.
  repeat split; try congruence.
  rewrite Hd3, Hd2, Hd1, Hr2, Hr1, Hr, <- app_assoc. reflexivity.
Qed.

End WithConstants.

Lemma stroke_records_every_sample_witness :
  let a := with_recordStrokes true (construct sampleConstants "#000000") in
  let P := fun px py => {| x := px; y := py |} in
  recordStrokes a = true /\ strokeMemory a = [] /\
  strokeMemory
    (endStroke 9 (x (P 4 4)) (y (P 4 4))
       (drawAll sampleConstants [(2, 1, 1, 0, 0); (3, 2, 2, 1, 1)]
          (beginStroke 0 1 (x (P 0 0)) (y (P 0 0)) a))) = [].
Proof.
  cbn zeta. split; [reflexivity|]. split; [reflexivity|].
  apply (stroke_records_every_sample sampleConstants 0 1 9
           {| x := 0; y := 0 |} {| x := 4; y := 4 |} [(2, 1, 1, 0, 0); (3, 2, 2, 1, 1)]
           (with_recordStrokes true (construct sampleConstants "#000000")));
    reflexivity.
Defined.

Lemma no_recording_when_disabled_witness :
  let a := construct sampleConstants "#000000" in
  let P := fun px py => {| x := px; y := py |} in
  recordStrokes a = false /\
  dispatched
    (endStroke 9 (x (P 4 4)) (y (P 4 4))
       (drawAll sampleConstants [(2, 1, 1, 0, 0)]
          (beginStroke 0 1 (x (P 0 0)) (y (P 0 0)) a)))
  = dispatched a ++ [strokestart (x (P 0 0)) (y (P 0 0)); strokeend (x (P 4 4)) (y (P 4 4))].
Proof.
  cbn zeta. split; [reflexivity|].
  apply (no_recording_when_disabled sampleConstants 0 1 9
           {| x := 0; y := 0 |} {| x := 4; y := 4 |} [(2, 1, 1, 0, 0)]
           (construct sampleConstants "#000000")). reflexivity.
Defined.

Lemma draw_smoothed_distance_witness :
  let a := construct sampleConstants "#000000" in
  adaptiveStroke a = true /\
  _targetThickness (fst (draw sampleConstants 0 3000 0 0 0 a))
  = (Rabs (1 - smoothingFactor sampleConstants a 3000 0 0 0) * lineDistance 3000 0 0 0
     - minLineThickness sampleConstants) / lineThicknessRange sampleConstants
    * (_maxWeight a - _weight a) + _weight a.
Proof.
  cbn zeta. split; [reflexivity|].
  apply (draw_smoothed_distance sampleConstants 0 3000 0 0 0
           (construct sampleConstants "#000000")). reflexivity.
Defined.

Lemma fixed_width_without_adaptive_stroke_witness :
  let a := with_adaptiveStroke false (construct sampleConstants "#000000") in
  adaptiveStroke a = false /\
  _thickness (drawAll sampleConstants [farCall; farCall] a) = _thickness a.
Proof.
  cbn zeta. split; [reflexivity|].
  apply (fixed_width_without_adaptive_stroke sampleConstants [farCall; farCall]).
  reflexivity.
Defined.

Lemma thickness_converges_witness :
  let a := construct sampleConstants "#000000" in
  adaptiveStroke a = true /\
  0 < thicknessIncrement sampleConstants /\
  targetOf sampleConstants 3000 0 0 0
           (drawAll sampleConstants (repeat (0, 3000, 0, 0, 0) 4) a)
  = targetOf sampleConstants 3000 0 0 0 a.
Proof.
  cbn zeta. split; [reflexivity|]. split; [cbn; lra|].
  apply (thickness_converges sampleConstants 0 3000 0 0 0 4
           (construct sampleConstants "#000000")); [reflexivity|cbn; lra].
Defined.

End StrokeMore.

(** ** Properties of the pointer handlers and the setters *)

Module HandlerFacts.

Import Stroke StrokeFacts StrokeMore Handlers.
Local Open Scope R_scope.

Lemma sameNumber_refl r : sameNumber r r = true.
Proof. unfold sameNumber. destruct (Req_dec_T r r); [reflexivity|contradiction]. Qed.

Lemma path_mode_cases m :
  includes PathDrawingModes m = true -> m = DRAW \/ m = ERASE.
Proof.
  unfold includes, PathDrawingModes. cbn [existsb].
  destruct (String.eqb_spec m DRAW); [now left|].
  destruct (String.eqb_spec m ERASE); [now right|]. discriminate.
Qed.

Section WithConstants.

Variable K : Constants.
Variable picker : Atrament -> Atrament.
Variable fill : Atrament -> Atrament.

(** The object after the [pointermove] handler. *)
Lemma pointerMove_fields t ox oy a :
  let drawing := down (pointer a) && includes PathDrawingModes (_mode a) in
  let prev := previous (pointer a) in
  let new := snd (draw K t ox oy (x prev) (y prev) a) in
  let marks := drawing && negb (_dirty a) && String.eqb (_mode a) DRAW
               && negb (sameNumber ox (x (pos (pointer a)))
                        && sameNumber oy (y (pos (pointer a)))) in
  let a' := pointerMove K t ox oy a in
  _mode a' = _mode a /\
  globalCompositeOperation (context a') = globalCompositeOperation (context a) /\
  pos (pointer a') = {| x := ox; y := oy |} /\
  down (pointer a') = down (pointer a) /\
  previous (pointer a') = (if drawing then new else prev) /\
  path (context a')
  = path (context a)
    ++ (if drawing then [QuadraticCurveTo (x prev) (y prev) (x new) (y new); StrokePath]
        else []) /\
  dispatched a' = dispatched a ++ (if marks then [dirty] else []) /\
  _dirty a' = _dirty a || marks.
Proof.
  cbn zeta. unfold pointerMove.
  destruct (down (pointer a) && includes PathDrawingModes (_mode a)) eqn:Hdr.
  - destruct (draw_fields K t ox oy (x (previous (pointer a))) (y (previous (pointer a))) a)
      as (_ & _ & _ & _ & _ & _ & Hd & Hp & Hmo & Hdi & _).
    destruct (draw_returns K t ox oy (x (previous (pointer a))) (y (previous (pointer a))) a)
      as (Hret & Hpath & _ & Hcomp & _).
    cbn zeta in Hd, Hp, Hmo, Hdi, Hret, Hpath, Hcomp.
    destruct (draw K t ox oy (x (previous (pointer a))) (y (previous (pointer a))) a)
      as [a1 new] eqn:E.
    cbn [fst snd] in *. subst new. cbv beta iota zeta.
    rewrite Hmo, Hdi, Hp. unfold sameNumber.
    set (f := smoothingFactor K a ox oy _ _) in *.
    destruct (negb (_dirty a) && (_mode a =? DRAW)%string
              && negb (if Req_dec_T ox (x (pos (pointer a)))
                       then if Req_dec_T oy (y (pos (pointer a))) then true else false
                       else false)) eqn:Hmark.
    + assert (Hm2 : true && negb (_dirty a) && (_mode a =? DRAW)%string
                    && negb ((if Req_dec_T ox (x (pos (pointer a))) then true else false)
                             && (if Req_dec_T oy (y (pos (pointer a))) then true else false))
                    = true).
      { revert Hmark. destruct (Req_dec_T ox _), (Req_dec_T oy _); cbn; auto. }
      rewrite Hm2. cbn. rewrite ?Hmo, ?Hcomp, ?Hpath, ?Hd, ?Hp.
      repeat split. revert Hmark. destruct (_dirty a); cbn; [discriminate|reflexivity].
    + assert (Hm2 : true && negb (_dirty a) && (_mode a =? DRAW)%string
                    && negb ((if Req_dec_T ox (x (pos (pointer a))) then true else false)
                             && (if Req_dec_T oy (y (pos (pointer a))) then true else false))
                    = false).
      { revert Hmark. destruct (Req_dec_T ox _), (Req_dec_T oy _); cbn; auto. }
      rewrite Hm2. cbn. rewrite ?Hmo, ?Hcomp, ?Hpath, ?Hd, ?Hp, ?Hdi, ?app_nil_r, ?orb_false_r.
      repeat split.
  - cbn. rewrite !app_nil_r, orb_false_r. repeat split.
Qed.

(** The object after the [pointerdown] handler in the modes that begin
    a stroke. *)
Lemma pointerDown_fields tm t0 t1 ox oy a :
  _mode a <> PICKER -> _mode a <> FILL ->
  let moved := pointerMove K tm ox oy a in
  let a' := pointerDown K picker fill tm t0 t1 ox oy a in
  _mode a' = _mode a /\
  globalCompositeOperation (context a') = globalCompositeOperation (context a) /\
  pos (pointer a') = {| x := ox; y := oy |} /\
  down (pointer a') = true /\
  previous (pointer a') = {| x := ox; y := oy |} /\
  path (context a') = path (context moved) ++ [BeginPath; MoveTo ox oy] /\
  dispatched a' = dispatched moved ++ [strokestart ox oy] /\
  _dirty a' = _dirty moved.
Proof.
  intros Hp Hf. cbn zeta. unfold pointerDown.
  destruct (pointerMove_fields tm ox oy a) as (Hmo & Hcomp & Hpos & _).
  cbn zeta in Hmo, Hcomp, Hpos.
  set (am := pointerMove K tm ox oy a) in *.
  rewrite Hmo.
  destruct (String.eqb_spec (_mode a) PICKER); [contradiction|].
  destruct (String.eqb_spec (_mode a) FILL); [contradiction|].
  cbn zeta.
  match goal with |- context [beginStroke t0 t1 ?px ?py ?b] =>
    destruct (beginStroke_fields t0 t1 px py b)
      as (_ & _ & _ & _ & Hmo' & Hdi' & Hp' & _ & Hcomp' & Hpath' & Hd' & _);
    cbn zeta in Hmo', Hdi', Hp', Hcomp', Hpath', Hd';
    rewrite Hmo', Hdi', Hp', Hcomp', Hpath', Hd' end.
  cbn. rewrite Hpos. cbn. repeat split; assumption.
Qed.

(** The object after the [pointerup] handler when it ends a stroke. *)
Lemma pointerUp_fields td te ox oy a :
  _mode a <> FILL -> down (pointer a) = true ->
  let dot := sameNumber (x (pos (pointer a))) ox && sameNumber (y (pos (pointer a))) oy
             && includes PathDrawingModes (_mode a) in
  let prev := previous (pointer a) in
  let new := snd (draw K td (x (pos (pointer a))) (y (pos (pointer a))) (x prev) (y prev) a) in
  let a' := pointerUp K td te ox oy a in
  _mode a' = _mode a /\
  globalCompositeOperation (context a') = globalCompositeOperation (context a) /\
  pos (pointer a') = pos (pointer a) /\
  down (pointer a') = false /\
  previous (pointer a') = (if dot then new else prev) /\
  path (context a')
  = path (context a)
    ++ (if dot then [QuadraticCurveTo (x prev) (y prev) (x new) (y new); StrokePath]
        else [])
    ++ [ClosePath] /\
  (exists evs, dispatched a' = dispatched a ++ evs /\ List.filter isDirtyEvent evs = [] /\
               In (strokeend (x (pos (pointer a))) (y (pos (pointer a)))) evs) /\
  _dirty a' = _dirty a.
Proof.
  intros Hf Hdown. cbn zeta. unfold pointerUp.
  destruct (String.eqb_spec (_mode a) FILL); [contradiction|].
  rewrite Hdown. cbn [negb]. cbv zeta.
  remember (with_pointer (Pointer_set_down false (pointer a)) a) as a0 eqn:Ea0.
  assert (H0 : pos (pointer a0) = pos (pointer a) /\
               previous (pointer a0) = previous (pointer a) /\
               down (pointer a0) = false /\
               _mode a0 = _mode a /\ context a0 = context a /\
               dispatched a0 = dispatched a /\ _dirty a0 = _dirty a /\
               smoothing a0 = smoothing a).
  { subst a0. repeat split. }
  clear Ea0. destruct H0 as (Hpos0 & Hprev0 & Hdown0 & Hmo0 & Hctx0 & Hd0 & Hdi0 & Hs0).
  rewrite Hpos0, Hprev0, Hmo0.
  destruct (sameNumber (x (pos (pointer a))) ox && sameNumber (y (pos (pointer a))) oy
            && includes PathDrawingModes (_mode a)) eqn:Hdot.
  - destruct (draw_fields K td (x (pos (pointer a))) (y (pos (pointer a)))
                (x (previous (pointer a))) (y (previous (pointer a))) a0)
      as (_ & _ & _ & _ & _ & _ & Hd & Hp & Hmo & Hdi & _).
    destruct (draw_returns K td (x (pos (pointer a))) (y (pos (pointer a)))
                (x (previous (pointer a))) (y (previous (pointer a))) a0)
      as (Hret & Hpath & _ & Hcomp & _).
    destruct (draw_returns K td (x (pos (pointer a))) (y (pos (pointer a)))
                (x (previous (pointer a))) (y (previous (pointer a))) a)
      as (Hret' & _).
    cbn zeta in Hd, Hp, Hmo, Hdi, Hret, Hpath, Hcomp, Hret'.
    assert (Hsame : snd (draw K td (x (pos (pointer a))) (y (pos (pointer a)))
                           (x (previous (pointer a))) (y (previous (pointer a))) a)
                    = snd (draw K td (x (pos (pointer a))) (y (pos (pointer a)))
                             (x (previous (pointer a))) (y (previous (pointer a))) a0)).
    { rewrite Hret, Hret'. unfold smoothingFactor. now rewrite Hs0. }
    rewrite Hsame. clear Hsame Hret'.
    destruct (draw K td (x (pos (pointer a))) (y (pos (pointer a)))
                (x (previous (pointer a))) (y (previous (pointer a))) a0)
      as [a1 new].
    cbn [fst snd] in *. rewrite <- Hret in Hpath. clear Hret.
    remember (with_pointer (Pointer_previous_set (x new) (y new) (pointer a1)) a1)
      as a2 eqn:Ea2.
    assert (H2 : pos (pointer a2) = pos (pointer a) /\
                 previous (pointer a2) = new /\
                 down (pointer a2) = false /\
                 _mode a2 = _mode a /\
                 globalCompositeOperation (context a2)
                 = globalCompositeOperation (context a) /\
                 path (context a2)
                 = path (context a)
                   ++ [QuadraticCurveTo (x (previous (pointer a))) (y (previous (pointer a)))
                                        (x new) (y new); StrokePath] /\
                 dispatched a2 = dispatched a /\ _dirty a2 = _dirty a).
    { subst a2. cbn. rewrite Hp, Hpos0, Hdown0, Hmo, Hmo0, Hcomp, Hpath, Hd, Hdi,
        Hctx0, Hd0, Hdi0. destruct new. repeat split. }
    clear Ea2. destruct H2 as (Hpos2 & Hprev2 & Hdown2 & Hmo2 & Hcomp2 & Hpath2 & Hd2 & Hdi2).
    destruct (endStroke_fields te (x (pos (pointer a2))) (y (pos (pointer a2))) a2)
      as (Hmo' & Hdi' & Hp' & _ & Hcomp' & Hpath' & _ & _ & Hd').
    cbn zeta in Hmo', Hdi', Hp', Hcomp', Hpath', Hd'.
    rewrite Hmo', Hdi', Hp', Hcomp', Hpath', Hd'.
    rewrite Hpos2, Hprev2, Hdown2, Hmo2, Hcomp2, Hpath2, Hd2, Hdi2, <- app_assoc.
    repeat split.
    eexists. split; [reflexivity|]. split.
    + destruct (recordStrokes _); reflexivity.
    + now left.
  - destruct (endStroke_fields te (x (pos (pointer a0))) (y (pos (pointer a0))) a0)
      as (Hmo' & Hdi' & Hp' & _ & Hcomp' & Hpath' & _ & _ & Hd').
    cbn zeta in Hmo', Hdi', Hp', Hcomp', Hpath', Hd'.
    rewrite Hpos0 in *.
    rewrite Hmo', Hdi', Hp', Hcomp', Hpath', Hd'.
    rewrite Hpos0, Hprev0, Hdown0, Hmo0, Hctx0, Hd0, Hdi0.
    repeat split.
    eexists. split; [reflexivity|]. split.
    + destruct (recordStrokes _); reflexivity.
    + now left.
Qed.

Lemma pointerUp_idle td te ox oy a :
  _mode a = FILL \/ down (pointer a) = false ->
  pointerUp K td te ox oy a = a.
Proof.
  intros [Hm|Hd]; unfold pointerUp.
  - rewrite Hm. reflexivity.
  - rewrite Hd. cbn. now destruct (String.eqb _ _).
Qed.

Lemma chained_app p l1 l2 :
  chained p (l1 ++ l2) <-> chained p l1 /\ chained (chainEnd p l1) l2.
Proof.
  revert p. induction l1 as [|op l1 IH]; intros p; cbn [app chained chainEnd].
  - tauto.
  - destruct op; rewrite ?IH; tauto.
Qed.

Lemma chainEnd_app p l1 l2 :
  chainEnd p (l1 ++ l2) = chainEnd (chainEnd p l1) l2.
Proof.
  revert p. induction l1 as [|op l1 IH]; intros p; cbn [app chainEnd];
    [reflexivity|destruct op; apply IH].
Qed.

Lemma handleAll_snoc events e a :
  handleAll K picker fill (events ++ [e]) a
  = handle K picker fill (handleAll K picker fill events a) e.
Proof. unfold handleAll. now rewrite fold_left_app. Qed.

Lemma path_mode_not_buffer_mode m :
  includes PathDrawingModes m = true -> m <> PICKER /\ m <> FILL.
Proof. intros [->| ->]%path_mode_cases; split; discriminate. Qed.

(** One handler, in a path-drawing mode: the mode stays, and the path
    grows by commands that continue the chain. *)
Lemma handle_chain e a p0 pre :
  includes PathDrawingModes (_mode a) = true ->
  chained p0 pre ->
  (down (pointer a) = true -> chainEnd p0 pre = previous (pointer a)) ->
  let a' := handle K picker fill a e in
  _mode a' = _mode a /\
  exists ops,
    path (context a') = path (context a) ++ ops /\
    chained p0 (pre ++ ops) /\
    (down (pointer a') = true -> chainEnd p0 (pre ++ ops) = previous (pointer a')).
Proof.
  intros Hmode Hch Hend. cbn zeta.
  destruct (path_mode_not_buffer_mode _ Hmode) as [Hnp Hnf].
  assert (Hmove : forall t ox oy,
    let am := pointerMove K t ox oy a in
    _mode am = _mode a /\
    exists ops,
      path (context am) = path (context a) ++ ops /\
      chained p0 (pre ++ ops) /\
      chainEnd p0 (pre ++ ops)
      = (if down (pointer a) then previous (pointer am) else chainEnd p0 pre) /\
      down (pointer am) = down (pointer a)).
  { intros t ox oy. cbn zeta.
    destruct (pointerMove_fields t ox oy a) as (Hmo & _ & _ & Hdn & Hprev & Hpath & _).
    cbn zeta in Hmo, Hdn, Hprev, Hpath. rewrite Hmode, andb_true_r in Hprev, Hpath.
    split; [exact Hmo|]. eexists. split; [exact Hpath|].
    destruct (down (pointer a)) eqn:Hd.
    - rewrite chained_app, chainEnd_app. cbn [chained chainEnd].
      rewrite (Hend eq_refl), Hprev.
      destruct (snd (draw K t ox oy _ _ a)); cbn [x y]. repeat split; auto.
    - rewrite app_nil_r. repeat split; auto. }
  destruct e as [t ox oy|tm t0 t1 ox oy|td te ox oy]; cbn [handle].
  - destruct (Hmove t ox oy) as (Hmo & ops & Hpath & Hc & He & Hdn).
    cbn zeta in Hmo, Hpath, Hc, He, Hdn.
    split; [exact Hmo|]. exists ops. split; [exact Hpath|]. split; [exact Hc|].
    intros Hd. rewrite Hdn in Hd. now rewrite He, Hd.
  - destruct (pointerDown_fields tm t0 t1 ox oy a Hnp Hnf)
      as (Hmo & _ & _ & Hdn & Hprev & Hpath & _).
    destruct (Hmove tm ox oy) as (_ & ops & Hpm & Hc & _).
    cbn zeta in Hmo, Hdn, Hprev, Hpath, Hpm, Hc.
    split; [exact Hmo|]. exists (ops ++ [BeginPath; MoveTo ox oy]).
    rewrite Hpath, Hpm, <- app_assoc. split; [reflexivity|].
    rewrite !app_assoc, chained_app, chainEnd_app. cbn [chained chainEnd].
    rewrite Hprev. repeat split; auto.
    intros _. rewrite chainEnd_app. reflexivity.
  - destruct (down (pointer a)) eqn:Hd.
    + assert (Hnf' : _mode a <> FILL) by exact Hnf.
      destruct (pointerUp_fields td te ox oy a Hnf' Hd)
        as (Hmo & _ & _ & Hdn & _ & Hpath & _).
      cbn zeta in Hmo, Hdn, Hpath.
      split; [exact Hmo|]. eexists. split; [exact Hpath|].
      rewrite Hdn. split; [|discriminate].
      rewrite chained_app. split; [exact Hch|].
      rewrite (Hend eq_refl).
      destruct (_ && _ && _); cbn [app chained]; auto.
    + rewrite pointerUp_idle by now right.
      split; [reflexivity|]. exists []. rewrite !app_nil_r.
      repeat split; auto. rewrite Hd. discriminate.
Qed.

(** One handler, in a path-drawing mode: 'dirty' is dispatched only
    together with the first setting of [_dirty], in draw mode. *)
Lemma handle_dirty e a :
  includes PathDrawingModes (_mode a) = true ->
  let a' := handle K picker fill a e in
  (_dirty a' = _dirty a /\ dirtyCount a' = dirtyCount a) \/
  (_dirty a = false /\ _mode a = DRAW /\ _dirty a' = true /\
   dirtyCount a' = S (dirtyCount a)).
Proof.
  intros Hmode. cbn zeta.
  destruct (path_mode_not_buffer_mode _ Hmode) as [Hnp Hnf].
  assert (Hmove : forall t ox oy,
    let am := pointerMove K t ox oy a in
    (_dirty am = _dirty a /\ dirtyCount am = dirtyCount a) \/
    (_dirty a = false /\ _mode a = DRAW /\ _dirty am = true /\
     dirtyCount am = S (dirtyCount a))).
  { intros t ox oy. cbn zeta.
    destruct (pointerMove_fields t ox oy a) as (_ & _ & _ & _ & _ & _ & Hd & Hdi).
    cbn zeta in Hd, Hdi. unfold dirtyCount. rewrite Hd, Hdi, List.filter_app, List.length_app.
    destruct (down (pointer a) && includes PathDrawingModes (_mode a)
              && negb (_dirty a) && (_mode a =? DRAW)%string
              && negb (sameNumber ox (x (pos (pointer a)))
                       && sameNumber oy (y (pos (pointer a))))) eqn:Hmark.
    - right. apply andb_prop in Hmark as [Hmark _].
      apply andb_prop in Hmark as [Hmark Hdraw].
      apply andb_prop in Hmark as [_ Hnd].
      apply String.eqb_eq in Hdraw. apply negb_true_iff in Hnd.
      rewrite Hnd. cbn. repeat split; auto. lia.
    - left. rewrite orb_false_r. cbn. split; [reflexivity|lia]. }
  destruct e as [t ox oy|tm t0 t1 ox oy|td te ox oy]; cbn [handle].
  - apply Hmove.
  - destruct (pointerDown_fields tm t0 t1 ox oy a Hnp Hnf)
      as (_ & _ & _ & _ & _ & _ & Hd & Hdi).
    cbn zeta in Hd, Hdi.
    assert (Hdc : dirtyCount (pointerDown K picker fill tm t0 t1 ox oy a)
                  = dirtyCount (pointerMove K tm ox oy a)).
    { unfold dirtyCount. rewrite Hd, List.filter_app, List.length_app. cbn. lia. }
    rewrite Hdc, Hdi. apply Hmove.
  - destruct (down (pointer a)) eqn:Hdn.
    + destruct (pointerUp_fields td te ox oy a Hnf Hdn)
        as (_ & _ & _ & _ & _ & _ & (evs & Hd & Hfil & _) & Hdi).
      cbn zeta in Hd, Hdi. left. split; [exact Hdi|].
      unfold dirtyCount. rewrite Hd, List.filter_app, Hfil, app_nil_r. reflexivity.
    + rewrite pointerUp_idle by now right. left. split; reflexivity.
Qed.

(** X6: a tap, that is [pointerdown] and [pointerup] at the same position
    with the pointer up before, in draw or erase mode, strokes a dot: the
    path gets a move to the position and one degenerate curve segment that
    starts, bends and ends there, and is closed.  The tap does not mark
    the canvas dirty. *)
Theorem tap_strokes_a_dot tm t0 t1 td te ox oy a :
  down (pointer a) = false ->
  includes PathDrawingModes (_mode a) = true ->
  let a' := pointerUp K td te ox oy (pointerDown K picker fill tm t0 t1 ox oy a) in
  path (context a')
  = path (context a)
    ++ [BeginPath; MoveTo ox oy; QuadraticCurveTo ox oy ox oy; StrokePath; ClosePath] /\
  down (pointer a') = false /\
  pos (pointer a') = {| x := ox; y := oy |} /\
  previous (pointer a') = {| x := ox; y := oy |} /\
  _dirty a' = _dirty a /\
  dirtyCount a' = dirtyCount a.
Proof.
  intros Hup Hmode. cbn zeta.
  destruct (path_mode_not_buffer_mode _ Hmode) as [Hnp Hnf].
  destruct (pointerMove_fields tm ox oy a) as (_ & _ & _ & _ & _ & Hpm & Hdm & Hdim).
  cbn zeta in Hpm, Hdm, Hdim. rewrite Hup in Hpm, Hdm, Hdim. cbn [andb] in Hpm, Hdm, Hdim.
  rewrite app_nil_r in Hpm, Hdm. rewrite orb_false_r in Hdim.
  destruct (pointerDown_fields tm t0 t1 ox oy a Hnp Hnf)
    as (Hmo & _ & Hpos & Hdn & Hprev & Hpath & Hd & Hdi).
  cbn zeta in Hmo, Hpos, Hdn, Hprev, Hpath, Hd, Hdi.
  set (a1 := pointerDown K picker fill tm t0 t1 ox oy a) in *.
  assert (Hnf1 : _mode a1 <> FILL) by (rewrite Hmo; exact Hnf).
  destruct (pointerUp_fields td te ox oy a1 Hnf1 Hdn)
    as (_ & _ & Hpos' & Hdn' & Hprev' & Hpath' & (evs & Hd' & Hfil & _) & Hdi').
  cbn zeta in Hpos', Hdn', Hprev', Hpath', Hd', Hdi'.
  rewrite Hpos, Hprev, Hmo, Hmode in Hprev', Hpath'. cbn [x y] in Hprev', Hpath'.
  rewrite !sameNumber_refl in Hprev', Hpath'. cbn [andb] in Hprev', Hpath'.
  destruct (draw_returns K td ox oy ox oy a1) as (Hret & _).
  cbn zeta in Hret. rewrite Hret in Hprev', Hpath'. cbn [x y] in Hpath'.
  replace (ox - (ox - ox) * smoothingFactor K a1 ox oy ox oy) with ox in * by ring.
  replace (oy - (oy - oy) * smoothingFactor K a1 ox oy ox oy) with oy in * by ring.
  rewrite Hpath', Hpath, Hpm, <- app_assoc. cbn [app].
  repeat split; try congruence.
  unfold dirtyCount. rewrite Hd', Hd, Hdm, !List.filter_app, Hfil. cbn.
  now rewrite !app_nil_r.
Qed.

(** X7: in disabled mode no sequence of pointer events strokes anything:
    the path gets no curve segment and no stroke command, the canvas is
    not marked dirty, and the mode stays disabled.  (The stroke events are
    dispatched all the same.) *)
Theorem disabled_mode_strokes_nothing events : forall a,
  _mode a = DISABLED ->
  let a' := handleAll K picker fill events a in
  _mode a' = DISABLED /\
  List.filter isStroking (path (context a')) = List.filter isStroking (path (context a)) /\
  _dirty a' = _dirty a /\
  dirtyCount a' = dirtyCount a.
Proof.
  induction events as [|e events IH] using rev_ind; intros a Hmode; cbn zeta.
  - cbn. repeat split; assumption.
  - rewrite handleAll_snoc.
    destruct (IH a Hmode) as (Hmo & Hpath & Hdi & Hdc). cbn zeta in Hmo, Hpath, Hdi, Hdc.
    set (b := handleAll K picker fill events a) in *.
    rewrite <- Hpath, <- Hdi, <- Hdc. clear Hpath Hdi Hdc IH.
    assert (Hmove : forall t ox oy,
      let bm := pointerMove K t ox oy b in
      _mode bm = DISABLED /\ path (context bm) = path (context b) /\
      _dirty bm = _dirty b /\ dispatched bm = dispatched b).
    { intros t ox oy. cbn zeta.
      destruct (pointerMove_fields t ox oy b) as (Hm & _ & _ & _ & _ & Hp & Hd & Hdi).
      cbn zeta in Hm, Hp, Hd, Hdi. rewrite Hmo in Hm, Hp, Hd, Hdi.
      cbn in Hp, Hd, Hdi. rewrite andb_false_r in Hp, Hd, Hdi. cbn in Hp, Hd, Hdi.
      rewrite app_nil_r in Hp, Hd. rewrite orb_false_r in Hdi. auto. }
    destruct e as [t ox oy|tm t0 t1 ox oy|td te ox oy]; cbn [handle].
    + destruct (Hmove t ox oy) as (Hm & Hp & Hdi & Hd). cbn zeta in Hm, Hp, Hdi, Hd.
      unfold dirtyCount. rewrite Hp, Hd. repeat split; assumption.
    + destruct (pointerDown_fields tm t0 t1 ox oy b) as (Hm & _ & _ & _ & _ & Hp & Hd & Hdi);
        [rewrite Hmo; discriminate|rewrite Hmo; discriminate|].
      destruct (Hmove tm ox oy) as (_ & Hp' & Hdi' & Hd').
      cbn zeta in Hm, Hp, Hd, Hdi, Hp', Hdi', Hd'.
      unfold dirtyCount. rewrite Hp, Hd, Hp', Hd', Hdi, Hdi', !List.filter_app. cbn.
      rewrite !app_nil_r. repeat split; congruence.
    + destruct (down (pointer b)) eqn:Hdn.
      * destruct (pointerUp_fields td te ox oy b) as (Hm & _ & _ & _ & _ & Hp & (evs & Hd & Hfil & _) & Hdi);
          [rewrite Hmo; discriminate|exact Hdn|].
        cbn zeta in Hm, Hp, Hd, Hdi. rewrite Hmo in Hp. cbn in Hp.
        rewrite andb_false_r in Hp. cbn in Hp.
        unfold dirtyCount. rewrite Hp, Hd, !List.filter_app, Hfil. cbn.
        rewrite !app_nil_r. repeat split; congruence.
      * rewrite pointerUp_idle by now right. repeat split; assumption.
Qed.

(** X8: in draw or erase mode, whatever pointer events arrive, the curve
    segments added to the path form one chain per stroke: every segment
    starts, with its control point, at the point where the segment before
    it ended (or at the last move-to), the first at the stored previous
    point. *)
Theorem stroke_segments_are_chained events : forall a,
  includes PathDrawingModes (_mode a) = true ->
  exists ops,
    path (context (handleAll K picker fill events a)) = path (context a) ++ ops /\
    chained (previous (pointer a)) ops.
Proof.
  intros a Hmode.
  assert (Hinv : let a' := handleAll K picker fill events a in
    _mode a' = _mode a /\
    exists ops,
      path (context a') = path (context a) ++ ops /\
      chained (previous (pointer a)) ops /\
      (down (pointer a') = true ->
       chainEnd (previous (pointer a)) ops = previous (pointer a'))).
  { induction events as [|e events IH] using rev_ind; cbn zeta.
    - split; [reflexivity|]. exists []. rewrite app_nil_r. cbn. auto.
    - rewrite handleAll_snoc.
      destruct IH as (Hmo & ops & Hpath & Hch & Hend).
      set (b := handleAll K picker fill events a) in *.
      destruct (handle_chain e b (previous (pointer a)) ops) as (Hmo' & ops' & Hp' & Hc' & He');
        [now rewrite Hmo|exact Hch|exact Hend|].
      cbn zeta in Hmo', Hp', Hc', He'.
      split; [congruence|]. exists (ops ++ ops').
      rewrite Hp', Hpath, <- app_assoc. auto. }
  destruct Hinv as (_ & ops & Hpath & Hch & _). eauto.
Qed.

(** X9: in draw or erase mode, whatever pointer events arrive, 'dirty' is
    dispatched at most once, and only together with the first setting of
    [_dirty] in draw mode: either the flag and the number of 'dirty'
    events are what they were, or the flag went from false to true and
    exactly one 'dirty' event was dispatched. *)
Theorem dirty_dispatched_at_most_once events : forall a,
  includes PathDrawingModes (_mode a) = true ->
  let a' := handleAll K picker fill events a in
  (_dirty a' = _dirty a /\ dirtyCount a' = dirtyCount a) \/
  (_dirty a = false /\ _mode a = DRAW /\ _dirty a' = true /\
   dirtyCount a' = S (dirtyCount a)).
Proof.
  intros a Hmode. cbn zeta.
  assert (Hinv : let a' := handleAll K picker fill events a in
    _mode a' = _mode a /\
    ((_dirty a' = _dirty a /\ dirtyCount a' = dirtyCount a) \/
     (_dirty a = false /\ _mode a = DRAW /\ _dirty a' = true /\
      dirtyCount a' = S (dirtyCount a)))).
  { induction events as [|e events IH] using rev_ind; cbn zeta.
    - split; [reflexivity|]. left. split; reflexivity.
    - rewrite handleAll_snoc. destruct IH as (Hmo & IH).
      set (b := handleAll K picker fill events a) in *.
      assert (Hmb : includes PathDrawingModes (_mode b) = true) by now rewrite Hmo.
      destruct (handle_chain e b (previous (pointer b)) [] Hmb I (fun _ => eq_refl))
        as (Hmo' & _).
      cbn zeta in Hmo'. split; [congruence|].
      pose proof (handle_dirty e b Hmb) as Hstep. cbn zeta in Hstep.
      destruct IH as [(Hdi & Hdc)|(Hdi & Hdraw & Hdi' & Hdc)];
        destruct Hstep as [(Hs1 & Hs2)|(Hs1 & Hs2 & Hs3 & Hs4)].
      + left. split; congruence.
      + right. repeat split; congruence.
      + right. repeat split; congruence.
      + congruence. }
  apply Hinv.
Qed.

Lemma set_mode_outcome v a :
  let a' := fst (set_mode v a) in
  (a' = a) \/
  (_mode a' = ERASE /\
   globalCompositeOperation (context a') = "destination-out"%string) \/
  ((_mode a' = DRAW \/ _mode a' = FILL) /\
   globalCompositeOperation (context a') = "source-over"%string) \/
  ((_mode a' = DISABLED \/ _mode a' = PICKER) /\
   globalCompositeOperation (context a') = globalCompositeOperation (context a)).
Proof.
  cbn zeta. destruct v; cbn; auto.
  destruct (String.eqb s ERASE); [right; left; split; reflexivity|].
  destruct (String.eqb s FILL); [right; right; left; split; [now right|reflexivity]|].
  destruct (String.eqb s DISABLED); [right; right; right; split; [now left|reflexivity]|].
  destruct (String.eqb s PICKER); [right; right; right; split; [now right|reflexivity]|].
  right; right; left; split; [now left|reflexivity].
Qed.

Lemma assign_keeps_composite s a :
  compositeMatchesMode a -> compositeMatchesMode (assign K a s).
Proof.
  intros (Hm & He & Hd). destruct s as [v|v|v]; cbn [assign].
  - destruct v; cbn; repeat split; auto.
  - destruct v; cbn; repeat split; auto.
  - destruct (set_mode_outcome v a) as [Heq|[[Hmo Hc]|[[Hmo Hc]|[Hmo Hc]]]];
      cbn zeta in *.
    + rewrite Heq. repeat split; auto.
    + unfold compositeMatchesMode. rewrite Hmo, Hc. repeat split; auto.
      intros [H|H]; discriminate.
    + unfold compositeMatchesMode. rewrite Hc.
      destruct Hmo as [-> | ->]; repeat split; auto; discriminate.
    + unfold compositeMatchesMode.
      destruct Hmo as [-> | ->]; repeat split; auto; try discriminate;
        intros [H|H]; discriminate.
Qed.

(** X10: however the three setters are used, with values of any type,
    starting from the constructor, [_mode] is one of the five mode names
    and the compositing operation goes with it: 'destination-out' in erase
    mode, 'source-over' in draw and fill mode. *)
Theorem composite_follows_mode (assignments : list Assignment) (color : string) :
  compositeMatchesMode (assignAll K assignments (construct K color)).
Proof.
  induction assignments as [|s l IH] using rev_ind.
  - cbn. repeat split; auto; discriminate.
  - unfold assignAll in *. rewrite fold_left_app. cbn [fold_left].
    now apply assign_keeps_composite.
Qed.

End WithConstants.

(** X11: reading [mode] after assigning a string gives the string back
    exactly when it is one of the five mode names; after any other string
    it gives 'draw'. *)
Theorem mode_round_trip (s : string) a :
  (_mode (fst (set_mode (VString s) a)) = s <-> isDrawingMode s = true) /\
  (isDrawingMode s = false -> _mode (fst (set_mode (VString s) a)) = DRAW).
Proof.
  unfold set_mode, isDrawingMode.
  destruct (String.eqb_spec s ERASE) as [->|He]; [cbn; intuition congruence|].
  destruct (String.eqb_spec s FILL) as [->|Hf]; [cbn; intuition congruence|].
  destruct (String.eqb_spec s DISABLED) as [->|Hd]; [cbn; intuition congruence|].
  destruct (String.eqb_spec s PICKER) as [->|Hp]; [cbn; intuition congruence|].
  destruct (String.eqb_spec s DRAW) as [->|Hdr]; cbn; intuition congruence.
Qed.

Lemma tap_strokes_a_dot_witness :
  let a := construct sampleConstants "#000000" in
  let a' := pointerUp sampleConstants 3 4 7 9
              (pointerDown sampleConstants (fun b => b) (fun b => b) 0 1 2 7 9 a) in
  down (pointer a) = false /\
  includes PathDrawingModes (_mode a) = true /\
  path (context a')
  = path (context a)
    ++ [BeginPath; MoveTo 7 9; QuadraticCurveTo 7 9 7 9; StrokePath; ClosePath].
Proof.
  cbn zeta. split; [reflexivity|]. split; [reflexivity|].
  apply (tap_strokes_a_dot sampleConstants (fun b => b) (fun b => b) 0 1 2 3 4 7 9
           (construct sampleConstants "#000000")); reflexivity.
Defined.

Lemma disabled_mode_strokes_nothing_witness :
  let a := fst (set_mode (VString "disabled") (construct sampleConstants "#000000")) in
  let events := [pointerdown 0 1 2 7 9; pointermove 3 8 9; pointerup 4 5 8 9] in
  _mode a = DISABLED /\
  List.filter isStroking
    (path (context (handleAll sampleConstants (fun b => b) (fun b => b) events a)))
  = List.filter isStroking (path (context a)).
Proof.
  cbn zeta. split; [reflexivity|].
  apply (disabled_mode_strokes_nothing sampleConstants (fun b => b) (fun b => b)
           [pointerdown 0 1 2 7 9; pointermove 3 8 9; pointerup 4 5 8 9]
           (fst (set_mode (VString "disabled") (construct sampleConstants "#000000")))).
  reflexivity.
Defined.

Lemma stroke_segments_are_chained_witness :
  let a := construct sampleConstants "#000000" in
  let events := [pointerdown 0 1 2 7 9; pointermove 3 8 9; pointerup 4 5 8 9] in
  includes PathDrawingModes (_mode a) = true /\
  exists ops,
    path (context (handleAll sampleConstants (fun b => b) (fun b => b) events a))
    = path (context a) ++ ops /\
    chained (previous (pointer a)) ops.
Proof.
  cbn zeta. split; [reflexivity|].
  apply (stroke_segments_are_chained sampleConstants (fun b => b) (fun b => b)
           [pointerdown 0 1 2 7 9; pointermove 3 8 9; pointerup 4 5 8 9]
           (construct sampleConstants "#000000")).
  reflexivity.
Defined.

Lemma dirty_dispatched_at_most_once_witness :
  let a := construct sampleConstants "#000000" in
  let events := [pointerdown 0 1 2 7 9; pointermove 3 8 9; pointerup 4 5 8 9] in
  let a' := handleAll sampleConstants (fun b => b) (fun b => b) events a in
  includes PathDrawingModes (_mode a) = true /\
  ((_dirty a' = _dirty a /\ dirtyCount a' = dirtyCount a) \/
   (_dirty a = false /\ _mode a = DRAW /\ _dirty a' = true /\
    dirtyCount a' = S (dirtyCount a))).
Proof.
  cbn zeta. split; [reflexivity|].
  apply (dirty_dispatched_at_most_once sampleConstants (fun b => b) (fun b => b)
           [pointerdown 0 1 2 7 9; pointermove 3 8 9; pointerup 4 5 8 9]
           (construct sampleConstants "#000000")).
  reflexivity.
Defined.

End HandlerFacts.

(** ** Properties of [clear] *)

Module CanvasFacts.

Import Stroke Canvas.
Local Open Scope R_scope.

(** X12: [clear] never returns early, dirty or not (its guard tests the
    method [isDirty] itself): it resets [_dirty], dispatches one 'clean'
    event and clears one rectangle that extends 10 pixels beyond the
    canvas on every side.  The mode is what it was; in erase mode the
    rectangle is cleared under 'source-over' and 'destination-out' is set
    again afterwards, in the other modes the context is not touched. *)
Theorem clear_always_cleans (s : Surface) :
  let s' := clear s in
  _dirty (core s') = false /\
  isDirty s' = false /\
  cleanEvents s' = S (cleanEvents s) /\
  _mode (core s') = _mode (core s) /\
  exists c,
    clearings s' = clearings s ++ [c] /\
    rect c = (-10, -10, canvasWidth s + 20, canvasHeight s + 20) /\
    (_mode (core s) = ERASE ->
     composite c = "source-over"%string /\
     globalCompositeOperation (context (core s')) = "destination-out"%string) /\
    (_mode (core s) <> ERASE ->
     composite c = globalCompositeOperation (context (core s)) /\
     context (core s') = context (core s)).
Proof.
  cbn zeta. unfold clear. cbn [truthy negb].
  cbn [core with_core dispatchClean _mode with_dirty].
  destruct (String.eqb_spec (_mode (core s)) ERASE) as [He|Hne].
  - unfold assignMode, clearRect, isDirty. cbn. rewrite He. repeat split.
    eexists. split; [reflexivity|]. cbn. repeat split; contradiction.
  - unfold clearRect, isDirty. cbn. repeat split.
    eexists. split; [reflexivity|]. cbn. repeat split; try contradiction.
Qed.

End CanvasFacts.

(** ** More on the fill engine *)

Module FillMore.

Import Fill FillRuns FillFacts.
Local Open Scope Z_scope.

(** What [fill] leaves alone while a pass is in flight. *)
Lemma fill_while_filling a :
  _filling a = true ->
  _fillStack (fill a) = _fillStack a ++ [requestAt (context a) (pointerX a, pointerY a)] /\
  dispatched (fill a) = dispatched a /\ timers (fill a) = timers a /\
  context (fill a) = context a /\ _filling (fill a) = true /\
  pointerX (fill a) = pointerX a /\ pointerY (fill a) = pointerY a.
Proof. intros H. unfold fill. rewrite H. cbn. repeat split. exact H. Qed.

(** X13: requests made while a pass is in flight are queued in the order
    they are made, each with its position and with the colour under the
    pointer at that moment; nothing is dispatched, no timer is set and the
    canvas is not touched. *)
Theorem requests_queue_in_order (positions : list (Q * Q)) : forall a,
  _filling a = true ->
  let a' := pointerDownAll positions a in
  _fillStack a' = _fillStack a ++ map (requestAt (context a)) positions /\
  dispatched a' = dispatched a /\
  timers a' = timers a /\
  context a' = context a /\
  _filling a' = true.
Proof.
  induction positions as [|[px py] positions IH]; intros a Hf; cbn zeta.
  - cbn. rewrite app_nil_r. repeat split. exact Hf.
  - cbn [pointerDownAll fold_left fst snd].
    change (fold_left _ positions ?b) with (pointerDownAll positions b).
    unfold pointerDown.
    destruct (fill_while_filling (with_pointer px py a) Hf)
      as (Hq & Hd & Ht & Hc & Hf' & _).
    destruct (IH (fill (with_pointer px py a)) Hf') as (Hq' & Hd' & Ht' & Hc' & Hf'').
    cbn zeta in Hq', Hd', Ht', Hc', Hf''.
    rewrite Hq', Hd', Ht', Hc', Hq, Hd, Ht, Hc. cbn [map].
    rewrite <- app_assoc. repeat split. exact Hf''.
Qed.


Lemma readPixel_some_in_buffer (data : list Z) pos p :
  readPixel data pos = Some p ->
  0 <= pos /\ pos + 3 < Z.of_nat (length data).
Proof.
  unfold readPixel, byteAt. intros H.
  destruct (Z.ltb_spec pos 0); [discriminate|].
  destruct (data !! Z.to_nat pos) eqn:E0; [|discriminate].
  destruct (pos + 1 <? 0); [discriminate|].
  destruct (data !! Z.to_nat (pos + 1)); [|discriminate].
  destruct (pos + 2 <? 0); [discriminate|].
  destruct (data !! Z.to_nat (pos + 2)); [|discriminate].
  destruct (Z.ltb_spec (pos + 3) 0); [discriminate|].
  destruct (data !! Z.to_nat (pos + 3)) eqn:E3; [|discriminate].
  apply lookup_lt_Some in E3. lia.
Qed.

Lemma readPixel_beyond (data : list Z) pos :
  Z.of_nat (length data) <= pos + 3 -> readPixel data pos = None.
Proof.
  intros H. destruct (readPixel data pos) as [p|] eqn:E; [|reflexivity].
  apply readPixel_some_in_buffer in E. lia.
Qed.

Lemma row_in_grid w h x r :
  0 < w -> 0 <= x < w ->
  0 <= offset w x r -> offset w x r + 3 < w * h * 4 ->
  inGrid w h x r.
Proof.
  unfold offset, inGrid. intros Hw Hx H0 H1. split; [exact Hx|]. split; nia.
Qed.

Lemma offset_is_pixel w x r : offset w x r = 4 * (r * w + x).
Proof. unfold offset. ring. Qed.

(** Flipping one entry of a list of distinct entries from true to false
    takes one off the count. *)
Lemma filter_flip_one (f g : nat -> bool) (l : list nat) (i : nat) :
  List.NoDup l -> In i l -> f i = true -> g i = false ->
  (forall j, j <> i -> g j = f j) ->
  (length (List.filter g l) + 1 = length (List.filter f l))%nat.
Proof.
  intros Hnd Hin Hf Hg Hother.
  induction l as [|j l IH]; [contradiction|].
  inversion Hnd as [|? ? Hnotin Hnd']; subst. cbn [List.filter].
  destruct (Nat.eq_dec j i) as [->|Hne].
  - rewrite Hf, Hg. cbn [length].
    assert (Hsame : List.filter g l = List.filter f l).
    { apply List.filter_ext_in. intros k Hk. apply Hother. intros ->. contradiction. }
    rewrite Hsame. lia.
  - rewrite (Hother j Hne). destruct Hin as [Heq|Hin]; [contradiction|].
    specialize (IH Hnd' Hin). destruct (f j); cbn [length]; lia.
Qed.

Lemma filter_same (f g : nat -> bool) (l : list nat) :
  (forall j, In j l -> g j = f j) -> List.filter g l = List.filter f l.
Proof. intros H. now apply List.filter_ext_in. Qed.

Lemma filter_length_bound (f : nat -> bool) (l : list nat) :
  (length (List.filter f l) <= length l)%nat.
Proof. induction l as [|j l IH]; cbn; [lia|destruct (f j); cbn; lia]. Qed.

Section Scan.

Variable similar : rgba -> rgba -> bool.
Variable blend : rgba -> Z * Z * Z -> rgba -> Q -> rgba.
Variables W H : Z.
Variable fillColor : Z * Z * Z.
Variable startColor : rgba.
Variable alpha : Q.

Hypothesis HW : 0 < W.

Local Abbreviation colour := (colorPixel blend fillColor startColor alpha).
Local Abbreviation matches := (fun data pos => matchColor similar data startColor pos).
Local Abbreviation top := (runTop similar W startColor).

Lemma colorPixel_length pos data : length (colour pos data) = length data.
Proof.
  unfold colorPixel. destruct (readPixel data pos); [apply length_writePixel|reflexivity].
Qed.

Lemma matches_in_buffer data pos :
  matches data pos = true ->
  exists p, readPixel data pos = Some p /\ similar p startColor = true /\
            0 <= pos /\ pos + 3 < Z.of_nat (length data).
Proof.
  unfold matchColor. destruct (readPixel data pos) as [p|] eqn:E; [|discriminate].
  intros Hs. exists p. destruct (readPixel_some_in_buffer data pos p E). auto.
Qed.

Lemma walkUp_position (fuel : nat) : forall data x y pos y' pos',
  pos = offset W x y ->
  walkUp similar W startColor fuel data y pos = Some (y', pos') ->
  pos' = offset W x (y' + 1).
Proof.
  induction fuel as [|fuel IH]; intros data x y pos y' pos' -> Hw; [discriminate|].
  cbn [walkUp] in Hw. destruct ((0 <=? y) && _).
  - apply (IH data x (y - 1) (offset W x y - W * 4) y' pos');
      [now rewrite offset_up|exact Hw].
  - injection Hw as <- <-. f_equal. lia.
Qed.

Lemma lookSide_seeds data pos nx y reach st :
  seedsInColumns W st -> 0 <= nx < W ->
  seedsInColumns W (fst (lookSide similar startColor data pos nx y reach st)).
Proof.
  intros Hst Hnx. unfold lookSide.
  destruct (matchColor _ _ _ _), reach; cbn; auto.
  constructor; auto.
Qed.

Lemma lookSide_grows data pos nx y reach st :
  exists pushed,
    fst (lookSide similar startColor data pos nx y reach st) = pushed ++ st /\
    (length pushed <= 1)%nat.
Proof.
  unfold lookSide. destruct (matchColor _ _ _ _), reach; cbn.
  - exists []. auto.
  - exists [(nx, y)]. auto.
  - exists []. auto.
  - exists []. auto.
Qed.

(** One turn of the downward loop, when its test holds. *)
Lemma walkDown_step (fuel : nat) x y pos rl rr data st :
  (y <? H - 1) && matches data pos = true ->
  exists rl' rr' st',
    walkDown similar blend W H fillColor startColor alpha (S fuel) x y pos rl rr data st
    = walkDown similar blend W H fillColor startColor alpha fuel x (y + 1)
               (pos + W * 4) rl' rr' (colour pos data) st' /\
    (0 <= x < W -> seedsInColumns W st -> seedsInColumns W st') /\
    (exists pushed, st' = pushed ++ st /\ (length pushed <= 2)%nat).
Proof.
  intros Hg. cbn [walkDown]. rewrite Hg.
  set (data1 := colour pos data).
  destruct (Z.ltb_spec 0 x) as [Hx0|Hx0];
    destruct (Z.ltb_spec x (W - 1)) as [Hx1|Hx1].
  - pose proof (lookSide_seeds data1 (pos - 4) (x - 1) (y + 1) rl st) as Hs1.
    destruct (lookSide_grows data1 (pos - 4) (x - 1) (y + 1) rl st) as (p1 & Hp1 & Hl1).
    destruct (lookSide similar startColor data1 (pos - 4) (x - 1) (y + 1) rl st)
      as [st1 rl1].
    pose proof (lookSide_seeds data1 (pos + 4) (x + 1) (y + 1) rr st1) as Hs2.
    destruct (lookSide_grows data1 (pos + 4) (x + 1) (y + 1) rr st1) as (p2 & Hp2 & Hl2).
    destruct (lookSide similar startColor data1 (pos + 4) (x + 1) (y + 1) rr st1)
      as [st2 rr1].
    cbn [fst] in *. exists rl1, rr1, st2. split; [reflexivity|]. split.
    + intros Hx Hst. apply Hs2; [apply Hs1; [exact Hst|lia]|lia].
    + exists (p2 ++ p1). subst. rewrite <- app_assoc. split; [reflexivity|].
      rewrite List.length_app. lia.
  - pose proof (lookSide_seeds data1 (pos - 4) (x - 1) (y + 1) rl st) as Hs1.
    destruct (lookSide_grows data1 (pos - 4) (x - 1) (y + 1) rl st) as (p1 & Hp1 & Hl1).
    destruct (lookSide similar startColor data1 (pos - 4) (x - 1) (y + 1) rl st)
      as [st1 rl1].
    cbn [fst] in *. exists rl1, rr, st1. split; [reflexivity|]. split.
    + intros Hx Hst. apply Hs1; [exact Hst|lia].
    + exists p1. split; [exact Hp1|lia].
  - pose proof (lookSide_seeds data1 (pos + 4) (x + 1) (y + 1) rr st) as Hs2.
    destruct (lookSide_grows data1 (pos + 4) (x + 1) (y + 1) rr st) as (p2 & Hp2 & Hl2).
    destruct (lookSide similar startColor data1 (pos + 4) (x + 1) (y + 1) rr st)
      as [st2 rr1].
    cbn [fst] in *. exists rl, rr1, st2. split; [reflexivity|]. split.
    + intros Hx Hst. apply Hs2; [exact Hst|lia].
    + exists p2. split; [exact Hp2|lia].
  - exists rl, rr, st. split; [reflexivity|]. split; [auto|].
    exists []. split; [reflexivity|cbn; lia].
Qed.

Lemma walkDown_stop (fuel : nat) x y pos rl rr data st :
  (y <? H - 1) && matches data pos = false ->
  walkDown similar blend W H fillColor startColor alpha (S fuel) x y pos rl rr data st
  = Some (data, st).
Proof. intros Hg. cbn [walkDown]. now rewrite Hg. Qed.

Section Sound.

Variable data0 : list Z.
Hypothesis Hlen : Z.of_nat (length data0) = W * H * 4.
Hypothesis Hfresh : forall p,
  similar p startColor = true ->
  similar (blend p fillColor startColor alpha) startColor = false.

Local Abbreviation Sound :=
  (paintedWhereMatching similar blend W H fillColor startColor alpha data0).

Lemma Sound_refl : Sound data0.
Proof. split; [reflexivity|]. intros x y _. now left. Qed.

Lemma colorPixel_sound data x y :
  Sound data -> inGrid W H x y ->
  matches data (offset W x y) = true ->
  Sound (colour (offset W x y) data).
Proof.
  intros [Hl Hp] Hg Hm.
  destruct (matches_in_buffer _ _ Hm) as (p & Hpx & Hs & H0 & H3).
  split; [now rewrite colorPixel_length|].
  unfold colorPixel. rewrite Hpx.
  intros x' y' Hg'.
  destruct (Z.eq_dec x' x) as [->|Hnx]; [destruct (Z.eq_dec y' y) as [->|Hny]|].
  - rewrite readPixel_writePixel_eq by lia.
    destruct (Hp x y Hg) as [Hsame|[Hm0 Hb]].
    + right. rewrite Hsame in Hpx. split.
      * unfold matchColor. now rewrite Hpx.
      * now rewrite Hpx.
    + exfalso. rewrite Hpx in Hb. unfold matchColor in Hm0.
      destruct (readPixel data0 (offset W x y)) as [p0|]; [|discriminate].
      cbn in Hb. injection Hb as ->. rewrite (Hfresh p0 Hm0) in Hs. discriminate.
  - rewrite readPixel_writePixel_ne; [now apply Hp|].
    apply (offset_apart W H); auto. congruence.
  - rewrite readPixel_writePixel_ne; [now apply Hp|].
    apply (offset_apart W H); auto. congruence.
Qed.

Lemma walkDown_sound (fuel : nat) : forall x y pos rl rr data st data' st',
  pos = offset W x (y + 1) -> 0 <= x < W ->
  Sound data -> seedsInColumns W st ->
  walkDown similar blend W H fillColor startColor alpha fuel x y pos rl rr data st
  = Some (data', st') ->
  Sound data' /\ seedsInColumns W st'.
Proof.
  induction fuel as [|fuel IH]; intros x y pos rl rr data st data' st' Hpos Hx Hs Hst Hw;
    [discriminate|].
  destruct ((y <? H - 1) && matches data pos) eqn:Hg.
  - destruct (walkDown_step fuel x y pos rl rr data st Hg)
      as (rl' & rr' & st1 & Heq & Hseeds & _).
    rewrite Heq in Hw. clear Heq.
    apply andb_prop in Hg as [_ Hm].
    destruct (matches_in_buffer _ _ Hm) as (p & _ & _ & H0 & H3).
    assert (Hg : inGrid W H x (y + 1)).
    { apply row_in_grid; auto; rewrite <- Hpos; [lia|].
      destruct Hs as [Hl _]. rewrite Hl in H3. lia. }
    apply (IH x (y + 1) (pos + W * 4) rl' rr' (colour pos data) st1 data' st'); auto.
    + subst pos. unfold offset. ring.
    + subst pos. now apply colorPixel_sound.
  - rewrite (walkDown_stop fuel x y pos rl rr data st Hg) in Hw.
    injection Hw as <- <-. auto.
Qed.

Lemma scan_sound (fuel : nat) : forall data st data',
  Sound data -> seedsInColumns W st ->
  scan similar blend W H fillColor startColor alpha fuel data st = Some data' ->
  Sound data'.
Proof.
  induction fuel as [|fuel IH]; intros data st data' Hs Hst Hsc; [discriminate|].
  cbn [scan] in Hsc. destruct st as [|[x y] st]; [now injection Hsc as <-|].
  inversion Hst as [|? ? Hx Hst']; subst. cbn [fst] in Hx.
  destruct (walkUp similar W startColor fuel data y ((y * W + x) * 4))
    as [[y1 pos1]|] eqn:Hup; [|discriminate].
  apply (walkUp_position fuel data x) in Hup; [|reflexivity].
  destruct (walkDown similar blend W H fillColor startColor alpha fuel x (y1 + 1)
              (pos1 + W * 4) false false data st) as [[data1 st1]|] eqn:Hdown;
    [|discriminate].
  apply walkDown_sound in Hdown; auto.
  - destruct Hdown as [Hs1 Hst1]. now apply (IH data1 st1).
  - subst pos1. unfold offset. ring.
Qed.

End Sound.

Local Abbreviation count := (matchCount similar startColor (Z.to_nat (W * H))).

Lemma count_bound data : (count data <= Z.to_nat (W * H))%nat.
Proof.
  unfold matchCount.
  etransitivity; [apply filter_length_bound|]. now rewrite length_seq.
Qed.

Lemma walkUp_ends (m : nat) : forall (fuel : nat) data y pos,
  y < Z.of_nat m -> (m < fuel)%nat ->
  exists r, walkUp similar W startColor fuel data y pos = Some r.
Proof.
  induction m as [|m IH]; intros fuel data y pos Hy Hf;
    (destruct fuel as [|fuel]; [lia|]); cbn [walkUp].
  - destruct (Z.leb_spec 0 y); [lia|]. cbn. eauto.
  - destruct ((0 <=? y) && _); [|eauto]. apply IH; lia.
Qed.

Lemma walkUp_total (fuel : nat) data x y :
  Z.of_nat (length data) = W * H * 4 -> 0 <= x ->
  H < Z.of_nat fuel ->
  exists r, walkUp similar W startColor fuel data y (offset W x y) = Some r.
Proof.
  intros Hl Hx Hf.
  assert (HH : 0 <= H) by nia.
  destruct (Z_lt_le_dec y H) as [Hy|Hy].
  - apply (walkUp_ends (Z.to_nat (Z.max 0 (y + 1)))); lia.
  - destruct fuel as [|fuel]; [lia|]. cbn [walkUp].
    unfold matchColor. rewrite readPixel_beyond.
    + rewrite andb_false_r. eauto.
    + rewrite Hl. unfold offset. nia.
Qed.

Section Ends.

Hypothesis Hfresh : forall p,
  similar p startColor = true ->
  similar (blend p fillColor startColor alpha) startColor = false.

Lemma colorPixel_count data pos k :
  Z.of_nat (length data) = W * H * 4 -> pos = 4 * k ->
  matches data pos = true ->
  (count (colour pos data) + 1 = count data)%nat.
Proof.
  intros Hl -> Hm.
  destruct (matches_in_buffer _ _ Hm) as (p & Hpx & Hs & H0 & H3).
  unfold matchCount. apply (filter_flip_one _ _ _ (Z.to_nat k)).
  - apply List.seq_NoDup.
  - apply in_seq. nia.
  - unfold matchAt. rewrite Z2Nat.id by lia. exact Hm.
  - unfold matchAt, matchColor, colorPixel. rewrite Z2Nat.id by lia.
    rewrite Hpx, readPixel_writePixel_eq by lia. now apply Hfresh.
  - intros j Hj. unfold matchAt, matchColor, colorPixel. rewrite Hpx.
    rewrite readPixel_writePixel_ne; [reflexivity|lia].
Qed.

Lemma walkDown_ends (fuel : nat) : forall x y pos k rl rr data st,
  pos = 4 * k -> Z.of_nat (length data) = W * H * 4 ->
  0 <= x < W -> seedsInColumns W st -> (count data < fuel)%nat ->
  exists data' st',
    walkDown similar blend W H fillColor startColor alpha fuel x y pos rl rr data st
    = Some (data', st') /\
    Z.of_nat (length data') = W * H * 4 /\ seedsInColumns W st' /\
    (length st' + 2 * count data' <= length st + 2 * count data)%nat.
Proof.
  induction fuel as [|fuel IH]; intros x y pos k rl rr data st Hpos Hl Hx Hst Hc; [lia|].
  destruct ((y <? H - 1) && matches data pos) eqn:Hg.
  - destruct (walkDown_step fuel x y pos rl rr data st Hg)
      as (rl' & rr' & st1 & Heq & Hseeds & pushed & Hpushed & Hlp).
    rewrite Heq. clear Heq. apply andb_prop in Hg as [_ Hm].
    pose proof (colorPixel_count data pos k Hl Hpos Hm) as Hcount.
    destruct (IH x (y + 1) (pos + W * 4) (k + W) rl' rr' (colour pos data) st1)
      as (data' & st' & Hrun & Hl' & Hst' & Hpot); auto.
    + lia.
    + now rewrite colorPixel_length.
    + lia.
    + exists data', st'. split; [exact Hrun|]. split; [exact Hl'|]. split; [exact Hst'|].
      subst st1. rewrite List.length_app in Hpot. lia.
  - rewrite (walkDown_stop fuel x y pos rl rr data st Hg).
    exists data, st. auto.
Qed.

Lemma scan_ends (fuel : nat) : forall data st,
  Z.of_nat (length data) = W * H * 4 -> seedsInColumns W st ->
  Z.of_nat (length st + 2 * count data) + Z.max H (W * H) < Z.of_nat fuel ->
  exists data',
    scan similar blend W H fillColor startColor alpha fuel data st = Some data' /\
    Z.of_nat (length data') = W * H * 4.
Proof.
  induction fuel as [|fuel IH]; intros data st Hl Hst Hf.
  - assert (0 <= H) by nia. lia.
  - cbn [scan]. destruct st as [|[x y] st]; [eauto|].
    inversion Hst as [|? ? Hx Hst']; subst. cbn [fst] in Hx. cbn [length] in Hf.
    destruct (walkUp_total fuel data x y Hl) as ([y1 pos1] & Hup); [lia|lia|].
    change ((y * W + x) * 4) with (offset W x y). rewrite Hup.
    pose proof (count_bound data) as Hcb.
    assert (HWH : 0 <= W * H) by lia.
    destruct (walkDown_ends fuel x (y1 + 1) (pos1 + W * 4)
                ((y1 + 1) * W + x + W) false false data st)
      as (data1 & st1 & Hdown & Hl1 & Hst1 & Hpot); auto.
    + apply (walkUp_position fuel data x) in Hup; [|reflexivity].
      subst pos1. unfold offset. ring.
    + lia.
    + rewrite Hdown. apply IH; auto. lia.
Qed.

Lemma scan_returns (fuel : nat) data st :
  Z.of_nat (length data) = W * H * 4 -> seedsInColumns W st ->
  Z.of_nat (length st) + 3 * (W * H) + H < Z.of_nat fuel ->
  exists data',
    scan similar blend W H fillColor startColor alpha fuel data st = Some data' /\
    Z.of_nat (length data') = W * H * 4.
Proof.
  intros Hl Hst Hf. apply scan_ends; auto.
  pose proof (count_bound data). assert (0 <= H) by nia. lia.
Qed.

End Ends.

Section Loops.

Hypothesis Hkeep : forall p,
  similar p startColor = true ->
  similar (blend p fillColor startColor alpha) startColor = true.

Lemma colorPixel_keeps data pos k :
  pos = 4 * k -> matches data pos = true ->
  forall j, matches (colour pos data) (4 * j) = matches data (4 * j).
Proof.
  intros -> Hm j.
  destruct (matches_in_buffer _ _ Hm) as (p & Hpx & Hs & H0 & H3).
  unfold colorPixel. rewrite Hpx.
  destruct (Z.eq_dec j k) as [->|Hne].
  - rewrite Hm. unfold matchColor. rewrite readPixel_writePixel_eq by lia.
    now apply Hkeep.
  - unfold matchColor. rewrite readPixel_writePixel_ne; [reflexivity|lia].
Qed.

Lemma walkDown_keeps (fuel : nat) : forall x y pos k rl rr data st data' st',
  pos = 4 * k ->
  walkDown similar blend W H fillColor startColor alpha fuel x y pos rl rr data st
  = Some (data', st') ->
  (forall j, matches data' (4 * j) = matches data (4 * j)) /\
  exists pushed, st' = pushed ++ st.
Proof.
  induction fuel as [|fuel IH]; intros x y pos k rl rr data st data' st' Hpos Hw;
    [discriminate|].
  destruct ((y <? H - 1) && matches data pos) eqn:Hg.
  - destruct (walkDown_step fuel x y pos rl rr data st Hg)
      as (rl' & rr' & st1 & Heq & _ & pushed & Hpushed & _).
    rewrite Heq in Hw. clear Heq. apply andb_prop in Hg as [_ Hm].
    apply (IH x (y + 1) (pos + W * 4) (k + W)) in Hw; [|lia].
    destruct Hw as [Hsame (pushed' & Hst')]. split.
    + intros j. rewrite Hsame. now apply (colorPixel_keeps data pos k).
    + exists (pushed' ++ pushed). subst. now rewrite <- app_assoc.
  - rewrite (walkDown_stop fuel x y pos rl rr data st Hg) in Hw.
    injection Hw as <- <-. split; [reflexivity|]. now exists [].
Qed.

(** A run that starts on a matching pixel with a matching pixel to its
    right leaves a seed for that pixel on the stack; the same to the
    left. *)
Lemma walkDown_seeds_right (fuel : nat) x r data st data' st' :
  0 <= x -> x + 1 < W -> r < H ->
  matches data (offset W x r) = true ->
  matches data (offset W (x + 1) r) = true ->
  walkDown similar blend W H fillColor startColor alpha fuel x (r - 1) (offset W x r)
           false false data st = Some (data', st') ->
  In (x + 1, r) st'.
Proof.
  intros Hx Hx1 Hr Hm Hm1 Hw. destruct fuel as [|fuel]; [discriminate|].
  cbn [walkDown] in Hw. rewrite Hm in Hw.
  destruct (Z.ltb_spec (r - 1) (H - 1)); [|lia]. cbn [andb] in Hw.
  destruct (Z.ltb_spec x (W - 1)); [|lia].
  replace (r - 1 + 1) with r in Hw by lia.
  set (data1 := colour (offset W x r) data) in Hw.
  assert (Hm1' : matches data1 (offset W x r + 4) = true).
  { rewrite <- offset_right, offset_is_pixel. unfold data1.
    rewrite (colorPixel_keeps data _ (r * W + x)); [|apply offset_is_pixel|exact Hm].
    now rewrite <- offset_is_pixel. }
  destruct (if 0 <? x then _ else _) as [st1 rl1].
  unfold lookSide in Hw. rewrite Hm1' in Hw. cbn [negb] in Hw.
  apply (walkDown_keeps fuel x r _ ((r * W + x) + W)) in Hw.
  - destruct Hw as [_ (pushed & ->)]. apply in_or_app. right. now left.
  - unfold offset. ring.
Qed.

Lemma walkDown_seeds_left (fuel : nat) x r data st data' st' :
  0 < x -> x < W -> r < H ->
  matches data (offset W x r) = true ->
  matches data (offset W (x - 1) r) = true ->
  walkDown similar blend W H fillColor startColor alpha fuel x (r - 1) (offset W x r)
           false false data st = Some (data', st') ->
  In (x - 1, r) st'.
Proof.
  intros Hx Hx1 Hr Hm Hm1 Hw. destruct fuel as [|fuel]; [discriminate|].
  cbn [walkDown] in Hw. rewrite Hm in Hw.
  destruct (Z.ltb_spec (r - 1) (H - 1)); [|lia]. cbn [andb] in Hw.
  destruct (Z.ltb_spec 0 x); [|lia].
  replace (r - 1 + 1) with r in Hw by lia.
  set (data1 := colour (offset W x r) data) in Hw.
  assert (Hm1' : matches data1 (offset W x r - 4) = true).
  { rewrite <- offset_left, offset_is_pixel. unfold data1.
    rewrite (colorPixel_keeps data _ (r * W + x)); [|apply offset_is_pixel|exact Hm].
    now rewrite <- offset_is_pixel. }
  unfold lookSide at 1 in Hw. rewrite Hm1' in Hw. cbn [negb] in Hw.
  destruct (if x <? W - 1 then _ else _) as [st2 rr1] eqn:Hside.
  assert (Hin : In (x - 1, r) st2).
  { destruct (x <? W - 1).
    - destruct (lookSide_grows data1 (offset W x r + 4) (x + 1) r false
                  ((x - 1, r) :: st)) as (pushed & Hp & _).
      rewrite Hside in Hp. cbn [fst] in Hp. subst st2.
      apply in_or_app. right. now left.
    - injection Hside as <- <-. now left. }
  apply (walkDown_keeps fuel x r _ ((r * W + x) + W)) in Hw.
  - destruct Hw as [_ (pushed & ->)]. apply in_or_app. now right.
  - unfold offset. ring.
Qed.

Lemma walkUp_from_top (fuel : nat) data x r res :
  0 <= r -> top data x r ->
  walkUp similar W startColor fuel data r (offset W x r) = Some res ->
  res = (r - 2, offset W x (r - 1)).
Proof.
  intros Hr [Hm Htop] Hw. destruct fuel as [|fuel]; [discriminate|].
  cbn [walkUp] in Hw. rewrite Hm in Hw.
  destruct (Z.leb_spec 0 r); [|lia]. cbn [andb] in Hw.
  destruct fuel as [|fuel]; [discriminate|]. cbn [walkUp] in Hw.
  rewrite <- offset_up, Htop in Hw. injection Hw as <-. f_equal. lia.
Qed.

Lemma runTop_kept data data' x r :
  (forall j, matches data' (4 * j) = matches data (4 * j)) ->
  top data x r -> top data' x r.
Proof.
  intros Hsame [Hm Htop]. unfold runTop.
  rewrite !offset_is_pixel, !Hsame, <- !offset_is_pixel. auto.
Qed.

Lemma scan_loops (x r : Z) (fuel : nat) : forall data st,
  0 <= x -> x + 1 < W -> 0 <= r < H ->
  top data x r -> top data (x + 1) r ->
  In (x, r) st \/ In (x + 1, r) st ->
  scan similar blend W H fillColor startColor alpha fuel data st = None.
Proof.
  induction fuel as [|fuel IH]; intros data st Hx Hx1 Hr Ht Ht1 Hin; [reflexivity|].
  cbn [scan]. destruct st as [|[a b] st]; [destruct Hin as [[]|[]]|].
  change ((b * W + a) * 4) with (offset W a b).
  destruct (walkUp similar W startColor fuel data b (offset W a b))
    as [[y1 pos1]|] eqn:Hup; [|reflexivity].
  destruct (walkDown _ _ _ _ _ _ _ _ _ _ _ _ _ _ _) as [[data1 st1]|] eqn:Hdown;
    [|reflexivity].
  pose proof (walkUp_position fuel data a b _ _ _ eq_refl Hup) as Hpos1.
  assert (Hk : (forall j, matches data1 (4 * j) = matches data (4 * j)) /\
               exists pushed, st1 = pushed ++ st).
  { apply (walkDown_keeps fuel a (y1 + 1) (pos1 + W * 4) ((y1 + 1) * W + a + W)
             false false data st data1 st1); [|exact Hdown].
    subst pos1. unfold offset. ring. }
  destruct Hk as [Hsame (pushed & Hst1)].
  apply IH; try assumption;
    try (apply (runTop_kept data); [exact Hsame|assumption]).
  destruct (decide ((a, b) = (x, r))) as [Heq|Hne];
    [|destruct (decide ((a, b) = (x + 1, r))) as [Heq1|Hne1]].
  - injection Heq as -> ->.
    apply walkUp_from_top in Hup; [|lia|exact Ht]. injection Hup as -> ->.
    right. apply (walkDown_seeds_right fuel x r data st data1 st1);
      try lia; try apply Ht; try apply Ht1.
    replace (r - 1) with (r - 2 + 1) by lia.
    replace (offset W x r) with (offset W x (r - 1) + W * 4)
      by (unfold offset; ring).
    exact Hdown.
  - injection Heq1 as -> ->.
    apply walkUp_from_top in Hup; [|lia|exact Ht1]. injection Hup as -> ->.
    left. replace x with (x + 1 - 1) at 1 by lia.
    apply (walkDown_seeds_left fuel (x + 1) r data st data1 st1);
      try lia; try apply Ht1.
    + replace (x + 1 - 1) with x by lia. apply Ht.
    + replace (r - 1) with (r - 2 + 1) by lia.
      replace (offset W (x + 1) r) with (offset W (x + 1) (r - 1) + W * 4)
        by (unfold offset; ring).
      exact Hdown.
  - subst st1. destruct Hin as [[Hin|Hin]|[Hin|Hin]]; try congruence.
    + left. apply in_or_app. now right.
    + right. apply in_or_app. now right.
Qed.

End Loops.

End Scan.
Section WithPixels.

Variable similar : rgba -> rgba -> bool.
Variable blend : rgba -> Z * Z * Z -> rgba -> Q -> rgba.
Variable hexToRgb : string -> Z * Z * Z.

(** X14: when [_floodFill] returns, what is left of the queue is a tail of
    what it was: requests leave it from the front only, in order, and none
    is added.  Every pass that ran and was not stopped as a same-colour
    no-op committed once; requests are left over only when the last
    pass that ran was stopped so.  The pointer, the timers and the size and
    stroke colour of the canvas are untouched. *)
Theorem flood_fill_leaves_a_tail_of_the_queue (fuel : nat) :
  forall (_startX _startY : Q) (startColor : rgba) a a',
  _floodFill similar blend hexToRgb fuel _startX _startY startColor a = Some a' ->
  exists k : nat,
    (k <= length (_fillStack a))%nat /\
    _fillStack a' = skipn k (_fillStack a) /\
    ((commits (context a') = (commits (context a) + k + 1)%nat /\ _fillStack a' = []) \/
     commits (context a') = (commits (context a) + k)%nat) /\
    timers a' = timers a /\
    pointerX a' = pointerX a /\ pointerY a' = pointerY a /\
    canvas_width (context a') = canvas_width (context a) /\
    canvas_height (context a') = canvas_height (context a) /\
    strokeStyle (context a') = strokeStyle (context a).
Proof.
  induction fuel as [|fuel IH]; intros sx sy c a a' H; [discriminate|].
  cbn [_floodFill] in H.
  destruct (matchColor _ _ _ _).
  - injection H as <-. exists 0%nat. cbn.
    split; [lia|]. split; [reflexivity|]. split; [right; lia|]. repeat split.
  - destruct (scan _ _ _ _ _ _ _ _ _) as [layer|]; [|discriminate].
    cbn [_fillStack with_context] in H.
    destruct (_fillStack a) as [|next rest] eqn:Hq.
    + injection H as <-. exists 0%nat. cbn. rewrite ?Hq.
      split; [lia|]. split; [reflexivity|]. split; [left; split; [lia|reflexivity]|].
      repeat split.
    + apply IH in H. destruct H as (k & Hk & Hs & Hc & Ht & Hx & Hy & Hw & Hh & Hst).
      cbn in Hk, Hs, Hc, Ht, Hx, Hy, Hw, Hh, Hst.
      exists (S k). cbn [length skipn].
      split; [lia|]. split; [exact Hs|].
      split; [destruct Hc as [[Hc He]|Hc]; [left; split; [lia|exact He]|right; lia]|].
      repeat split; assumption.
Qed.

(** X15: a flood fill changes only pixels that matched the start colour
    when it began, and each of them holds the blend of what it held: on a
    canvas whose buffer has four bytes per pixel, with the seed in a column
    of the canvas, a blend that takes a matching pixel out of the match,
    and no request queued, every pixel of the result is either untouched
    or a matching pixel blended once. *)
Theorem flood_fill_paints_matching_pixels_only (fuel : nat)
    (_startX _startY : Q) (startColor : rgba) (a a' : Atrament) :
  let c := context a in
  0 < canvas_width c ->
  Z.of_nat (length (surface c)) = canvas_width c * canvas_height c * 4 ->
  0 <= Qfloor _startX < canvas_width c ->
  paintUnmatches similar blend (fillColorOf hexToRgb c) startColor (fillAlpha c) ->
  _fillStack a = [] ->
  _floodFill similar blend hexToRgb fuel _startX _startY startColor a = Some a' ->
  paintedWhereMatching similar blend (canvas_width c) (canvas_height c)
    (fillColorOf hexToRgb c) startColor (fillAlpha c)
    (surface c) (surface (context a')).
Proof.
  intros c HW Hl Hx Hfresh Hq H.
  destruct fuel as [|fuel]; [discriminate|]. cbn [_floodFill] in H.
  destruct (matchColor _ _ _ _).
  - injection H as <-. cbn. now apply Sound_refl.
  - fold c in H.
    destruct (scan _ _ _ _ _ _ _ _ _) as [layer|] eqn:Hscan; [|discriminate].
    cbn [_fillStack with_context] in H. rewrite Hq in H. injection H as <-. cbn.
    apply (scan_sound similar blend (canvas_width c) (canvas_height c)
             (fillColorOf hexToRgb c) startColor (fillAlpha c) HW (surface c) Hl Hfresh
             fuel (surface c) [(Qfloor _startX, Qfloor _startY)] layer).
    + now apply Sound_refl.
    + constructor; [exact Hx|constructor].
    + exact Hscan.
Qed.

(** X16: a flood fill returns: on a canvas of [W] by [H] pixels whose buffer
    has four bytes per pixel, with the seed of the pass and of every queued
    request in a column of the canvas, and a blend that takes a pixel out
    of the match with the start colour of its pass, the loops end within
    [3 * W * H + H + 3] turns plus one for each queued request. *)
Theorem flood_fill_returns (fuel : nat)
    (_startX _startY : Q) (startColor : rgba) (a : Atrament) :
  let c := context a in
  0 < canvas_width c ->
  Z.of_nat (length (surface c)) = canvas_width c * canvas_height c * 4 ->
  0 <= Qfloor _startX < canvas_width c ->
  paintUnmatches similar blend (fillColorOf hexToRgb c) startColor (fillAlpha c) ->
  Forall (requestInCanvas similar blend (canvas_width c) (fillColorOf hexToRgb c)
            (fillAlpha c)) (_fillStack a) ->
  3 * (canvas_width c * canvas_height c) + canvas_height c + 2
    + Z.of_nat (length (_fillStack a)) < Z.of_nat fuel ->
  exists a', _floodFill similar blend hexToRgb fuel _startX _startY startColor a = Some a'.
Proof.
  cbv zeta. remember (_fillStack a) as q eqn:Hq.
  revert fuel _startX _startY startColor a Hq.
  induction q as [|next rest IH];
    intros fuel sx sy startColor a Hq HW Hl Hx Hfresh Hreqs Hf;
    (destruct fuel as [|fuel]; [cbn [length] in Hf; nia|]); cbn [_floodFill];
    (destruct (matchColor _ _ _ _); [eauto|]);
    destruct (scan_returns similar blend (canvas_width (context a))
                (canvas_height (context a)) (fillColorOf hexToRgb (context a))
                startColor (fillAlpha (context a)) HW Hfresh fuel
                (surface (context a)) [(Qfloor sx, Qfloor sy)])
      as (layer & Hscan & Hlayer);
    try exact Hl; try (constructor; [exact Hx|constructor]);
    try (cbn [length] in *; nia);
    rewrite Hscan; cbn [_fillStack with_context]; rewrite <- Hq.
  - eauto.
  - inversion Hreqs as [|? ? [Hnx Hnf] Hrest]; subst.
    apply IH; cbn; auto. cbn [length] in Hf. lia.
Qed.

(** X17: a flood fill whose blend leaves a matching pixel matching never
    returns when the seed has a matching pixel to its right: with the
    seed and that pixel at the top of their runs, and the seed not of the
    opaque fill colour, the loops outlast every number of turns. *)
Theorem flood_fill_loops_when_paint_still_matches (fuel : nat)
    (_startX _startY : Q) (startColor : rgba) (a : Atrament) :
  let c := context a in
  let x := Qfloor _startX in
  let r := Qfloor _startY in
  0 <= x -> x + 1 < canvas_width c -> 0 <= r < canvas_height c ->
  runTop similar (canvas_width c) startColor (surface c) x r ->
  runTop similar (canvas_width c) startColor (surface c) (x + 1) r ->
  paintStillMatches similar blend (fillColorOf hexToRgb c) startColor (fillAlpha c) ->
  matchColor similar (surface c) (opaque (fillColorOf hexToRgb c))
    (offset (canvas_width c) x r) = false ->
  _floodFill similar blend hexToRgb fuel _startX _startY startColor a = None.
Proof.
  intros c x r Hx Hx1 Hr Ht Ht1 Hkeep Hnoop.
  destruct fuel as [|fuel]; [reflexivity|]. cbn [_floodFill].
  change ((Qfloor _startY * canvas_width (context a) + Qfloor _startX) * 4)
    with (offset (canvas_width c) x r).
  fold c. rewrite Hnoop.
  rewrite (scan_loops similar blend (canvas_width c) (canvas_height c)
             (fillColorOf hexToRgb c) startColor (fillAlpha c) Hkeep x r fuel);
    auto.
  left. now left.
Qed.

End WithPixels.

(** X18: the opacity that a fill writes saturates: it is 255 for every
    global alpha of at least one tenth, and 2550 times the global alpha
    below that. *)
Theorem fill_alpha_saturates (c : Context) :
  ((1 # 10 <= globalAlpha c)%Q -> (fillAlpha c == 255)%Q) /\
  ((globalAlpha c <= 1 # 10)%Q -> (fillAlpha c == globalAlpha c * 2550)%Q) /\
  (fillAlpha c <= 255)%Q.
Proof.
  unfold fillAlpha. repeat split.
  - intros H. apply Q.min_r. revert H. destruct (globalAlpha c) as [n d].
    unfold Qle, Qmult. cbn. lia.
  - intros H. rewrite Q.min_l.
    + destruct (globalAlpha c) as [n d]. unfold Qeq, Qmult. cbn. lia.
    + revert H. destruct (globalAlpha c) as [n d]. unfold Qle, Qmult. cbn. lia.
  - apply Q.le_min_r.
Qed.

Lemma requests_queue_in_order_witness :
  let a := pointerDown 0 0 stripe in
  _filling a = true /\
  _fillStack (pointerDownAll [(2, 0); (1, 0)]%Q a)
  = _fillStack a ++ map (requestAt (context a)) [(2, 0); (1, 0)]%Q.
Proof.
  cbn zeta. split; [reflexivity|].
  apply (requests_queue_in_order [(2, 0); (1, 0)]%Q (pointerDown 0 0 stripe)).
  reflexivity.
Defined.

Lemma flood_fill_leaves_a_tail_of_the_queue_witness :
  let a := with_timers [] (with_pointer 0 0 (pointerDown 2 0 (pointerDown 0 0 stripe))) in
  exists a',
    _floodFill (within 0) overwrite hexColor 20 0 0 pureRed a = Some a' /\
    exists k : nat, _fillStack a' = skipn k (_fillStack a).
Proof.
  cbn zeta. eexists. split; [vm_compute; reflexivity|].
  destruct (flood_fill_leaves_a_tail_of_the_queue (within 0) overwrite hexColor 20 0 0 pureRed
              (with_timers [] (with_pointer 0 0 (pointerDown 2 0 (pointerDown 0 0 stripe))))
              _ ltac:(vm_compute; reflexivity)) as (k & _ & Hs & _).
  exists k. exact Hs.
Defined.

Lemma flood_fill_paints_matching_pixels_only_witness :
  exists a',
    _floodFill (within 0) overwrite hexColor 12 (1 # 2) (3 # 2) white block = Some a' /\
    paintedWhereMatching (within 0) overwrite 3 3 (255, 0, 0) white 255
      (surface (context block)) (surface (context a')).
Proof.
  eexists. split; [vm_compute; reflexivity|].
  apply (flood_fill_paints_matching_pixels_only (within 0) overwrite hexColor 12
           (1 # 2) (3 # 2) white block).
  - reflexivity.
  - reflexivity.
  - vm_compute. split; [discriminate|reflexivity].
  - intros p _. reflexivity.
  - reflexivity.
  - vm_compute. reflexivity.
Defined.

Lemma flood_fill_returns_witness :
  let a := with_fillStack [ {| seedX := 2; seedY := 0; seedColor := black |} ] block in
  exists a', _floodFill (within 0) overwrite hexColor 40 (1 # 2) (3 # 2) white a = Some a'.
Proof.
  cbn zeta.
  apply (flood_fill_returns (within 0) overwrite hexColor 40 (1 # 2) (3 # 2) white
           (with_fillStack [ {| seedX := 2; seedY := 0; seedColor := black |} ] block)).
  - reflexivity.
  - reflexivity.
  - vm_compute. split; [discriminate|reflexivity].
  - intros p _. reflexivity.
  - constructor; [|constructor]. split.
    + vm_compute. split; [discriminate|reflexivity].
    + intros p _. reflexivity.
  - reflexivity.
Defined.

Lemma flood_fill_loops_when_paint_still_matches_witness :
  paintStillMatches (within 0) overwrite (255, 0, 0) tintedRed 128 /\
  _floodFill (within 0) overwrite hexColor 1000 0 0 tintedRed tinted = None.
Proof.
  split; [intros p _; reflexivity|].
  apply (flood_fill_loops_when_paint_still_matches (within 0) overwrite hexColor 1000
           0 0 tintedRed tinted).
  - vm_compute. discriminate.
  - reflexivity.
  - vm_compute. split; [discriminate|reflexivity].
  - split; reflexivity.
  - split; reflexivity.
  - intros p _. reflexivity.
  - reflexivity.
Defined.

End FillMore.

(** ** Properties of the colour picker *)

Module PickerFacts.

Import Fill Picker.
Local Open Scope Z_scope.

Lemma string_length_append (s t : string) :
  String.length (s ++ t) = (String.length s + String.length t)%nat.
Proof. induction s as [|c s IH]; cbn; auto. Qed.

Lemma string_append_assoc (s t u : string) :
  ((s ++ t) ++ u)%string = (s ++ (t ++ u))%string.
Proof. induction s as [|c s IH]; cbn; [reflexivity|now rewrite IH]. Qed.

Lemma substring_skip (p t : string) (n m : nat) :
  substring (String.length p + n) m (p ++ t) = substring n m t.
Proof. induction p as [|c p IH]; cbn; auto. Qed.

Lemma slice_of_tail (p t : string) :
  (4 <= String.length t)%nat ->
  slice (-4) (-1) (p ++ t) = substring (String.length t - 4) 3 t.
Proof.
  intros Ht. unfold slice. rewrite string_length_append. cbn [Z.ltb Z.compare].
  replace (Z.to_nat (Z.max (Z.of_nat (String.length p + String.length t) + -4) 0))
    with (String.length p + (String.length t - 4))%nat by lia.
  replace (Z.to_nat (Z.max (Z.max (Z.of_nat (String.length p + String.length t) + -1) 0
                            - Z.max (Z.of_nat (String.length p + String.length t) + -4) 0) 0))
    with 3%nat by lia.
  apply substring_skip.
Qed.

Lemma tails_checked :
  forallb (fun b =>
    forallb (fun a =>
      (4 <=? String.length (tailOf b a))%nat
      && Bool.eqb (String.eqb (substring (String.length (tailOf b a) - 4) 3 (tailOf b a)) "255")
                  (a =? 255)%nat)
      (seq 0 256))
    (seq 0 256) = true.
Proof. vm_compute. reflexivity. Qed.

Lemma tail_decides (b a : Z) :
  0 <= b <= 255 -> 0 <= a <= 255 ->
  let t := (decimal b ++ "," ++ decimal a ++ ")")%string in
  (4 <= String.length t)%nat /\
  (String.eqb (substring (String.length t - 4) 3 t) "255" = (a =? 255)).
Proof.
  intros Hb Ha. cbn zeta.
  pose proof tails_checked as H.
  rewrite forallb_forall in H. specialize (H (Z.to_nat b)).
  rewrite in_seq in H. specialize (H ltac:(lia)).
  rewrite forallb_forall in H. specialize (H (Z.to_nat a)).
  rewrite in_seq in H. specialize (H ltac:(lia)).
  unfold tailOf in H. rewrite !Z2Nat.id in H by lia.
  apply andb_prop in H as [H1 H2]. apply Nat.leb_le in H1.
  apply Bool.eqb_prop in H2. split; [exact H1|]. rewrite H2.
  destruct (Z.eqb_spec a 255) as [->|Hne]; [reflexivity|].
  apply Nat.eqb_neq. lia.
Qed.

Lemma readPixel_bytes data pos p :
  wellFormed data -> readPixel data pos = Some p ->
  0 <= red p <= 255 /\ 0 <= green p <= 255 /\ 0 <= blue p <= 255 /\ 0 <= opacity p <= 255.
Proof.
  unfold wellFormed, readPixel, byteAt. intros Hw H.
  destruct (pos <? 0); [discriminate|]. destruct (data !! Z.to_nat pos) as [r|] eqn:Er; [|discriminate].
  destruct (pos + 1 <? 0); [discriminate|].
  destruct (data !! Z.to_nat (pos + 1)) as [g|] eqn:Eg; [|discriminate].
  destruct (pos + 2 <? 0); [discriminate|].
  destruct (data !! Z.to_nat (pos + 2)) as [b|] eqn:Eb; [|discriminate].
  destruct (pos + 3 <? 0); [discriminate|].
  destruct (data !! Z.to_nat (pos + 3)) as [a|] eqn:Ea; [|discriminate].
  injection H as <-. cbn.
  rewrite List.Forall_forall in Hw.
  repeat split; apply Hw; apply list_elem_of_In; eapply list_elem_of_lookup_2; eauto.
Qed.

Lemma getImageData1_bytes c sx sy :
  wellFormed (surface c) ->
  let p := getImageData1 c sx sy in
  0 <= red p <= 255 /\ 0 <= green p <= 255 /\ 0 <= blue p <= 255 /\ 0 <= opacity p <= 255.
Proof.
  intros Hw. cbn zeta. unfold getImageData1.
  destruct (_ && _ && _ && _); [|cbn; lia].
  destruct (readPixel _ _) as [p|] eqn:E; [|cbn; lia].
  now apply (readPixel_bytes _ _ _ Hw E).
Qed.

(** X19: on a canvas whose buffer holds bytes, [picker] takes the colour
    under the pointer exactly when that pixel is fully opaque: then the
    stroke colour becomes the string rgba(r,g,b,255) of the pixel and one
    'colorpicked' event carries it; otherwise nothing changes and nothing
    is dispatched. *)
Theorem picker_takes_opaque_pixels_only a :
  wellFormed (surface (context a)) ->
  let p := getImageData1 (context a) (pointerX a) (pointerY a) in
  let color := ("rgba(" ++ decimal (red p) ++ "," ++ decimal (green p) ++ ","
                ++ decimal (blue p) ++ ",255)")%string in
  (opacity p = 255 ->
   picker a = (with_strokeStyle color a, [color])) /\
  (opacity p <> 255 -> picker a = (a, [])).
Proof.
  intros Hw. cbn zeta.
  destruct (getImageData1_bytes (context a) (pointerX a) (pointerY a) Hw)
    as (Hr & Hg & Hb & Ha).
  cbn zeta in Hr, Hg, Hb, Ha.
  set (p := getImageData1 (context a) (pointerX a) (pointerY a)) in *.
  destruct (tail_decides (blue p) (opacity p) Hb Ha) as [Hlen Hdec]. cbn zeta in Hlen, Hdec.
  assert (Hcolor : ("rgba(" ++ dataToString p ++ ")")%string
                   = (("rgba(" ++ decimal (red p) ++ "," ++ decimal (green p) ++ ",")
                      ++ (decimal (blue p) ++ "," ++ decimal (opacity p) ++ ")"))%string).
  { unfold dataToString, bytes. cbn [map String.concat].
    rewrite ?string_append_assoc. reflexivity. }
  unfold picker. fold p. rewrite Hcolor, slice_of_tail by exact Hlen. rewrite Hdec.
  split.
  - intros H255. rewrite H255. cbn [Z.eqb Pos.eqb].
    rewrite ?string_append_assoc. reflexivity.
  - intros Hne. destruct (Z.eqb_spec (opacity p) 255); [contradiction|reflexivity].
Qed.

Lemma picker_takes_opaque_pixels_only_witness :
  wellFormed (surface (context stripe)) /\
  picker stripe = (with_strokeStyle "rgba(255,0,0,255)" stripe, ["rgba(255,0,0,255)"%string]).
Proof.
  assert (Hw : wellFormed (surface (context stripe))).
  { unfold wellFormed. cbn. repeat constructor; lia. }
  split; [exact Hw|].
  apply (picker_takes_opaque_pixels_only stripe Hw). reflexivity.
Defined.

End PickerFacts.
